(** * A shallow embedding of [aho_corasick.hpp]

    The header implements a multi-pattern matcher: a trie of keywords
    ([basic_trie], [state]), its compilation into an Aho-Corasick automaton
    (failure links), the scan of a text, and an interval tree used to drop
    overlapping matches.

    Conventions of the embedding:
    - [size_t] is a [Z] in [0, 2^64) and [unsigned]/[uint32_t] a [Z] in
      [0, 2^32); every arithmetic operation writes its wrap-around out.
    - a [state*] is an index into the arena [heap] owned by the trie
      ([new state] appends to the arena); a nullable pointer is an
      [option ptr] with [None] for [nullptr].
    - a C++ function that can dereference [nullptr], erase [end()], fail an
      [assert], throw [std::out_of_range], read past the end of a range or
      reach the end of its body without the [return] its type asks for
      returns a [result]: [Undefined] stands for those, [OutOfFuel] for a
      loop that was cut off. A caller of such a function passes [Undefined]
      on.
    - [std::basic_string<char>] is a [list ascii]. *)

From Stdlib Require Import ZArith Ascii String List Lia.
From stdpp Require Import base option list sorting.

Local Open Scope Z_scope.
Set Warnings "-register-all".

(** ** Outcomes of running a piece of the program *)

Inductive result (A : Type) : Type :=
| Ok (a : A)
| Undefined
| OutOfFuel.
Arguments Ok {A} a.
Arguments Undefined {A}.
Arguments OutOfFuel {A}.

#[global] Instance result_ret : MRet result := fun A a => Ok a.
#[global] Instance result_bind : MBind result := fun A B f m =>
  match m with
  | Ok a => f a
  | Undefined => Undefined
  | OutOfFuel => OutOfFuel
  end.

(** ** Machine integers *)

Definition wrap64 (z : Z) : Z := z mod 2 ^ 64.
Definition wrap32 (z : Z) : Z := z mod 2 ^ 32.

Definition CharType : Type := ascii.
Abbreviation string_type := (list CharType) (only parsing).
Definition char_code (c : CharType) : Z := Z.of_N (N_of_ascii c).
#[global] Instance CharType_eq_dec : EqDecision CharType := ascii_dec.

(** [size()] of a string or a vector: the number of elements it holds (a
    container never holds [2^64] elements, so nothing wraps here). *)
Definition string_size (s : string_type) : Z := Z.of_nat (length s).
Definition vector_size {A} (v : list A) : Z := Z.of_nat (length v).

(** [std::sort(first, last, comp)]: the result is a permutation of the input
    that is ordered by [comp]; the order of elements that [comp] does not
    separate is unspecified in C++, here it is the one of a stable insertion
    sort. *)
Fixpoint sort_insert {A} (comp : A -> A -> bool) (x : A) (l : list A) : list A :=
  match l with
  | [] => [x]
  | y :: l' => if comp y x then y :: sort_insert comp x l'
               else if comp x y then x :: y :: l'
               else y :: sort_insert comp x l'
  end.

Definition std_sort {A} (comp : A -> A -> bool) (l : list A) : list A :=
  fold_left (fun acc x => sort_insert comp x acc) l [].

(** [v.erase(std::find(v.begin(), v.end(), x))]: the first element equal to
    [x] is removed; when there is none the call erases [end()]. *)
Fixpoint erase_find {A} (eqb : A -> A -> bool) (x : A) (v : list A) : result (list A) :=
  match v with
  | [] => Undefined
  | y :: v' => if eqb y x then Ok v' else v'' ← erase_find eqb x v'; Ok (y :: v'')
  end.

(** ** [class transition_map] *)

Module transition_map.

(** [std::map<CharType, UniquePtr>]: the bindings in ascending key order.
    Whether [char] is signed is left to the implementation; the keys are
    ordered here by their codes from 0 to 255. The order shows in the
    iteration over the map alone: [find] and [size] do not depend on it. *)
Abbreviation map_type ptr := (list (CharType * ptr)) (only parsing).

Section with_ptr.
Context {ptr : Type}.

Fixpoint map_assign (character : CharType) (next : ptr) (m : map_type ptr) : map_type ptr :=
  match m with
  | [] => [(character, next)]
  | (k, v) :: m' =>
      if char_code character <? char_code k then (character, next) :: (k, v) :: m'
      else if char_code k <? char_code character then (k, v) :: map_assign character next m'
      else (k, next) :: m'
  end.

Definition set_transition (character : CharType) (next : ptr) (d_map : map_type ptr) : map_type ptr :=
  map_assign character next d_map.

Definition size (d_map : map_type ptr) : Z := vector_size d_map.

Definition freeze (d_map : map_type ptr) : map_type ptr := d_map.

(** [find] returns [true] and the pointer ([Some]) or [false] ([None]). *)
Fixpoint find (character : CharType) (d_map : map_type ptr) : option ptr :=
  match d_map with
  | [] => None
  | (k, v) :: m' => if Ascii.eqb k character then Some v else find character m'
  end.

(** How control leaves the body of a function declared to return an [A]:
    through a [return] statement, or by reaching the closing brace with the
    locals as they are and nothing returned. *)
Inductive body_end (A : Type) : Type :=
| Returns (value : A)
| FlowsOffEnd (locals : A).

(** The bodies of [get_states] and [get_transitions] as written: the loop
    fills the local [result]; no [return] statement follows it. *)
Definition get_states_body (d_map : map_type ptr) : body_end (list ptr) :=
  let result := fold_left (fun result it => result ++ [snd it]) d_map [] in
  FlowsOffEnd _ result.

Definition get_transitions_body (d_map : map_type ptr) : body_end (list CharType) :=
  let result := fold_left (fun result it => result ++ [fst it]) d_map [] in
  FlowsOffEnd _ result.

(** What a caller receives: the returned value when there is one. *)
Definition returned {A} (b : body_end A) : result A :=
  match b with
  | Returns _ v => Ok v
  | FlowsOffEnd _ _ => Undefined
  end.

Definition get_states (d_map : map_type ptr) : result (list ptr) :=
  returned (get_states_body d_map).

Definition get_transitions (d_map : map_type ptr) : result (list CharType) :=
  returned (get_transitions_body d_map).

End with_ptr.
End transition_map.

(** ** [class interval] *)

Module interval.

Record t : Type := mk { d_start : Z; d_end : Z }.

Definition max_pos : Z := 2 ^ 64 - 1.

Definition get_start (i : t) : Z := d_start i.
Definition get_end (i : t) : Z := d_end i.
Definition size (i : t) : Z := wrap64 (d_end i - d_start i + 1).

Definition overlaps_with (i other : t) : bool :=
  (d_start i <=? d_end other) && (d_end i >=? d_start other).

Definition overlaps_with_point (i : t) (point : Z) : bool :=
  (d_start i <=? point) && (point <=? d_end i).

(** [operator<], [operator!=] and [operator==]. *)
Definition lt (i other : t) : bool := get_start i <? get_start other.
Definition neq (i other : t) : bool :=
  negb (get_start i =? get_start other) || negb (get_end i =? get_end other).
Definition eq (i other : t) : bool :=
  (get_start i =? get_start other) && (get_end i =? get_end other).

End interval.

(** A type [T] deriving from [interval]: the member functions of the base
    class are reached through the base sub-object. *)
Class IsInterval (T : Type) : Type := base_interval : T -> interval.t.
#[global] Instance interval_is_interval : IsInterval interval.t := fun i => i.

(** ** [class interval_tree<T>] *)

Module interval_tree.

Section with_T.
Context {T : Type} `{IsInterval T}.

Definition get_start (i : T) : Z := interval.get_start (base_interval i).
Definition get_end (i : T) : Z := interval.get_end (base_interval i).
Definition size (i : T) : Z := interval.size (base_interval i).
Definition lt (a b : T) : bool := interval.lt (base_interval a) (base_interval b).
Definition neq (a b : T) : bool := interval.neq (base_interval a) (base_interval b).
Definition eq (a b : T) : bool := interval.eq (base_interval a) (base_interval b).

Abbreviation interval_collection := (list T) (only parsing).

Inductive node : Type :=
| Node (d_point : Z) (d_left d_right : option node) (d_intervals : interval_collection).

Definition determine_median (intervals : interval_collection) : Z :=
  let '(start, end_) :=
    fold_left (fun '(start, end_) i =>
      let cur_start := get_start i in
      let cur_end := get_end i in
      let start := if (start =? interval.max_pos) || (cur_start <? start) then cur_start else start in
      let end_ := if (end_ =? interval.max_pos) || (cur_end >? end_) then cur_end else end_ in
      (start, end_)) intervals (interval.max_pos, interval.max_pos) in
  wrap64 (start + end_) / 2.

(** The loop of the constructor: [(to_left, to_right, d_intervals)]. *)
Fixpoint distribute (d_point : Z) (intervals : interval_collection)
  : interval_collection * interval_collection * interval_collection :=
  match intervals with
  | [] => ([], [], [])
  | i :: rest =>
      let '(to_left, to_right, here) := distribute d_point rest in
      if get_end i <? d_point then (i :: to_left, to_right, here)
      else if get_start i >? d_point then (to_left, i :: to_right, here)
      else (to_left, to_right, i :: here)
  end.

(** [node::node(intervals)]; each level of recursion uses one unit of fuel. *)
Fixpoint new_node (fuel : nat) (intervals : interval_collection) : result node :=
  match fuel with
  | O => OutOfFuel
  | S fuel =>
      let d_point := determine_median intervals in
      let '(to_left, to_right, d_intervals) := distribute d_point intervals in
      d_left ← (if (0 <? length to_left)%nat
                then child ← new_node fuel to_left; Ok (Some child) else Ok None);
      d_right ← (if (0 <? length to_right)%nat
                 then child ← new_node fuel to_right; Ok (Some child) else Ok None);
      Ok (Node d_point d_left d_right d_intervals)
  end.

Definition add_to_overlaps (i : T) (overlaps new_overlaps : interval_collection) : interval_collection :=
  fold_left (fun overlaps cur => if neq cur i then overlaps ++ [cur] else overlaps) new_overlaps overlaps.

Inductive direction : Type := LEFT | RIGHT.

Definition check_overlaps (d_intervals : interval_collection) (i : T) (d : direction) : interval_collection :=
  fold_left (fun overlaps cur =>
    match d with
    | LEFT => if get_start cur <=? get_end i then overlaps ++ [cur] else overlaps
    | RIGHT => if get_end cur >=? get_start i then overlaps ++ [cur] else overlaps
    end) d_intervals [].

Definition check_left_overlaps (d_intervals : interval_collection) (i : T) : interval_collection :=
  check_overlaps d_intervals i LEFT.
Definition check_right_overlaps (d_intervals : interval_collection) (i : T) : interval_collection :=
  check_overlaps d_intervals i RIGHT.

(** [node::find_overlaps], with [find_overlapping_ranges] unfolded at its
    three call sites (a null child gives the empty collection). *)
Fixpoint node_find_overlaps (n : node) (i : T) : interval_collection :=
  match n with
  | Node d_point d_left d_right d_intervals =>
      let find_overlapping_ranges (child : option node) :=
        match child with
        | Some c => node_find_overlaps c i
        | None => []
        end in
      if d_point <? get_start i then
        let overlaps := add_to_overlaps i [] (find_overlapping_ranges d_right) in
        add_to_overlaps i overlaps (check_right_overlaps d_intervals i)
      else if d_point >? get_end i then
        let overlaps := add_to_overlaps i [] (find_overlapping_ranges d_left) in
        add_to_overlaps i overlaps (check_left_overlaps d_intervals i)
      else
        let overlaps := add_to_overlaps i [] d_intervals in
        let overlaps := add_to_overlaps i overlaps (find_overlapping_ranges d_left) in
        add_to_overlaps i overlaps (find_overlapping_ranges d_right)
  end.

(** [interval_tree(intervals)]: the tree is its root node. *)
Definition new (intervals : interval_collection) : result node :=
  new_node (S (length intervals)) intervals.

Definition find_overlaps (d_root : node) (i : T) : interval_collection :=
  node_find_overlaps d_root i.

(** [std::set<T>] ordered by [T]'s [operator<]: ascending, one element per
    class of elements that [operator<] does not separate. *)
Abbreviation set_type := (list T) (only parsing).

Fixpoint set_insert (x : T) (s : set_type) : set_type :=
  match s with
  | [] => [x]
  | y :: s' => if lt x y then x :: y :: s'
               else if lt y x then y :: set_insert x s'
               else y :: s'
  end.

Definition set_contains (x : T) (s : set_type) : bool :=
  existsb (fun y => negb (lt x y) && negb (lt y x)) s.

(** The comparison used by the first sort of [remove_overlaps]. *)
Definition by_size_then_start (a b : T) : bool :=
  if wrap64 (size b - size a) =? 0 then get_start a >? get_start b
  else size a >? size b.

Definition by_start (a b : T) : bool := get_start a <? get_start b.

(** The marking loop of [remove_overlaps]: the final [remove_tmp]. *)
Definition mark_overlaps (d_root : node) (sorted : interval_collection) : set_type :=
  fold_left (fun remove_tmp i =>
    if set_contains i remove_tmp then remove_tmp
    else fold_left (fun remove_tmp overlap => set_insert overlap remove_tmp)
           (find_overlaps d_root i) remove_tmp) sorted [].

Definition remove_overlaps (d_root : node) (intervals : interval_collection)
  : result interval_collection :=
  let result := std_sort by_size_then_start intervals in
  let remove_tmp := mark_overlaps d_root result in
  result ← fold_left (fun result i => result ← result; erase_find eq i result)
             remove_tmp (Ok result);
  Ok (std_sort by_start result).

End with_T.
Arguments node T : clear implicits.
End interval_tree.

(** ** [class emit<CharType>] *)

Module emit.

Record t : Type := mk { base : interval.t; d_keyword : string_type; d_index : Z }.

Definition new (start end_ : Z) (keyword : string_type) (index : Z) : t :=
  mk (interval.mk start end_) keyword index.

Definition empty : t := mk (interval.mk interval.max_pos interval.max_pos) [] 0.

Definition get_start (e : t) : Z := interval.get_start (base e).
Definition get_end (e : t) : Z := interval.get_end (base e).
Definition get_keyword (e : t) : string_type := d_keyword e.
Definition get_index (e : t) : Z := d_index e.
Definition is_empty (e : t) : bool :=
  (get_start e =? interval.max_pos) && (get_end e =? interval.max_pos).

End emit.

#[global] Instance emit_is_interval : IsInterval emit.t := emit.base.

(** ** [class token] *)

Module token.

Inductive token_type : Type := TYPE_FRAGMENT | TYPE_MATCH.

Record t : Type := mk { d_type : token_type; d_fragment : string_type; d_emit : emit.t }.

(** [token(fragment)] and [token(fragment, e)]. *)
Definition new_fragment (fragment : string_type) : t := mk TYPE_FRAGMENT fragment emit.empty.
Definition new_match (fragment : string_type) (e : emit.t) : t := mk TYPE_MATCH fragment e.

Definition is_match (tk : t) : bool :=
  match d_type tk with
  | TYPE_MATCH => true
  | TYPE_FRAGMENT => false
  end.
Definition get_fragment (tk : t) : string_type := d_fragment tk.
Definition get_emit (tk : t) : emit.t := d_emit tk.

End token.

(** ** [class state<CharType, TransitionMap>] *)

Module state.

Abbreviation ptr := nat (only parsing).
Abbreviation key_index := (list CharType * Z)%type (only parsing).
Abbreviation string_collection := (list key_index) (only parsing).

Record t : Type := mk {
  d_depth : Z;
  d_idx : Z;
  d_string_idx : Z;
  d_root : option ptr;
  d_parent : option ptr;
  d_success : transition_map.map_type ptr;
  d_failure : option ptr;
  d_emits : string_collection
}.

(** [state(size_t depth)] constructed at address [this]. *)
Definition new (this : ptr) (depth : Z) : t :=
  mk depth 0 0 (if depth =? 0 then Some this else None) None [] None [].

(** The private [next_state(character, ignore_root_state)]. *)
Definition next_state_from (s : t) (character : CharType) (ignore_root_state : bool) : option ptr :=
  let result := transition_map.find character (d_success s) in
  match result with
  | None => if negb ignore_root_state && bool_decide (d_root s <> None) then d_root s else result
  | Some _ => result
  end.

Definition next_state (s : t) (character : CharType) : option ptr :=
  next_state_from s character false.

Definition next_state_ignore_root_state (s : t) (character : CharType) : option ptr :=
  next_state_from s character true.

Definition get_depth (s : t) : Z := d_depth s.

Definition add_emit (keyword : string_type) (index : Z) (s : t) : t :=
  mk (d_depth s) (d_idx s) (d_string_idx s) (d_root s) (d_parent s) (d_success s)
     (d_failure s) (d_emits s ++ [(keyword, index)]).

Definition add_emits (emits : string_collection) (s : t) : t :=
  fold_left (fun s e => add_emit (fst e) (snd e) s) emits s.

Definition get_emits (s : t) : string_collection := d_emits s.

Definition clear_emits (s : t) : t :=
  mk (d_depth s) (d_idx s) (d_string_idx s) (d_root s) (d_parent s) (d_success s)
     (d_failure s) [].

Definition failure (s : t) : option ptr := d_failure s.

Definition set_failure (fail_state : option ptr) (s : t) : t :=
  mk (d_depth s) (d_idx s) (d_string_idx s) (d_root s) (d_parent s) (d_success s)
     fail_state (d_emits s).

Definition parent (s : t) : option ptr := d_parent s.

Definition set_parent (parent_state : option ptr) (s : t) : t :=
  mk (d_depth s) (d_idx s) (d_string_idx s) (d_root s) parent_state (d_success s)
     (d_failure s) (d_emits s).

Definition index (s : t) : Z := d_idx s.

(** [set_index(uint32_t idx)]: the argument is converted to 32 bits. *)
Definition set_index (idx : Z) (s : t) : t :=
  mk (d_depth s) (wrap32 idx) (d_string_idx s) (d_root s) (d_parent s) (d_success s)
     (d_failure s) (d_emits s).

Definition string_index (s : t) : Z := d_string_idx s.

Definition set_string_index (idx : Z) (s : t) : t :=
  mk (d_depth s) (d_idx s) (wrap32 idx) (d_root s) (d_parent s) (d_success s)
     (d_failure s) (d_emits s).

Definition set_success (success : transition_map.map_type ptr) (s : t) : t :=
  mk (d_depth s) (d_idx s) (d_string_idx s) (d_root s) (d_parent s) success
     (d_failure s) (d_emits s).

Definition goto_transition_count (s : t) : Z := transition_map.size (d_success s).

Definition less_than_bfs_order (s other : t) : bool := d_idx s <? d_idx other.
Definition greater_than_bfs_order (s other : t) : bool := negb (less_than_bfs_order s other).

Definition freeze (s : t) : t := set_success (transition_map.freeze (d_success s)) s.

(** [state::get_states] and [state::get_transitions] forward to the
    transition map. *)
Definition get_states (s : t) : result (list ptr) := transition_map.get_states (d_success s).
Definition get_transitions (s : t) : result (list CharType) :=
  transition_map.get_transitions (d_success s).

(** The arena of all states of one trie: a [state*] is an index into it. *)
Abbreviation heap := (list t) (only parsing).

(** [p->...]: the state a non-null pointer refers to. *)
Definition deref (h : heap) (p : ptr) : result t :=
  match h !! p with
  | Some s => Ok s
  | None => Undefined
  end.

(** Using a nullable pointer where the code dereferences it. *)
Definition nonnull (p : option ptr) : result ptr :=
  match p with
  | Some p => Ok p
  | None => Undefined
  end.

(** [p->f(...)] for a mutating member function [f]. *)
Definition update (h : heap) (p : ptr) (f : t -> t) : result heap :=
  s ← deref h p; Ok (<[p := f s]> h).

(** [this->add_state(character)]; [new state] is allocated at the end of the
    arena. *)
Definition add_state (h : heap) (this : ptr) (character : CharType) : result (heap * ptr) :=
  s ← deref h this;
  match next_state_ignore_root_state s character with
  | Some next => Ok (h, next)
  | None =>
      let next := length h in
      let h := h ++ [set_parent (Some this) (new next (wrap64 (d_depth s + 1)))] in
      h ← update h this (fun s => set_success (transition_map.set_transition character next (d_success s)) s);
      Ok (h, next)
  end.

End state.

(** ** [class basic_trie<CharType, TransitionMap>] *)

Module basic_trie.

Import state.

Abbreviation emit_collection := (list emit.t) (only parsing).

Record config : Type := mk_config {
  d_allow_overlaps : bool;
  d_only_whole_words : bool;
  d_case_insensitive : bool;
  d_allow_substrings : bool;
  d_store_states_in_bfs_order : bool
}.

(** [config()]. *)
Definition default_config : config := mk_config true false false true false.

Definition is_allow_overlaps (c : config) : bool := d_allow_overlaps c.
Definition set_allow_overlaps (val : bool) (c : config) : config :=
  mk_config val (d_only_whole_words c) (d_case_insensitive c) (d_allow_substrings c)
            (d_store_states_in_bfs_order c).
Definition is_only_whole_words (c : config) : bool := d_only_whole_words c.
Definition set_only_whole_words (val : bool) (c : config) : config :=
  mk_config (d_allow_overlaps c) val (d_case_insensitive c) (d_allow_substrings c)
            (d_store_states_in_bfs_order c).
Definition is_case_insensitive (c : config) : bool := d_case_insensitive c.
Definition set_case_insensitive (val : bool) (c : config) : config :=
  mk_config (d_allow_overlaps c) (d_only_whole_words c) val (d_allow_substrings c)
            (d_store_states_in_bfs_order c).
Definition is_allow_substrings (c : config) : bool := d_allow_substrings c.
Definition set_allow_substrings (val : bool) (c : config) : config :=
  mk_config (d_allow_overlaps c) (d_only_whole_words c) (d_case_insensitive c) val
            (d_store_states_in_bfs_order c).
Definition is_store_states_in_bfs_order (c : config) : bool := d_store_states_in_bfs_order c.
Definition set_store_states_in_bfs_order (val : bool) (c : config) : config :=
  mk_config (d_allow_overlaps c) (d_only_whole_words c) (d_case_insensitive c)
            (d_allow_substrings c) val.

(** The members of the trie; [states] is the arena that [d_root] and every
    [state*] point into. *)
Record t : Type := mk {
  states : heap;
  d_root : ptr;
  d_config : config;
  d_postprocessed : bool;
  d_num_keywords : Z;
  d_state_count : Z;
  d_states_in_bfs_order : list ptr;
  d_final_states_in_bfs_order : list ptr
}.

Definition with_states (h : heap) (tr : t) : t :=
  mk h (d_root tr) (d_config tr) (d_postprocessed tr) (d_num_keywords tr) (d_state_count tr)
     (d_states_in_bfs_order tr) (d_final_states_in_bfs_order tr).

Definition with_config (c : config) (tr : t) : t :=
  mk (states tr) (d_root tr) c (d_postprocessed tr) (d_num_keywords tr) (d_state_count tr)
     (d_states_in_bfs_order tr) (d_final_states_in_bfs_order tr).

(** [basic_trie(const config& c)]: the root is the only state. *)
Definition new_with (c : config) : t := mk [state.new 0%nat 0] 0%nat c false 0 0 [] [].

(** [basic_trie()]. *)
Definition new : t := new_with default_config.

Definition case_insensitive (tr : t) : t := with_config (set_case_insensitive true (d_config tr)) tr.
Definition remove_overlaps (tr : t) : t := with_config (set_allow_overlaps false (d_config tr)) tr.
Definition only_whole_words (tr : t) : t := with_config (set_only_whole_words true (d_config tr)) tr.
Definition remove_substrings (tr : t) : t := with_config (set_allow_substrings false (d_config tr)) tr.
Definition store_states_in_bfs_order (tr : t) : t :=
  with_config (set_store_states_in_bfs_order true (d_config tr)) tr.

(** The loop of [insert]: [cur_state = cur_state->add_state(ch)] for every
    character of the keyword. *)
Fixpoint add_states (h : heap) (cur_state : ptr) (keyword : string_type) : result (heap * ptr) :=
  match keyword with
  | [] => Ok (h, cur_state)
  | ch :: rest => '(h, cur_state) ← add_state h cur_state ch; add_states h cur_state rest
  end.

(** [insert(string_type keyword)]: the trie after the call and the returned
    pointer. *)
Definition insert (tr : t) (keyword : string_type) : result (t * option ptr) :=
  match keyword with
  | [] => Ok (tr, Some (d_root tr))
  | _ =>
      '(h, cur_state) ← add_states (states tr) (d_root tr) keyword;
      s ← deref h cur_state;
      if (0 =? vector_size (get_emits s)) || is_allow_substrings (d_config tr) then
        h ← update h cur_state (add_emit keyword (d_num_keywords tr));
        Ok (mk h (d_root tr) (d_config tr) (d_postprocessed tr) (wrap32 (d_num_keywords tr + 1))
               (d_state_count tr) (d_states_in_bfs_order tr) (d_final_states_in_bfs_order tr),
            Some cur_state)
      else Ok (with_states h tr, None)
  end.

(** [insert(InputIterator first, InputIterator last)] over a range of the
    sequence [range]: an iterator is a position in it, and reading at or
    beyond its end is undefined. The loop is
    [for (it = first; first != last; ++it) insert( *it )]. *)
Fixpoint insert_range_loop (fuel : nat) (range : list string_type) (first last it : nat) (tr : t)
  : result t :=
  if (first =? last)%nat then Ok tr
  else match fuel with
       | O => OutOfFuel
       | S fuel =>
           match range !! it with
           | None => Undefined
           | Some keyword =>
               '(tr, _) ← insert tr keyword;
               insert_range_loop fuel range first last (S it) tr
           end
       end.

Definition insert_range (fuel : nat) (range : list string_type) (first last : nat) (tr : t) : result t :=
  insert_range_loop fuel range first last first tr.

Definition num_keywords (tr : t) : Z := d_num_keywords tr.
Definition num_states (tr : t) : Z := d_state_count tr.
Definition get_root (tr : t) : ptr := d_root tr.

(** [reset_root()]: the old root and every state it owns are released. *)
Definition reset_root (tr : t) : t := with_states [state.new 0%nat 0] tr.

Definition get_states_in_bfs_order (tr : t) : list ptr := d_states_in_bfs_order tr.
Definition get_final_states_in_bfs_order (tr : t) : list ptr := d_final_states_in_bfs_order tr.

(** [while (!q.empty()) { auto cur_state = q.front(); body; q.pop(); }]
    where the body may push to [q]: [body st cur_state] gives the variables
    the body changes and the pointers it pushes, in order. *)
Fixpoint while_queue {St} (fuel : nat) (body : St -> ptr -> result (St * list ptr))
  (st : St) (q : list ptr) : result St :=
  match q with
  | [] => Ok st
  | cur_state :: rest =>
      match fuel with
      | O => OutOfFuel
      | S fuel => '(st, pushed) ← body st cur_state; while_queue fuel body st (rest ++ pushed)
      end
  end.

(** The body of the loop of [assign_indices] over [(states, i, d_states_in_bfs_order)]. *)
Definition assign_index (c : config) (st : heap * Z * list ptr) (cur_state : ptr)
  : result (heap * Z * list ptr * list ptr) :=
  let '(h, i, bfs) := st in
  h ← update h cur_state freeze;
  h ← update h cur_state (set_index i);
  let bfs := if is_store_states_in_bfs_order c then bfs ++ [cur_state] else bfs in
  s ← deref h cur_state;
  pushed ← get_states s;
  Ok (h, wrap64 (i + 1), bfs, pushed).

Definition assign_indices (tr : t) : result t :=
  '(h, i, bfs) ← while_queue (S (length (states tr))) (assign_index (d_config tr))
                    (states tr, 0, d_states_in_bfs_order tr) [d_root tr];
  Ok (mk h (d_root tr) (d_config tr) (d_postprocessed tr) (d_num_keywords tr) i bfs
         (d_final_states_in_bfs_order tr)).

(** [assert(emit_count < 2)] is compiled in. *)
Definition remove_prefixes_from_state (h : heap) (cur_state : ptr) : result heap :=
  s ← deref h cur_state;
  let emit_count := vector_size (get_emits s) in
  if negb (emit_count <? 2) then Undefined
  else if negb (goto_transition_count s =? 0) && negb (emit_count =? 0)
       then update h cur_state clear_emits
       else Ok h.

Definition remove_prefixes (tr : t) : result t :=
  if is_store_states_in_bfs_order (d_config tr) then
    if bool_decide (d_states_in_bfs_order tr = []) then Undefined
    else
      h ← fold_left (fun h cur_state => h ← h; remove_prefixes_from_state h cur_state)
            (d_states_in_bfs_order tr) (Ok (states tr));
      Ok (with_states h tr)
  else
    h ← while_queue (S (length (states tr)))
          (fun h cur_state =>
             h ← remove_prefixes_from_state h cur_state;
             s ← deref h cur_state;
             pushed ← get_states s;
             Ok (h, pushed))
          (states tr) [d_root tr];
    Ok (with_states h tr).

(** [while (trace_failure_state->next_state(transition) == nullptr)
      trace_failure_state = trace_failure_state->failure();]:
    the final [trace_failure_state]. *)
Fixpoint trace_failure (fuel : nat) (h : heap) (trace_failure_state : ptr) (transition : CharType)
  : result ptr :=
  s ← deref h trace_failure_state;
  match next_state s transition with
  | Some _ => Ok trace_failure_state
  | None =>
      match fuel with
      | O => OutOfFuel
      | S fuel => f ← nonnull (failure s); trace_failure fuel h f transition
      end
  end.

(** The [while (true)] loop of [construct_failure_states] up to its [break]:
    the states and [new_failure_state]. *)
Fixpoint find_failure_state (fuel : nat) (c : config) (h : heap) (trace_failure_state : ptr)
  (transition : CharType) : result (heap * ptr) :=
  match fuel with
  | O => OutOfFuel
  | S fuel =>
      trace_failure_state ← trace_failure (length h) h trace_failure_state transition;
      ts ← deref h trace_failure_state;
      new_failure_state ← nonnull (next_state ts transition);
      fs ← deref h new_failure_state;
      if negb (is_allow_substrings c) && negb (vector_size (get_emits fs) =? 0) then
        h ← update h new_failure_state clear_emits;
        trace_failure_state ← nonnull (failure ts);
        find_failure_state fuel c h trace_failure_state transition
      else Ok (h, new_failure_state)
  end.

(** One iteration of [for (const auto& transition : cur_state->get_transitions())]:
    the states and the pushed [target_state]. *)
Definition construct_failure_state (c : config) (h : heap) (cur_state : ptr) (transition : CharType)
  : result (heap * ptr) :=
  s ← deref h cur_state;
  target_state ← nonnull (next_state s transition);
  trace_failure_state ← nonnull (failure s);
  '(h, new_failure_state) ← find_failure_state (S (length h)) c h trace_failure_state transition;
  h ← update h target_state (set_failure (Some new_failure_state));
  fs ← deref h new_failure_state;
  h ← update h target_state (add_emits (get_emits fs));
  Ok (h, target_state).

(** The body of the [while] loop of [construct_failure_states]. *)
Definition construct_failure_states_of (c : config) (h : heap) (cur_state : ptr)
  : result (heap * list ptr) :=
  s ← deref h cur_state;
  transitions ← get_transitions s;
  fold_left (fun acc transition =>
               '(h, pushed) ← acc;
               '(h, target_state) ← construct_failure_state c h cur_state transition;
               Ok (h, pushed ++ [target_state]))
            transitions (Ok (h, [])).

Definition construct_failure_states (tr : t) : result t :=
  root ← deref (states tr) (d_root tr);
  depth_one ← get_states root;
  h ← fold_left (fun h depth_one_state =>
                   h ← h; update h depth_one_state (set_failure (Some (d_root tr))))
        depth_one (Ok (states tr));
  h ← while_queue (length h) (construct_failure_states_of (d_config tr)) h depth_one;
  Ok (with_states h tr).

Definition check_postprocess (tr : t) : result t :=
  if negb (d_postprocessed tr) then
    tr ← assign_indices tr;
    tr ← (if negb (is_allow_substrings (d_config tr)) then remove_prefixes tr else Ok tr);
    tr ← construct_failure_states tr;
    final ← (if is_store_states_in_bfs_order (d_config tr) then
               fold_left (fun final cur_state =>
                            final ← final;
                            s ← deref (states tr) cur_state;
                            Ok (if negb (vector_size (get_emits s) =? 0)
                                then final ++ [cur_state] else final))
                 (d_states_in_bfs_order tr) (Ok (d_final_states_in_bfs_order tr))
             else Ok (d_final_states_in_bfs_order tr));
    Ok (mk (states tr) (d_root tr) (d_config tr) true (d_num_keywords tr) (d_state_count tr)
           (d_states_in_bfs_order tr) final)
  else Ok tr.

(** [get_state(cur_state, c)]. *)
Fixpoint get_state_from (fuel : nat) (h : heap) (cur_state : ptr) (c : CharType) : result ptr :=
  s ← deref h cur_state;
  match next_state s c with
  | Some result => Ok result
  | None =>
      match fuel with
      | O => OutOfFuel
      | S fuel => f ← nonnull (failure s); get_state_from fuel h f c
      end
  end.

Definition get_state (h : heap) (cur_state : ptr) (c : CharType) : result ptr :=
  get_state_from (length h) h cur_state c.

Definition store_emits (pos : Z) (s : state.t) (collected_emits : emit_collection) : emit_collection :=
  fold_left (fun collected_emits str =>
               let emit_str := fst str in
               collected_emits ++
                 [emit.new (wrap64 (pos - string_size emit_str + 1)) pos emit_str (snd str)])
            (get_emits s) collected_emits.

(** [std::tolower] and [std::isalpha] in the "C" locale. Their domain is
    that of [unsigned char]: the properties below are stated for characters
    below 128, which are in it whether [char] is signed or not. *)
Definition tolower (c : CharType) : CharType :=
  if (65 <=? char_code c) && (char_code c <=? 90)
  then ascii_of_N (Z.to_N (char_code c + 32)) else c.

Definition isalpha (c : CharType) : bool :=
  ((65 <=? char_code c) && (char_code c <=? 90)) || ((97 <=? char_code c) && (char_code c <=? 122)).

(** [search_text.at(pos)]. *)
Definition at_ (search_text : string_type) (pos : Z) : result CharType :=
  if (0 <=? pos) && (pos <? string_size search_text) then
    match search_text !! Z.to_nat pos with
    | Some c => Ok c
    | None => Undefined
    end
  else Undefined.

(** The condition under which [remove_partial_matches] keeps an emit. *)
Definition is_whole_word (search_text : string_type) (e : emit.t) : result bool :=
  let size := string_size search_text in
  before_ok ← (if emit.get_start e =? 0 then Ok true
               else c ← at_ search_text (wrap64 (emit.get_start e - 1)); Ok (negb (isalpha c)));
  match before_ok with
  | false => Ok false
  | true =>
      if wrap64 (emit.get_end e + 1) =? size then Ok true
      else c ← at_ search_text (wrap64 (emit.get_end e + 1)); Ok (negb (isalpha c))
  end.

Definition remove_partial_matches (search_text : string_type) (collected_emits : emit_collection)
  : result emit_collection :=
  remove_emits ← fold_left (fun remove_emits e =>
                              remove_emits ← remove_emits;
                              whole ← is_whole_word search_text e;
                              Ok (match whole with
                                  | true => remove_emits
                                  | false => remove_emits ++ [e]
                                  end))
                   collected_emits (Ok []);
  fold_left (fun collected_emits e =>
               collected_emits ← collected_emits;
               erase_find (@interval_tree.eq emit.t _) e collected_emits)
            remove_emits (Ok collected_emits).

(** The [for (auto c : text)] loop of [parse_text]. *)
Fixpoint parse_loop (c : config) (h : heap) (text : string_type) (pos : Z) (cur_state : ptr)
  (collected_emits : emit_collection) : result emit_collection :=
  match text with
  | [] => Ok collected_emits
  | ch :: text =>
      let ch := if is_case_insensitive c then tolower ch else ch in
      cur_state ← get_state h cur_state ch;
      s ← deref h cur_state;
      parse_loop c h text (wrap64 (pos + 1)) cur_state (store_emits pos s collected_emits)
  end.

(** [parse_text(text)]: the trie after the call and the returned emits. *)
Definition parse_text (tr : t) (text : string_type) : result (t * emit_collection) :=
  tr ← check_postprocess tr;
  collected_emits ← parse_loop (d_config tr) (states tr) text 0 (d_root tr) [];
  collected_emits ← (if is_only_whole_words (d_config tr)
                     then remove_partial_matches text collected_emits
                     else Ok collected_emits);
  collected_emits ← (if negb (is_allow_overlaps (d_config tr)) then
                       tree ← interval_tree.new collected_emits;
                       interval_tree.remove_overlaps tree collected_emits
                     else Ok collected_emits);
  Ok (tr, collected_emits).

(** [text.substr(pos, len)]: throws when [pos] is beyond the end of the
    text; [len] is cut to what the text holds. *)
Definition substr (text : string_type) (pos len : Z) : result string_type :=
  if pos >? string_size text then Undefined
  else Ok (take (Z.to_nat len) (drop (Z.to_nat pos) text)).

Definition create_fragment (e : emit.t) (text : string_type) (last_pos : Z) : result token.t :=
  let start := wrap64 (last_pos + 1) in
  let end_ := if emit.is_empty e then string_size text else emit.get_start e in
  let len := wrap64 (end_ - start) in
  str ← substr text start len;
  Ok (token.new_fragment str).

Definition create_match (e : emit.t) (text : string_type) : result token.t :=
  let start := emit.get_start e in
  let end_ := wrap64 (emit.get_end e + 1) in
  let len := wrap64 (end_ - start) in
  str ← substr text start len;
  Ok (token.new_match str e).

(** One iteration of the loop of [tokenise] over [(tokens, last_pos)]. *)
Definition tokenise_step (text : string_type) (acc : result (list token.t * Z)) (e : emit.t)
  : result (list token.t * Z) :=
  '(tokens, last_pos) ← acc;
  tokens ← (if wrap64 (emit.get_start e - last_pos) >? 1
            then fragment ← create_fragment e text last_pos; Ok (tokens ++ [fragment])
            else Ok tokens);
  match_ ← create_match e text;
  Ok (tokens ++ [match_], emit.get_end e).

(** The part of [tokenise] that follows the call of [parse_text]: the loop
    over the emits, from [last_pos = max_pos], and the trailing fragment. *)
Definition tokenise_emits (text : string_type) (collected_emits : emit_collection)
  : result (list token.t) :=
  '(tokens, last_pos) ← fold_left (tokenise_step text) collected_emits (Ok ([], interval.max_pos));
  if wrap64 (string_size text - last_pos) >? 1
  then fragment ← create_fragment emit.empty text last_pos; Ok (tokens ++ [fragment])
  else Ok tokens.

(** [tokenise(text)]: the trie after the call and the returned tokens. *)
Definition tokenise (tr : t) (text : string_type) : result (t * list token.t) :=
  '(tr, collected_emits) ← parse_text tr text;
  tokens ← tokenise_emits text collected_emits;
  Ok (tr, tokens).

End basic_trie.

(** ** Notions used to state the properties *)

Import state.

(** A string literal as a [std::string]. *)
Definition str (s : string) : string_type := list_ascii_of_string s.

(** The goto function of the trie: the child of [p] on [c], without the
    root's fallback. *)
Definition goto (h : heap) (p : ptr) (c : CharType) : option ptr :=
  s ← h !! p; transition_map.find c (d_success s).

(** The state reached from [p] by following goto edges along [w]. *)
Fixpoint walk (h : heap) (p : ptr) (w : string_type) : option ptr :=
  match w with
  | [] => Some p
  | c :: w => q ← goto h p c; walk h q w
  end.

(** Calling [insert] on each keyword in turn: the final trie and the
    returned handles. *)
Fixpoint insert_all (tr : basic_trie.t) (keywords : list string_type)
  : result (basic_trie.t * list (option ptr)) :=
  match keywords with
  | [] => Ok (tr, [])
  | keyword :: rest =>
      '(tr, handle) ← basic_trie.insert tr keyword;
      '(tr, handles) ← insert_all tr rest;
      Ok (tr, handle :: handles)
  end.


(** Every (keyword, index) pair stored in some state. *)
Definition all_emits (h : heap) : list key_index := concat (map d_emits h).

(** Keywords and texts are [std::string]s: shorter than [2^64]. *)
Definition fits (s : string_type) : Prop := Z.of_nat (length s) < 2 ^ 64.

(** The characters of [text] that an emit delimits. *)
Definition slice (text : string_type) (e : emit.t) : string_type :=
  take (Z.to_nat (emit.get_end e - emit.get_start e + 1)) (drop (Z.to_nat (emit.get_start e)) text).

(** An emit lies inside a text of [size] characters. *)
Definition within (size : Z) (e : emit.t) : Prop :=
  0 <= emit.get_start e /\ emit.get_start e <= emit.get_end e /\ emit.get_end e < size.

(** The emits lie inside the text from position [lo] on, in order and
    without overlapping. *)
Fixpoint separated_from (lo size : Z) (emits : list emit.t) : Prop :=
  match emits with
  | [] => True
  | e :: rest =>
      lo <= emit.get_start e /\ emit.get_start e <= emit.get_end e /\ emit.get_end e < size /\
      separated_from (emit.get_end e + 1) size rest
  end.

(** Intervals as the scan produces them: [start <= end], and positions small
    enough for [start + end] not to wrap around. *)
Definition well_formed {T} `{IsInterval T} (i : T) : Prop :=
  0 <= interval_tree.get_start i /\ interval_tree.get_start i <= interval_tree.get_end i /\
  interval_tree.get_end i < 2 ^ 63.

(** [x] overlaps [i] and is not equal to it ([operator!=]: other bounds). *)
Definition overlaps_other {T} `{IsInterval T} (i x : T) : bool :=
  interval.overlaps_with (base_interval x) (base_interval i) && interval_tree.neq x i.

(** A [std::set<T>] holds one interval per start position, in ascending
    order. *)
Definition starts_apart {T} `{IsInterval T} (s : list T) : Prop :=
  StronglySorted (fun a b => interval_tree.get_start a < interval_tree.get_start b) s.

(** The character of [text] at [pos] is a letter ([false] outside the text). *)
Definition alpha_at (text : string_type) (pos : Z) : bool :=
  match text !! Z.to_nat pos with
  | Some c => basic_trie.isalpha c
  | None => false
  end.

(** An emit stands as a whole word: no letter just before it and none just
    after it. *)
Definition delimited (text : string_type) (e : emit.t) : bool :=
  ((emit.get_start e =? 0) || negb (alpha_at text (emit.get_start e - 1))) &&
  ((emit.get_end e + 1 =? string_size text) || negb (alpha_at text (emit.get_end e + 1))).

(** Overlap removal as section 4.4 of the specification describes it: walk
    the intervals by descending size (ties: descending start), let every
    interval that is not marked mark all the other intervals that overlap it,
    drop the marked ones and order the rest by start. *)
Definition described_overlaps (intervals : list interval.t) (i : interval.t) : list interval.t :=
  filter (fun j => interval.overlaps_with i j && interval.neq j i) intervals.

Definition described_remove_overlaps (intervals : list interval.t) : list interval.t :=
  let sorted := std_sort interval_tree.by_size_then_start intervals in
  let marked :=
    fold_left (fun marked i =>
                 if existsb (interval.eq i) marked then marked
                 else marked ++ described_overlaps intervals i) sorted [] in
  std_sort interval_tree.by_start
    (filter (fun i => negb (existsb (interval.eq i) marked)) sorted).

(** The automaton of the specification's examples. *)
Definition ushers_keywords : list string_type := [str "he"; str "she"; str "hers"; str "his"].

(** [scan] on a fresh automaton: configure, insert the keywords, parse. *)
Definition scan_with (configure : basic_trie.t -> basic_trie.t) (keywords : list string_type)
  (text : string_type) : result basic_trie.emit_collection :=
  '(tr, _) ← insert_all (configure basic_trie.new) keywords;
  '(_, emits) ← basic_trie.parse_text tr text;
  Ok emits.

(** Two scans of the same text, one after the other: the emits of the first
    and of the second. *)
Definition scan_twice (tr : basic_trie.t) (text : string_type)
  : result (basic_trie.emit_collection * basic_trie.emit_collection) :=
  '(tr, first_emits) ← basic_trie.parse_text tr text;
  '(_, second_emits) ← basic_trie.parse_text tr text;
  Ok (first_emits, second_emits).

(** Two compilations, one after the other. *)
Definition compile_twice (tr : basic_trie.t) : result basic_trie.t :=
  tr ← basic_trie.check_postprocess tr; basic_trie.check_postprocess tr.

(** ** Invariants *)

(** The shape of a trie built by insertions: [paths] lists, for every state
    of the arena, the word that leads to it from the root. *)
Record trie_inv (h : heap) (paths : list string_type) : Prop := {
  inv_length : length paths = length h;
  inv_root : paths !! 0%nat = Some [];
  inv_nodup : NoDup paths;
  inv_prefix : forall w c, w ++ [c] ∈ paths -> w ∈ paths;
  inv_goto : forall p c q,
    goto h p c = Some q <-> exists w, paths !! p = Some w /\ paths !! q = Some (w ++ [c]);
  inv_depth : forall p s w, h !! p = Some s -> paths !! p = Some w -> d_depth s = Z.of_nat (length w);
  inv_fits : forall w, w ∈ paths -> fits w;
  inv_droot : forall p s, h !! p = Some s -> d_root s = if decide (p = 0%nat) then Some 0%nat else None;
  inv_keys : forall p s, h !! p = Some s -> NoDup (map fst (d_success s))
}.

(** Before compilation every emit sits at the state its keyword leads to. *)
Definition emits_exact (h : heap) (paths : list (list CharType)) : Prop :=
  forall p s kw i, h !! p = Some s -> (kw, i) ∈ d_emits s -> paths !! p = Some kw /\ kw <> [].

Record wf_trie (tr : basic_trie.t) (paths : list (list CharType)) : Prop := {
  wf_inv : trie_inv (basic_trie.states tr) paths;
  wf_root : basic_trie.d_root tr = 0%nat;
  wf_emits : emits_exact (basic_trie.states tr) paths
}.

(** The tries a caller can hold before compilation: a fresh one, then
    configuration calls and insertions. *)
Inductive pre_compilation : basic_trie.t -> Prop :=
| pre_new (c : basic_trie.config) : pre_compilation (basic_trie.new_with c)
| pre_config (tr : basic_trie.t) (c : basic_trie.config) :
    pre_compilation tr -> pre_compilation (basic_trie.with_config c tr)
| pre_insert (tr tr' : basic_trie.t) (keyword : list CharType) (handle : option ptr) :
    pre_compilation tr -> fits keyword -> basic_trie.insert tr keyword = Ok (tr', handle) ->
    pre_compilation tr'.

(** A state that compilation has not reached: no failure link and no
    index. *)
Definition untouched (s : state.t) : Prop := d_failure s = None /\ d_idx s = 0.

(** A trie that compilation has not changed: the members that only
    [check_postprocess] writes have the values the constructors gave them. *)
Record uncompiled (tr : basic_trie.t) : Prop := {
  un_flag : basic_trie.d_postprocessed tr = false;
  un_count : basic_trie.d_state_count tr = 0;
  un_order : basic_trie.d_states_in_bfs_order tr = [];
  un_final : basic_trie.d_final_states_in_bfs_order tr = [];
  un_states : Forall untouched (basic_trie.states tr)
}.

(** The emit set of the state that [keyword] leads to, empty when the trie
    has no such state yet. *)
Definition terminal_emits (tr : basic_trie.t) (keyword : list CharType) : list (list CharType * Z) :=
  match walk (basic_trie.states tr) (basic_trie.d_root tr) keyword with
  | Some p =>
      match basic_trie.states tr !! p with
      | Some s => d_emits s
      | None => []
      end
  | None => []
  end.

(** The insertions that [insert] turns down: the terminal state already has
    an emit and substrings are disallowed. *)
Definition rejects (tr : basic_trie.t) (keyword : list CharType) : bool :=
  negb (basic_trie.is_allow_substrings (basic_trie.d_config tr)) &&
  negb (0 =? vector_size (terminal_emits tr keyword)).

(** The [parent] pointers: the root has none, and the parent of the state
    of a word is the state of the word without its last character. *)
Definition parents_ok (h : heap) (paths : list string_type) : Prop :=
  forall p s w, h !! p = Some s -> paths !! p = Some w ->
    match d_parent s with
    | None => w = []
    | Some q => exists w0 c, w = w0 ++ [c] /\ paths !! q = Some w0
    end.

(** The trie after the insertion of [keywords]: its words are the prefixes
    of the keywords. *)
Record shape_inv (tr : basic_trie.t) (paths keywords : list string_type) : Prop := {
  sh_wf : wf_trie tr paths;
  sh_parents : parents_ok (basic_trie.states tr) paths;
  sh_prefixes : forall w, w ∈ paths -> w = [] \/ exists kw, kw ∈ keywords /\ w `prefix_of` kw;
  sh_present : forall kw, kw ∈ keywords -> kw ∈ paths
}.



(** The example automaton, after the insertion of its keywords. *)
Definition ushers_trie : basic_trie.t :=
  match insert_all basic_trie.new ushers_keywords with
  | Ok (tr, _) => tr
  | _ => basic_trie.new
  end.

(** Three intervals, two of which start at the same position. *)
Definition nested_intervals : list interval.t :=
  [interval.mk 0 10; interval.mk 2 3; interval.mk 2 4].

(** The intervals of bc, bcd and abcde in the text abcde, in the order of
    their ends, and the emits that carry them. *)
Definition stacked_intervals : list interval.t :=
  [interval.mk 1 2; interval.mk 1 3; interval.mk 0 4].

Definition stacked_emits : list emit.t :=
  [emit.new 1 2 (str "bc") 1; emit.new 1 3 (str "bcd") 2; emit.new 0 4 (str "abcde") 0].

(** [interval_tree<T>(intervals).remove_overlaps(intervals)], as [parse_text]
    uses the tree. *)
Definition remove_overlaps_of {T} `{IsInterval T} (intervals : list T) : result (list T) :=
  tree ← interval_tree.new intervals; interval_tree.remove_overlaps tree intervals.

(** * Proofs *)

(** ** The result monad *)

Lemma bind_Ok {A B} (m : result A) (f : A -> result B) (b : B) :
  (m ≫= f) = Ok b <-> exists a, m = Ok a /\ f a = Ok b.
Proof.
  destruct m as [a| |]; simpl; split.
  - intros Hf. exists a. auto.
  - intros (a' & Ha & Hf). congruence.
  - discriminate.
  - intros (a' & Ha & _). discriminate.
  - discriminate.
  - intros (a' & Ha & _). discriminate.
Qed.

Tactic Notation "bind_inv" hyp(H) "as" simple_intropattern(x) ident(Hx) :=
  apply bind_Ok in H; destruct H as (x & Hx & H).

Lemma deref_Ok (h : heap) (p : ptr) (s : state.t) : deref h p = Ok s <-> h !! p = Some s.
Proof. unfold deref. destruct (h !! p); split; congruence. Qed.

Lemma deref_lookup (h : heap) (p : ptr) (s : state.t) : h !! p = Some s -> deref h p = Ok s.
Proof. apply deref_Ok. Qed.

Lemma update_Ok (h h' : heap) (p : ptr) (f : state.t -> state.t) :
  update h p f = Ok h' <-> exists s, h !! p = Some s /\ h' = <[p := f s]> h.
Proof.
  unfold update. rewrite bind_Ok. split.
  - intros (s & Hs & Heq). apply deref_Ok in Hs. exists s. split; congruence.
  - intros (s & Hs & ->). exists s. split; [by apply deref_Ok | done].
Qed.

Lemma update_lookup (h : heap) (p : ptr) (f : state.t -> state.t) (s : state.t) :
  h !! p = Some s -> update h p f = Ok (<[p := f s]> h).
Proof. intros Hs. unfold update. by rewrite (deref_lookup _ _ _ Hs). Qed.

(** ** The transition map *)

Lemma char_code_inj (a b : CharType) : char_code a = char_code b -> a = b.
Proof.
  unfold char_code. intros Hab. apply N2Z.inj in Hab.
  rewrite <- (ascii_N_embedding a), <- (ascii_N_embedding b). by rewrite Hab.
Qed.

Lemma find_map_assign {P} (c c' : CharType) (v : P) (m : transition_map.map_type P) :
  transition_map.find c' (transition_map.map_assign c v m)
  = if decide (c = c') then Some v else transition_map.find c' m.
Proof.
  induction m as [|[k v0] m IH]; simpl.
  - destruct (Ascii.eqb_spec c c'); case_decide; congruence.
  - destruct (char_code c <? char_code k) eqn:Hlt; simpl.
    + destruct (Ascii.eqb_spec c c'); case_decide; congruence.
    + destruct (char_code k <? char_code c) eqn:Hgt; simpl.
      * rewrite IH. destruct (Ascii.eqb_spec k c'); [|done].
        subst k. case_decide; [|done]. subst c'. lia.
      * assert (c = k) as -> by (apply char_code_inj; lia).
        destruct (Ascii.eqb_spec k c'); case_decide; congruence.
Qed.

Lemma keys_map_assign {P} (c : CharType) (v : P) (m : transition_map.map_type P) (k : CharType) :
  k ∈ map fst (transition_map.map_assign c v m) -> k = c \/ k ∈ map fst m.
Proof.
  induction m as [|[k0 v0] m IH]; simpl.
  - rewrite list_elem_of_singleton. auto.
  - destruct (char_code c <? char_code k0); simpl.
    + rewrite !elem_of_cons. tauto.
    + destruct (char_code k0 <? char_code c); simpl; rewrite !elem_of_cons.
      * intros [->|Hin]; [tauto | apply IH in Hin; tauto].
      * tauto.
Qed.

Lemma find_None_keys {P} (c : CharType) (m : transition_map.map_type P) :
  transition_map.find c m = None <-> c ∉ map fst m.
Proof.
  induction m as [|[k v] m IH]; simpl.
  - split; [intros _; apply not_elem_of_nil | done].
  - rewrite not_elem_of_cons. destruct (Ascii.eqb_spec k c).
    + split; [done | intros [? _]; congruence].
    + rewrite IH. split; [intros ?; split; congruence | tauto].
Qed.

Lemma nodup_map_assign {P} (c : CharType) (v : P) (m : transition_map.map_type P) :
  transition_map.find c m = None -> NoDup (map fst m) ->
  NoDup (map fst (transition_map.map_assign c v m)).
Proof.
  induction m as [|[k v0] m IH]; simpl; intros Hfind Hnd.
  - apply NoDup_singleton.
  - destruct (Ascii.eqb_spec k c) as [->|Hne]; [done|].
    apply NoDup_cons in Hnd as [Hk Hnd].
    destruct (char_code c <? char_code k) eqn:Hlt; simpl.
    + apply NoDup_cons. split.
      * rewrite not_elem_of_cons. split; [congruence|]. by apply find_None_keys.
      * by apply NoDup_cons.
    + destruct (char_code k <? char_code c) eqn:Hgt; simpl.
      * apply NoDup_cons. split; [|by apply IH].
        intros Hin. apply keys_map_assign in Hin as [->|Hin]; [lia | done].
      * exfalso. apply Hne. apply char_code_inj. lia.
Qed.

Lemma fold_push_back {A B} (f : A -> B) (l : list A) (acc : list B) :
  fold_left (fun result it => result ++ [f it]) l acc = acc ++ map f l.
Proof.
  revert acc. induction l as [|x l IH]; intros acc; simpl.
  - by rewrite app_nil_r.
  - rewrite IH. by rewrite <- app_assoc.
Qed.

(** ** The goto function *)

Lemma goto_Some (h : heap) (p : ptr) (c : CharType) (q : ptr) :
  goto h p c = Some q <-> exists s, h !! p = Some s /\ transition_map.find c (d_success s) = Some q.
Proof.
  unfold goto. destruct (h !! p) as [s|]; simpl; split.
  - intros Hf. by exists s.
  - intros (s' & [= <-] & Hf). done.
  - done.
  - intros (s' & ? & _). done.
Qed.

Lemma goto_lookup (h : heap) (p : ptr) (s : state.t) (c : CharType) :
  h !! p = Some s -> goto h p c = transition_map.find c (d_success s).
Proof. intros Hs. unfold goto. by rewrite Hs. Qed.

Lemma walk_app (h : heap) (p : ptr) (w1 w2 : string_type) :
  walk h p (w1 ++ w2) = walk h p w1 ≫= fun q => walk h q w2.
Proof.
  revert p. induction w1 as [|c w1 IH]; intros p; simpl; [done|].
  destruct (goto h p c) as [q|]; simpl; [apply IH | done].
Qed.

Lemma walk_single (h : heap) (p : ptr) (c : CharType) : walk h p [c] = goto h p c.
Proof. simpl. by destruct (goto h p c). Qed.

Lemma walk_snoc (h : heap) (p : ptr) (w : string_type) (c : CharType) (q : ptr) :
  walk h p (w ++ [c]) = Some q <-> exists r, walk h p w = Some r /\ goto h r c = Some q.
Proof.
  rewrite walk_app. destruct (walk h p w) as [r|]; cbn -[walk].
  - rewrite walk_single. split.
    + intros Hg. by exists r.
    + intros (r' & [= <-] & Hg). done.
  - split; [done | intros (r & ? & _); done].
Qed.

Section trie_inv_facts.
Context (h : heap) (paths : list string_type) (Hinv : trie_inv h paths).

Lemma inv_lookup_state (p : ptr) (w : string_type) :
  paths !! p = Some w -> exists s, h !! p = Some s.
Proof.
  intros Hw. apply lookup_lt_Some in Hw. rewrite (inv_length _ _ Hinv) in Hw.
  apply lookup_lt_is_Some_2 in Hw as [s Hs]. by exists s.
Qed.

Lemma inv_lookup_path (p : ptr) (s : state.t) :
  h !! p = Some s -> exists w, paths !! p = Some w.
Proof.
  intros Hs. apply lookup_lt_Some in Hs. rewrite <- (inv_length _ _ Hinv) in Hs.
  apply lookup_lt_is_Some_2 in Hs as [w Hw]. by exists w.
Qed.

Lemma inv_path_inj (p q : ptr) (w : string_type) :
  paths !! p = Some w -> paths !! q = Some w -> p = q.
Proof. intros Hp Hq. eapply NoDup_lookup; eauto using inv_nodup. Qed.

Lemma inv_root_path (p : ptr) : paths !! p = Some [] <-> p = 0%nat.
Proof.
  split.
  - intros Hp. eapply inv_path_inj; eauto using inv_root.
  - intros ->. eauto using inv_root.
Qed.

(** Walking from the root follows [paths]. *)
Lemma walk_paths (w : string_type) (p : ptr) :
  walk h 0%nat w = Some p <-> paths !! p = Some w.
Proof.
  revert p. induction w as [|c w IH] using rev_ind; intros p.
  - simpl. rewrite inv_root_path. split; [by intros [= <-] | by intros ->].
  - rewrite walk_snoc. split.
    + intros (r & Hr & Hg). apply IH in Hr.
      apply (inv_goto _ _ Hinv) in Hg as (w' & Hr' & Hp).
      rewrite Hr in Hr'. by injection Hr' as <-.
    + intros Hp. assert (w ∈ paths) as Hw.
      { apply (inv_prefix _ _ Hinv w c). by eapply list_elem_of_lookup_2. }
      apply list_elem_of_lookup_1 in Hw as [r Hr]. exists r. split; [by apply IH|].
      apply (inv_goto _ _ Hinv). eauto.
Qed.

Lemma inv_goto_path (p q : ptr) (c : CharType) (w : string_type) :
  paths !! p = Some w -> goto h p c = Some q -> paths !! q = Some (w ++ [c]).
Proof.
  intros Hp Hg. apply (inv_goto _ _ Hinv) in Hg as (w' & Hp' & Hq). congruence.
Qed.

End trie_inv_facts.

(** ** Insertion *)

Lemma lookup_insert_snoc {A} (l : list A) (i : nat) (x y : A) (p : nat) :
  (i < length l)%nat ->
  <[i := x]> (l ++ [y]) !! p
  = if decide (p = i) then Some x else if decide (p = length l) then Some y else l !! p.
Proof.
  intros Hi. case_decide as Hp.
  - subst p. apply list_lookup_insert_eq. rewrite length_app. simpl. lia.
  - rewrite list_lookup_insert_ne by done. case_decide as Hn.
    + subst p. by rewrite list_lookup_middle.
    + destruct (decide (p < length l)%nat).
      * by rewrite lookup_app_l.
      * rewrite !lookup_ge_None_2; [done | lia | rewrite length_app; simpl; lia].
Qed.

Lemma lookup_snoc_path {A} (l : list A) (y : A) (p : nat) (x : A) :
  (l ++ [y]) !! p = Some x <-> l !! p = Some x \/ (p = length l /\ x = y).
Proof.
  destruct (decide (p < length l)%nat).
  - rewrite lookup_app_l by done. split; [auto | intros [?|[? _]]; [done | lia]].
  - destruct (decide (p = length l)) as [->|].
    + rewrite list_lookup_middle by done. rewrite lookup_ge_None_2 by lia.
      split; [intros [= ->]; auto | intros [?|[_ ->]]; done].
    + rewrite !lookup_ge_None_2; [|lia|rewrite length_app; simpl; lia].
      split; [done | intros [?|[? _]]; done].
Qed.

(** [add_state] on a missing transition extends the trie by one state. *)
Lemma add_state_new (h : heap) (paths : list string_type) (cur : ptr) (pre : string_type)
  (ch : CharType) (s : state.t) :
  trie_inv h paths -> paths !! cur = Some pre -> h !! cur = Some s -> fits (pre ++ [ch]) ->
  goto h cur ch = None ->
  let h' := <[cur := set_success (transition_map.set_transition ch (length h) (d_success s)) s]>
              (h ++ [set_parent (Some cur) (state.new (length h) (wrap64 (d_depth s + 1)))]) in
  add_state h cur ch = Ok (h', length h) /\ trie_inv h' (paths ++ [pre ++ [ch]]).
Proof.
  intros Hinv Hpre Hs Hfit Hgoto h'.
  assert (cur < length h)%nat as Hcur by (by eapply lookup_lt_Some).
  assert (Hfind : transition_map.find ch (d_success s) = None).
  { by rewrite <- (goto_lookup h cur s ch). }
  assert (Hlook : forall p, h' !! p =
            if decide (p = cur) then
              Some (set_success (transition_map.set_transition ch (length h) (d_success s)) s)
            else if decide (p = length h) then
              Some (set_parent (Some cur) (state.new (length h) (wrap64 (d_depth s + 1))))
            else h !! p).
  { intros p. unfold h'. by apply lookup_insert_snoc. }
  assert (Hfresh : pre ++ [ch] ∉ paths).
  { intros Hin. apply list_elem_of_lookup_1 in Hin as [q Hq].
    assert (goto h cur ch = Some q) by (apply (inv_goto _ _ Hinv); eauto). congruence. }
  assert (Hdepth : d_depth s = Z.of_nat (length pre)) by (eapply inv_depth; eauto).
  assert (Hplen : length paths = length h) by (eapply inv_length; eauto).
  split.
  { unfold add_state. rewrite (deref_lookup _ _ _ Hs). simpl.
    unfold next_state_ignore_root_state, next_state_from. rewrite Hfind. simpl.
    rewrite (update_lookup _ cur _ s); [done|]. by apply lookup_app_l_Some. }
  constructor.
  - unfold h'. rewrite length_insert, !length_app. simpl. lia.
  - apply lookup_app_l_Some. eauto using inv_root.
  - apply NoDup_app. split; [eauto using inv_nodup|]. split; [|apply NoDup_singleton].
    intros w Hw Hw'. apply list_elem_of_singleton in Hw'. by subst w.
  - intros w c Hin. apply elem_of_app in Hin as [Hin|Hin].
    + apply elem_of_app. left. eauto using inv_prefix.
    + apply list_elem_of_singleton in Hin. apply app_inj_tail in Hin as [-> ->].
      apply elem_of_app. left. by eapply list_elem_of_lookup_2.
  - intros p c q. rewrite goto_Some. setoid_rewrite Hlook. split.
    + intros (s' & Hs' & Hf). case_decide as Hp.
      * subst p. injection Hs' as <-. simpl in Hf.
        unfold transition_map.set_transition in Hf. rewrite find_map_assign in Hf.
        case_decide as Hc.
        -- subst c. injection Hf as <-. exists pre. split.
           ++ by apply lookup_app_l_Some.
           ++ rewrite <- Hplen. by apply list_lookup_middle.
        -- assert (goto h cur c = Some q) as Hg by (by rewrite (goto_lookup h cur s c)).
           apply (inv_goto _ _ Hinv) in Hg as (w & Hw & Hq).
           exists w. split; by apply lookup_app_l_Some.
      * case_decide as Hn.
        -- subst p. injection Hs' as <-. simpl in Hf. done.
        -- assert (goto h p c = Some q) as Hg by (apply goto_Some; eauto).
           apply (inv_goto _ _ Hinv) in Hg as (w & Hw & Hq).
           exists w. split; by apply lookup_app_l_Some.
    + intros (w & Hp & Hq).
      apply lookup_snoc_path in Hp. apply lookup_snoc_path in Hq.
      destruct Hq as [Hq|[-> Hq]].
      * destruct Hp as [Hp|[-> ->]].
        -- assert (goto h p c = Some q) as Hg by (apply (inv_goto _ _ Hinv); eauto).
           apply goto_Some in Hg as (s' & Hs' & Hf).
           case_decide as Hpc.
           ++ subst p. assert (s' = s) as -> by congruence.
              eexists. split; [done|]. simpl.
              unfold transition_map.set_transition. rewrite find_map_assign.
              case_decide; [|done]. subst c. congruence.
           ++ case_decide as Hn; [subst p; apply lookup_lt_Some in Hs'; lia|].
              eauto.
        -- exfalso. apply Hfresh. apply (inv_prefix _ _ Hinv _ c).
           by eapply list_elem_of_lookup_2.
      * apply app_inj_tail in Hq as [-> ->].
        destruct Hp as [Hp|[-> Hp]].
        -- assert (p = cur) as -> by (eapply inv_path_inj; eauto).
           rewrite decide_True by done. eexists. split; [done|]. simpl.
           unfold transition_map.set_transition. rewrite find_map_assign.
           rewrite decide_True by done. by rewrite Hplen.
        -- exfalso. apply (f_equal length) in Hp. rewrite length_app in Hp. simpl in Hp. lia.
  - intros p s' w. rewrite Hlook. intros Hs' Hw. apply lookup_snoc_path in Hw.
    case_decide as Hp.
    + subst p. injection Hs' as <-. simpl. destruct Hw as [Hw|[-> _]]; [|lia].
      assert (w = pre) as -> by congruence. done.
    + case_decide as Hn.
      * subst p. injection Hs' as <-. simpl. destruct Hw as [Hw|[_ ->]].
        -- apply lookup_lt_Some in Hw. lia.
        -- rewrite Hdepth. unfold fits in Hfit. rewrite length_app in *. simpl in *.
           unfold wrap64. rewrite Z.mod_small; lia.
      * destruct Hw as [Hw|[-> _]]; [|rewrite Hplen in Hn; done].
        eapply inv_depth; eauto.
  - intros w Hin. apply elem_of_app in Hin as [Hin|Hin]; [eauto using inv_fits|].
    apply list_elem_of_singleton in Hin. by subst w.
  - intros p s'. rewrite Hlook. intros Hs'. case_decide as Hp.
    + subst p. injection Hs' as <-. simpl. eapply inv_droot; eauto.
    + case_decide as Hn.
      * subst p. injection Hs' as <-. simpl.
        rewrite Hdepth. unfold fits in Hfit. rewrite length_app in Hfit. simpl in Hfit.
        unfold wrap64. rewrite Z.mod_small by lia.
        destruct (Z.eqb_spec (Z.of_nat (length pre) + 1) 0) as [|_]; [lia|].
        case_decide; [lia | done].
      * eapply inv_droot; eauto.
  - intros p s'. rewrite Hlook. intros Hs'. case_decide as Hp.
    + subst p. injection Hs' as <-. simpl. apply nodup_map_assign; [done|].
      eapply inv_keys; eauto.
    + case_decide as Hn.
      * subst p. injection Hs' as <-. simpl. apply NoDup_nil_2.
      * eapply inv_keys; eauto.
Qed.

Lemma inv_prefix_closed (h : heap) (paths : list (list CharType)) (w1 w2 : list CharType) :
  trie_inv h paths -> w1 ++ w2 ∈ paths -> w1 ∈ paths.
Proof.
  intros Hinv. induction w2 as [|c w2 IH] using rev_ind.
  - by rewrite app_nil_r.
  - rewrite app_assoc. intros Hin. apply IH. eapply inv_prefix; eauto.
Qed.

Lemma fits_prefix (w1 w2 : list CharType) : fits (w1 ++ w2) -> fits w1.
Proof. unfold fits. rewrite length_app. lia. Qed.

(** The loop of [insert] walks the existing path of the keyword and creates
    the missing states, which carry no emit and no failure link. *)
Lemma add_states_spec (rest : list CharType) :
  forall (h : heap) (paths : list (list CharType)) (cur : ptr) (pre : list CharType),
  trie_inv h paths -> paths !! cur = Some pre -> fits (pre ++ rest) ->
  exists h' fresh p k,
    basic_trie.add_states h cur rest = Ok (h', p) /\
    trie_inv h' (paths ++ fresh) /\
    (paths ++ fresh) !! p = Some (pre ++ rest) /\
    map d_emits h' = map d_emits h ++ replicate k [] /\
    map d_failure h' = map d_failure h ++ replicate k None /\
    (pre ++ rest ∈ paths -> h' = h).
Proof.
  induction rest as [|ch rest IH]; intros h paths cur pre Hinv Hcur Hfit.
  - exists h, [], cur, 0%nat. simpl. rewrite !app_nil_r. done.
  - simpl. destruct (inv_lookup_state _ _ Hinv _ _ Hcur) as [s Hs].
    assert (fits (pre ++ [ch])) as Hfit1.
    { apply (fits_prefix _ rest). by rewrite <- app_assoc. }
    destruct (goto h cur ch) as [q|] eqn:Hgoto.
    + assert (state.add_state h cur ch = Ok (h, q)) as ->.
      { unfold add_state. rewrite (deref_lookup _ _ _ Hs). simpl.
        unfold next_state_ignore_root_state, next_state_from.
        rewrite (goto_lookup h cur s ch Hs) in Hgoto. by rewrite Hgoto. }
      simpl. pose proof (inv_goto_path _ _ Hinv _ _ _ _ Hcur Hgoto) as Hq.
      destruct (IH h paths q (pre ++ [ch]) Hinv Hq) as (h' & fresh & p & k & Hadd & ? & ? & ? & ? & ?).
      { by rewrite <- app_assoc. }
      exists h', fresh, p, k. rewrite <- app_assoc in *. done.
    + destruct (add_state_new h paths cur pre ch s Hinv Hcur Hs Hfit1 Hgoto) as [-> Hinv1].
      simpl. set (h1 := <[cur := _]> (h ++ [_])) in *.
      assert ((paths ++ [pre ++ [ch]]) !! length h = Some (pre ++ [ch])) as Hq.
      { rewrite <- (inv_length _ _ Hinv). by apply list_lookup_middle. }
      destruct (IH h1 _ (length h) (pre ++ [ch]) Hinv1 Hq)
        as (h' & fresh & p & k & Hadd & Hinv' & Hp & Hem & Hfl & _).
      { by rewrite <- app_assoc. }
      assert (cur < length h)%nat as Hlt by (by eapply lookup_lt_Some).
      exists h', ((pre ++ [ch]) :: fresh), p, (S k).
      rewrite <- !app_assoc in *. simpl in *. split_and!; try done.
      * rewrite Hem. unfold h1. rewrite list_fmap_insert. simpl.
        rewrite list_insert_id.
        -- rewrite map_app. simpl. by rewrite <- app_assoc.
        -- rewrite map_app. rewrite lookup_app_l by (rewrite length_map; lia).
           rewrite list_lookup_fmap. by rewrite Hs.
      * rewrite Hfl. unfold h1. rewrite list_fmap_insert. simpl.
        rewrite list_insert_id.
        -- rewrite map_app. simpl. by rewrite <- app_assoc.
        -- rewrite map_app. rewrite lookup_app_l by (rewrite length_map; lia).
           rewrite list_lookup_fmap. by rewrite Hs.
      * intros Hin. exfalso.
        assert (pre ++ [ch] ∈ paths) as Hin'.
        { apply (inv_prefix_closed h paths _ rest Hinv). by rewrite <- app_assoc. }
        apply list_elem_of_lookup_1 in Hin' as [q' Hq'].
        assert (goto h cur ch = Some q') by (apply (inv_goto _ _ Hinv); eauto).
        congruence.
Qed.

Lemma trie_inv_new : trie_inv [state.new 0%nat 0] [[]].
Proof.
  constructor; simpl.
  - done.
  - done.
  - apply NoDup_singleton.
  - intros w c Hin. apply list_elem_of_singleton in Hin. by destruct w.
  - intros p c q. split.
    + intros Hg. apply goto_Some in Hg as (s & Hs & Hf).
      destruct p; simpl in Hs; [|done]. by injection Hs as <-.
    + intros (w & Hp & Hq). apply list_lookup_singleton_Some in Hp as [-> <-].
      apply list_lookup_singleton_Some in Hq as [_ Hq]. done.
  - intros p s w Hs Hw. apply list_lookup_singleton_Some in Hs as [-> <-].
    apply list_lookup_singleton_Some in Hw as [_ <-]. done.
  - intros w Hin. apply list_elem_of_singleton in Hin. subst w. unfold fits. simpl. lia.
  - intros p s Hs. apply list_lookup_singleton_Some in Hs as [-> <-]. done.
  - intros p s Hs. apply list_lookup_singleton_Some in Hs as [-> <-]. apply NoDup_nil_2.
Qed.

Lemma wf_trie_new (c : basic_trie.config) : wf_trie (basic_trie.new_with c) [[]].
Proof.
  constructor; simpl.
  - apply trie_inv_new.
  - done.
  - intros p s kw i Hs Hin. apply list_lookup_singleton_Some in Hs as [-> <-].
    simpl in Hin. by apply elem_of_nil in Hin.
Qed.

(** Changing fields other than [d_success], [d_depth] and [d_root] of one
    state keeps the shape. *)
Lemma trie_inv_insert (h : heap) (paths : list (list CharType)) (p : ptr) (s s' : state.t) :
  trie_inv h paths -> h !! p = Some s ->
  d_success s' = d_success s -> d_depth s' = d_depth s -> d_root s' = d_root s ->
  trie_inv (<[p := s']> h) paths.
Proof.
  intros Hinv Hs Hsucc Hdep Hroot.
  assert (p < length h)%nat as Hlt by (by eapply lookup_lt_Some).
  assert (Hlook : forall q t, <[p := s']> h !! q = Some t ->
            exists t0, h !! q = Some t0 /\ d_success t = d_success t0 /\
                       d_depth t = d_depth t0 /\ d_root t = d_root t0).
  { intros q t Ht. destruct (decide (q = p)) as [->|Hne].
    - rewrite list_lookup_insert_eq in Ht by done. injection Ht as <-. eauto.
    - rewrite list_lookup_insert_ne in Ht by done. eauto. }
  assert (Hgoto : forall q c, goto (<[p := s']> h) q c = goto h q c).
  { intros q c. unfold goto. destruct (decide (q = p)) as [->|Hne].
    - rewrite list_lookup_insert_eq by done. rewrite Hs. simpl. by rewrite Hsucc.
    - by rewrite list_lookup_insert_ne by done. }
  constructor.
  - rewrite length_insert. eapply inv_length; eauto.
  - eapply inv_root; eauto.
  - eapply inv_nodup; eauto.
  - eapply inv_prefix; eauto.
  - intros q c r. rewrite Hgoto. eapply inv_goto; eauto.
  - intros q t w Ht Hw. apply Hlook in Ht as (t0 & Ht0 & _ & -> & _). eapply inv_depth; eauto.
  - eapply inv_fits; eauto.
  - intros q t Ht. apply Hlook in Ht as (t0 & Ht0 & _ & _ & ->). eapply inv_droot; eauto.
  - intros q t Ht. apply Hlook in Ht as (t0 & Ht0 & -> & _ & _). eapply inv_keys; eauto.
Qed.

Lemma map_replicate_lookup {A} (f : state.t -> A) (h h0 : heap) (k : nat) (x : A) (p : ptr) (s : state.t) :
  map f h = map f h0 ++ replicate k x -> h !! p = Some s ->
  (exists s0, h0 !! p = Some s0 /\ f s = f s0) \/ ((length h0 <= p)%nat /\ f s = x).
Proof.
  intros Hmap Hs.
  assert (map f h !! p = Some (f s)) as Hfs by (by rewrite list_lookup_fmap, Hs).
  rewrite Hmap in Hfs. apply lookup_app_Some in Hfs as [Hl|[Hge Hr]].
  - left. rewrite list_lookup_fmap in Hl. destruct (h0 !! p) as [s0|]; [|done].
    injection Hl as Hl. eauto.
  - right. rewrite length_map in Hge. split; [done|].
    apply lookup_replicate in Hr as [<- _]. done.
Qed.

(** What [insert] does on a non-empty keyword. *)
Lemma insert_spec (tr : basic_trie.t) (paths : list (list CharType)) (kw : list CharType) :
  wf_trie tr paths -> fits kw -> kw <> [] ->
  exists h1 fresh p s1 k,
    basic_trie.add_states (basic_trie.states tr) 0%nat kw = Ok (h1, p) /\
    h1 !! p = Some s1 /\
    trie_inv h1 (paths ++ fresh) /\
    (paths ++ fresh) !! p = Some kw /\
    map d_emits h1 = map d_emits (basic_trie.states tr) ++ replicate k [] /\
    (kw ∈ paths -> h1 = basic_trie.states tr) /\
    basic_trie.insert tr kw =
      if (0 =? vector_size (d_emits s1)) || basic_trie.is_allow_substrings (basic_trie.d_config tr)
      then Ok (basic_trie.mk (<[p := add_emit kw (basic_trie.d_num_keywords tr) s1]> h1)
                 (basic_trie.d_root tr) (basic_trie.d_config tr) (basic_trie.d_postprocessed tr)
                 (wrap32 (basic_trie.d_num_keywords tr + 1)) (basic_trie.d_state_count tr)
                 (basic_trie.d_states_in_bfs_order tr) (basic_trie.d_final_states_in_bfs_order tr),
               Some p)
      else Ok (basic_trie.with_states h1 tr, None).
Proof.
  intros [Hinv Hroot Hem] Hfit Hne.
  destruct (add_states_spec kw _ paths 0%nat [] Hinv (inv_root _ _ Hinv) Hfit)
    as (h1 & fresh & p & k & Hadd & Hinv1 & Hp & Hemits & _ & Hsame).
  destruct (inv_lookup_state _ _ Hinv1 _ _ Hp) as [s1 Hs1].
  exists h1, fresh, p, s1, k. split_and!; try done.
  unfold basic_trie.insert. destruct kw as [|c kw]; [done|].
  rewrite Hroot, Hadd. simpl. rewrite (deref_lookup _ _ _ Hs1). simpl.
  unfold get_emits.
  match goal with |- context [orb ?a ?b] => destruct (orb a b) end; [|done].
  by rewrite (update_lookup _ _ _ _ Hs1).
Qed.

Lemma wf_trie_insert (tr tr' : basic_trie.t) (paths : list (list CharType)) (kw : list CharType)
  (handle : option ptr) :
  wf_trie tr paths -> fits kw -> basic_trie.insert tr kw = Ok (tr', handle) ->
  exists fresh, wf_trie tr' (paths ++ fresh).
Proof.
  intros Hwf Hfit Hins. destruct (decide (kw = [])) as [->|Hne].
  { simpl in Hins. injection Hins as <- <-. exists []. by rewrite app_nil_r. }
  destruct (insert_spec tr paths kw Hwf Hfit Hne)
    as (h1 & fresh & p & s1 & k & Hadd & Hs1 & Hinv1 & Hp & Hemits & Hsame & Heq).
  rewrite Heq in Hins. clear Heq. destruct Hwf as [Hinv Hroot Hem]. exists fresh.
  assert (emits_exact h1 (paths ++ fresh)) as Hem1.
  { intros q s kw' i Hs Hin.
    destruct (map_replicate_lookup d_emits _ _ _ _ _ _ Hemits Hs) as [(s0 & Hs0 & Heq)|[_ Heq]].
    - rewrite Heq in Hin. destruct (Hem _ _ _ _ Hs0 Hin) as [Hq ?].
      split; [by apply lookup_app_l_Some | done].
    - rewrite Heq in Hin. by apply elem_of_nil in Hin. }
  match type of Hins with context [orb ?a ?b] => destruct (orb a b) end.
  - injection Hins as <- <-. constructor; simpl; [| done |].
    + eapply trie_inv_insert; eauto.
    + intros q s kw' i Hs Hin. destruct (decide (q = p)) as [->|Hqp].
      * rewrite list_lookup_insert_eq in Hs by (by eapply lookup_lt_Some).
        injection Hs as <-. simpl in Hin. apply elem_of_app in Hin as [Hin|Hin].
        -- eauto.
        -- apply list_elem_of_singleton in Hin. injection Hin as -> ->. done.
      * rewrite list_lookup_insert_ne in Hs by done. eauto.
  - injection Hins as <- <-. constructor; simpl; done.
Qed.

Lemma pre_compilation_wf (tr : basic_trie.t) :
  pre_compilation tr -> exists paths, wf_trie tr paths.
Proof.
  induction 1 as [c|tr c _ [paths IH]|tr tr' kw handle _ [paths IH] Hfit Hins].
  - exists [[]]. apply wf_trie_new.
  - exists paths. destruct IH. by constructor.
  - destruct (wf_trie_insert _ _ _ _ _ IH Hfit Hins) as [fresh ?]. eauto.
Qed.

(** ** The indices of the keywords *)


Lemma with_states_same (tr : basic_trie.t) : basic_trie.with_states (basic_trie.states tr) tr = tr.
Proof. by destruct tr. Qed.

Lemma map_replicate_lookup_old {A} (f : state.t -> A) (h h0 : heap) (k : nat) (x : A) (q : ptr)
  (s : state.t) :
  map f h = map f h0 ++ replicate k x -> h0 !! q = Some s ->
  exists s', h !! q = Some s' /\ f s' = f s.
Proof.
  intros Hmap Hs.
  assert (map f h !! q = Some (f s)) as Hl.
  { rewrite Hmap. apply lookup_app_l_Some. by rewrite list_lookup_fmap, Hs. }
  rewrite list_lookup_fmap in Hl. destruct (h !! q) as [s'|]; [|done].
  injection Hl as Hl. eauto.
Qed.

(** The terminal state found by the loop of [insert] carries the emits that
    the keyword's state had before the call. *)
Lemma insert_terminal_emits (tr : basic_trie.t) (paths fresh : list (list CharType))
  (kw : list CharType) (h1 : heap) (p : ptr) (s1 : state.t) (k : nat) :
  wf_trie tr paths -> h1 !! p = Some s1 -> trie_inv h1 (paths ++ fresh) ->
  (paths ++ fresh) !! p = Some kw ->
  map d_emits h1 = map d_emits (basic_trie.states tr) ++ replicate k [] ->
  (kw ∈ paths -> h1 = basic_trie.states tr) ->
  d_emits s1 = terminal_emits tr kw /\ (d_emits s1 <> [] -> h1 = basic_trie.states tr).
Proof.
  intros [Hinv Hroot Hem] Hs1 Hinv1 Hp Hemits Hsame. unfold terminal_emits. rewrite Hroot.
  destruct (walk _ 0%nat kw) as [q|] eqn:Hwalk.
  - apply (walk_paths _ _ Hinv) in Hwalk.
    assert (kw ∈ paths) as Hin by (by eapply list_elem_of_lookup_2).
    rewrite <- (Hsame Hin).
    assert (q = p) as ->.
    { eapply (NoDup_lookup (paths ++ fresh)); eauto using inv_nodup. by apply lookup_app_l_Some. }
    rewrite Hs1. auto.
  - assert (kw ∉ paths) as Hnot.
    { intros Hin. apply list_elem_of_lookup_1 in Hin as [q Hq].
      apply (walk_paths _ _ Hinv) in Hq. congruence. }
    destruct (map_replicate_lookup d_emits _ _ _ _ _ _ Hemits Hs1) as [(s0 & Hs0 & Heq)|[_ Heq]].
    + exfalso. apply Hnot. destruct (inv_lookup_path _ _ Hinv _ _ Hs0) as [w Hw].
      pose proof (lookup_app_l_Some _ fresh _ _ Hw) as Hw'. rewrite Hp in Hw'.
      injection Hw' as ->. by eapply list_elem_of_lookup_2.
    + rewrite Heq. split; [done|]. done.
Qed.







(** ** Compilation *)

(** [state::get_states] and [state::get_transitions] hand on what the
    transition map returns, and its functions return nothing. *)
Lemma get_states_undefined (s : state.t) : get_states s = Undefined.
Proof. reflexivity. Qed.

Lemma get_transitions_undefined (s : state.t) : get_transitions s = Undefined.
Proof. reflexivity. Qed.

(** The first iteration of the loop of [assign_indices] ends in the call of
    [get_states]. *)
Lemma assign_index_undefined (c : basic_trie.config) (st : heap * Z * list ptr) (cur_state : ptr) :
  basic_trie.assign_index c st cur_state = Undefined.
Proof.
  destruct st as [[h i] bfs]. unfold basic_trie.assign_index, update, deref.
  destruct (h !! cur_state) as [s|]; [|reflexivity]. cbn.
  destruct (_ !! cur_state) as [s1|]; [|reflexivity]. cbn.
  destruct (_ !! cur_state) as [s2|]; reflexivity.
Qed.

Lemma assign_indices_undefined (tr : basic_trie.t) : basic_trie.assign_indices tr = Undefined.
Proof.
  unfold basic_trie.assign_indices. cbn [basic_trie.while_queue].
  by rewrite assign_index_undefined.
Qed.

Lemma construct_failure_states_undefined (tr : basic_trie.t) :
  basic_trie.construct_failure_states tr = Undefined.
Proof.
  unfold basic_trie.construct_failure_states, deref.
  by destruct (_ !! _).
Qed.

(** A compilation that has work to do does not return. *)
Lemma check_postprocess_first (tr : basic_trie.t) :
  basic_trie.d_postprocessed tr = false -> basic_trie.check_postprocess tr = Undefined.
Proof.
  intros Hflag. unfold basic_trie.check_postprocess. rewrite Hflag. cbn [negb].
  by rewrite assign_indices_undefined.
Qed.

(** [check_postprocess] returns only on a trie whose flag is set, and leaves
    it as it is. *)
Lemma check_postprocess_Ok (tr tr' : basic_trie.t) :
  basic_trie.check_postprocess tr = Ok tr' <-> basic_trie.d_postprocessed tr = true /\ tr' = tr.
Proof.
  destruct (basic_trie.d_postprocessed tr) eqn:Hflag.
  - unfold basic_trie.check_postprocess. rewrite Hflag. cbn [negb]. split.
    + by intros [= <-].
    + by intros [_ ->].
  - rewrite check_postprocess_first by done. split; [done|]. by intros [? _].
Qed.

Lemma parse_text_first (tr : basic_trie.t) (text : list CharType) :
  basic_trie.d_postprocessed tr = false -> basic_trie.parse_text tr text = Undefined.
Proof.
  intros Hflag. unfold basic_trie.parse_text. by rewrite check_postprocess_first.
Qed.

Lemma tokenise_first (tr : basic_trie.t) (text : list CharType) :
  basic_trie.d_postprocessed tr = false -> basic_trie.tokenise tr text = Undefined.
Proof.
  intros Hflag. unfold basic_trie.tokenise. by rewrite parse_text_first.
Qed.

(** Insertion creates states without failure link or index and leaves the
    members that compilation writes alone. *)
Lemma add_state_untouched (h h' : heap) (this p : ptr) (c : CharType) :
  add_state h this c = Ok (h', p) ->
  Forall untouched h -> Forall untouched h'.
Proof.
  unfold add_state. intros Hadd Hall. bind_inv Hadd as s Hs.
  destruct (next_state_ignore_root_state s c) as [next|]; [by injection Hadd as <- <-|].
  bind_inv Hadd as h1 Hup. injection Hadd as <- <-.
  apply update_Ok in Hup as (s1 & Hs1 & ->).
  assert (Forall untouched (h ++ [set_parent (Some this) (new (length h) (wrap64 (d_depth s + 1)))]))
    as Hall1.
  { apply Forall_app. split; [done|]. by repeat constructor. }
  apply Forall_insert; [done|].
  apply (Forall_lookup_1 _ _ _ _ Hall1) in Hs1. exact Hs1.
Qed.

Lemma add_states_untouched (keyword : list CharType) :
  forall (h h' : heap) (cur_state p : ptr),
  basic_trie.add_states h cur_state keyword = Ok (h', p) ->
  Forall untouched h -> Forall untouched h'.
Proof.
  induction keyword as [|ch rest IH]; intros h h' cur_state p Hadd Hall; simpl in Hadd.
  - by injection Hadd as <- <-.
  - bind_inv Hadd as [h1 p1] H1. apply add_state_untouched in H1; [|done]. eauto.
Qed.

Lemma insert_uncompiled (tr tr' : basic_trie.t) (keyword : list CharType) (handle : option ptr) :
  basic_trie.insert tr keyword = Ok (tr', handle) -> uncompiled tr -> uncompiled tr'.
Proof.
  intros Hins [Hflag Hcount Horder Hfinal Hall]. unfold basic_trie.insert in Hins.
  destruct keyword as [|ch rest]; [by injection Hins as <- <-|].
  bind_inv Hins as [h1 p] Hadd. apply add_states_untouched in Hadd; [|done].
  bind_inv Hins as s Hs.
  destruct (_ || _).
  - bind_inv Hins as h2 Hup. injection Hins as <- <-.
    apply update_Ok in Hup as (s1 & Hs1 & ->).
    constructor; simpl; try done.
    apply Forall_insert; [done|].
    apply (Forall_lookup_1 _ _ _ _ Hadd) in Hs1. exact Hs1.
  - injection Hins as <- <-. by constructor.
Qed.

Lemma pre_compilation_uncompiled (tr : basic_trie.t) : pre_compilation tr -> uncompiled tr.
Proof.
  induction 1 as [c|tr c _ IH|tr tr' kw handle _ IH Hfit Hins].
  - constructor; simpl; try done. by repeat constructor.
  - destruct IH. by constructor.
  - by apply (insert_uncompiled tr tr' kw handle).
Qed.

Lemma pre_compilation_flag (tr : basic_trie.t) :
  pre_compilation tr -> basic_trie.d_postprocessed tr = false.
Proof. intros Hpre. by destruct (pre_compilation_uncompiled tr Hpre). Qed.

(** Inserting strings into a trie that has not been compiled returns, and
    gives such a trie. *)
Lemma insert_pre_compilation (tr : basic_trie.t) (keyword : list CharType) :
  pre_compilation tr -> fits keyword ->
  exists tr' handle, basic_trie.insert tr keyword = Ok (tr', handle) /\ pre_compilation tr'.
Proof.
  intros Hpre Hfit.
  assert (exists tr' handle, basic_trie.insert tr keyword = Ok (tr', handle))
    as (tr' & handle & Hins).
  { destruct keyword as [|ch rest]; [by eexists _, _|].
    destruct (pre_compilation_wf tr Hpre) as [paths Hwf].
    destruct (insert_spec tr paths (ch :: rest) Hwf Hfit ltac:(done))
      as (h1 & fresh & p & s1 & k & _ & _ & _ & _ & _ & _ & Hins).
    rewrite Hins. destruct (_ || _); by eexists _, _. }
  exists tr', handle. split; [done|]. by apply (pre_insert tr tr' keyword handle).
Qed.

Lemma insert_all_pre_compilation (keywords : list (list CharType)) :
  forall tr, pre_compilation tr -> Forall fits keywords ->
  exists tr' handles, insert_all tr keywords = Ok (tr', handles) /\ pre_compilation tr'.
Proof.
  induction keywords as [|kw rest IH]; intros tr Hpre Hfits; simpl.
  - by eexists _, _.
  - apply Forall_cons in Hfits as [Hfit Hfits].
    destruct (insert_pre_compilation tr kw Hpre Hfit) as (tr1 & handle & -> & Hpre1).
    destruct (IH tr1 Hpre1 Hfits) as (tr' & handles & Hall & Hpre').
    simpl. rewrite Hall. simpl. by eexists _, _.
Qed.

(** ** The examples of the specification *)

Lemma fits_ushers_keywords : Forall fits ushers_keywords.
Proof. repeat constructor. Qed.

Lemma ushers_trie_pre_compilation : pre_compilation ushers_trie.
Proof.
  destruct (insert_all_pre_compilation ushers_keywords basic_trie.new
              (pre_new basic_trie.default_config) fits_ushers_keywords)
    as (tr & handles & Hall & Hpre).
  unfold ushers_trie. by rewrite Hall.
Qed.

(** ** Compilation stores no new (keyword, index) pair *)


(** The loop of the range overload cannot end while [first] differs from
    [last]. *)
Lemma insert_range_loop_stuck (range : list (list CharType)) (first last : nat) :
  first <> last ->
  forall (fuel it : nat) (tr : basic_trie.t),
  basic_trie.insert_range_loop fuel range first last it tr = OutOfFuel \/
  basic_trie.insert_range_loop fuel range first last it tr = Undefined.
Proof.
  intros Hne. apply Nat.eqb_neq in Hne.
  induction fuel as [|fuel IH]; intros it tr; simpl; rewrite Hne; [by left|].
  destruct (range !! it) as [keyword|]; [|by right].
  destruct (basic_trie.insert tr keyword) as [[tr1 handle]| |]; simpl; [apply IH | by right | by left].
Qed.

(** * The properties of the specification *)

(** ** Scanning *)

(** C1. The code falls short of it: a scan compiles the automaton first, and
    the compilation asks the root for its children through [get_states],
    which returns nothing (C10). Whatever the keywords and the text, the
    scan of a freshly built automaton under the default configuration
    returns no emit: its behaviour is undefined. *)
Theorem scan_returns_no_emit (keywords : list (list CharType)) (text : list CharType) :
  Forall fits keywords -> scan_with (fun tr => tr) keywords text = Undefined.
Proof.
  intros Hfits. unfold scan_with.
  destruct (insert_all_pre_compilation keywords basic_trie.new
              (pre_new basic_trie.default_config) Hfits) as (tr & handles & Hall & Hpre).
  cbn beta. rewrite Hall. simpl. rewrite parse_text_first; [done|].
  by apply pre_compilation_flag.
Qed.

Lemma scan_returns_no_emit_witness :
  Forall fits [str "a"; str "ab"] /\
  scan_with (fun tr => tr) [str "a"; str "ab"] (str "cab") = Undefined.
Proof.
  split; [repeat constructor|].
  apply (scan_returns_no_emit [str "a"; str "ab"] (str "cab")). repeat constructor.
Defined.

(** C5. The code falls short of it: the four keywords are inserted (into
    the states 2, 5, 7 and 9), and the scan of "ushers" then ends in the
    first step of the compilation, the call of [get_states] on the root
    (C10). No emit is returned. *)
Theorem ushers_scan_returns_nothing :
  insert_all basic_trie.new ushers_keywords
  = Ok (ushers_trie, [Some 2%nat; Some 5%nat; Some 7%nat; Some 9%nat]) /\
  basic_trie.assign_indices ushers_trie = Undefined /\
  basic_trie.parse_text ushers_trie (str "ushers") = Undefined /\
  scan_with (fun tr => tr) ushers_keywords (str "ushers") = Undefined.
Proof. split_and!; vm_compute; reflexivity. Qed.

(** C8. The code falls short of it: [check_postprocess] returns only on a
    trie whose flag is set, which it then leaves as it is; the flag is set
    at the end of a compilation, and no compilation of a trie built by
    insertions gets there (C10). So the first scan does not return, and
    neither do two scans or two compilations in a row. *)
Theorem first_scan_never_returns (tr : basic_trie.t) (text : list CharType) :
  pre_compilation tr ->
  basic_trie.d_postprocessed tr = false /\
  basic_trie.parse_text tr text = Undefined /\
  scan_twice tr text = Undefined /\
  compile_twice tr = Undefined /\
  forall tr0 tr' : basic_trie.t,
    basic_trie.check_postprocess tr0 = Ok tr' <->
    basic_trie.d_postprocessed tr0 = true /\ tr' = tr0.
Proof.
  intros Hpre. pose proof (pre_compilation_flag tr Hpre) as Hflag. split_and!.
  - done.
  - by apply parse_text_first.
  - unfold scan_twice. by rewrite parse_text_first.
  - unfold compile_twice. by rewrite check_postprocess_first.
  - apply check_postprocess_Ok.
Qed.

Lemma first_scan_never_returns_witness :
  pre_compilation ushers_trie /\
  basic_trie.d_postprocessed ushers_trie = false /\
  basic_trie.parse_text ushers_trie (str "she") = Undefined /\
  scan_twice ushers_trie (str "she") = Undefined /\
  compile_twice ushers_trie = Undefined /\
  forall tr0 tr' : basic_trie.t,
    basic_trie.check_postprocess tr0 = Ok tr' <->
    basic_trie.d_postprocessed tr0 = true /\ tr' = tr0.
Proof.
  split; [apply ushers_trie_pre_compilation|].
  apply (first_scan_never_returns ushers_trie (str "she")).
  apply ushers_trie_pre_compilation.
Defined.

(** ** Compilation *)

(** C2. The code falls short of it: no compilation of a trie built by
    insertions returns. [assign_indices], its first step, ends in the call
    of [get_states], which returns nothing (C10); [construct_failure_states]
    begins with the same call. In the trie that is handed to the
    compilation every failure link is null, so no state of depth 1 fails to
    the root. *)
Theorem compilation_never_returns (tr : basic_trie.t) :
  pre_compilation tr ->
  basic_trie.assign_indices tr = Undefined /\
  basic_trie.construct_failure_states tr = Undefined /\
  basic_trie.check_postprocess tr = Undefined /\
  forall p s, basic_trie.states tr !! p = Some s -> failure s = None.
Proof.
  intros Hpre. destruct (pre_compilation_uncompiled tr Hpre) as [Hflag _ _ _ Hall].
  split_and!.
  - apply assign_indices_undefined.
  - apply construct_failure_states_undefined.
  - by apply check_postprocess_first.
  - intros p s Hs. by destruct (Forall_lookup_1 _ _ _ _ Hall Hs).
Qed.

Lemma compilation_never_returns_witness :
  pre_compilation ushers_trie /\
  basic_trie.assign_indices ushers_trie = Undefined /\
  basic_trie.construct_failure_states ushers_trie = Undefined /\
  basic_trie.check_postprocess ushers_trie = Undefined /\
  forall p s, basic_trie.states ushers_trie !! p = Some s -> failure s = None.
Proof.
  split; [apply ushers_trie_pre_compilation|].
  apply (compilation_never_returns ushers_trie). apply ushers_trie_pre_compilation.
Defined.

(** C10. The code falls short of it: [transition_map::get_states] and
    [transition_map::get_transitions] build their collection and reach the
    end of the function without returning it, for every map. *)
Theorem get_states_returns_nothing (d_map : list (CharType * ptr)) :
  transition_map.get_states d_map = Undefined /\
  transition_map.get_transitions d_map = Undefined /\
  transition_map.get_states_body d_map = transition_map.FlowsOffEnd _ (map snd d_map) /\
  transition_map.get_transitions_body d_map = transition_map.FlowsOffEnd _ (map fst d_map).
Proof.
  split_and!; try reflexivity.
  - unfold transition_map.get_states_body. f_equal. apply (fold_push_back snd d_map []).
  - unfold transition_map.get_transitions_body. f_equal. apply (fold_push_back fst d_map []).
Qed.

(** ** Insertion *)

(** C6. Before compilation, [insert] of a string returns: the root and the
    unchanged trie for the empty keyword; a null handle and the unchanged
    trie exactly when the keyword's terminal state already has an emit and
    substrings are disallowed; and otherwise the terminal state, to whose
    emits it has appended the keyword with the next unused index, leaving
    the emits of every other state as they were. *)
Theorem insert_outcome (tr : basic_trie.t) (keyword : list CharType) :
  pre_compilation tr -> fits keyword ->
  exists tr' handle, basic_trie.insert tr keyword = Ok (tr', handle) /\
    match keyword with
    | [] => tr' = tr /\ handle = Some (basic_trie.d_root tr)
    | _ :: _ =>
        if rejects tr keyword then handle = None /\ tr' = tr
        else exists p s',
          handle = Some p /\
          walk (basic_trie.states tr') (basic_trie.d_root tr') keyword = Some p /\
          basic_trie.states tr' !! p = Some s' /\
          d_emits s' = terminal_emits tr keyword ++ [(keyword, basic_trie.d_num_keywords tr)] /\
          basic_trie.d_num_keywords tr' = wrap32 (basic_trie.d_num_keywords tr + 1) /\
          forall q s, q <> p -> basic_trie.states tr !! q = Some s ->
                      exists s'', basic_trie.states tr' !! q = Some s'' /\ d_emits s'' = d_emits s
    end.
Proof.
  intros Hpre Hfit. destruct (pre_compilation_wf tr Hpre) as [paths Hwf].
  destruct keyword as [|c kw]; [by eexists _, _|].
  destruct (insert_spec tr paths (c :: kw) Hwf Hfit ltac:(done))
    as (h1 & fresh & p & s1 & k & Hadd & Hs1 & Hinv1 & Hp & Hemits & Hsame & Heq).
  destruct (insert_terminal_emits tr paths fresh (c :: kw) h1 p s1 k Hwf Hs1 Hinv1 Hp Hemits Hsame)
    as [Hterm Hold].
  rewrite Heq. unfold rejects. rewrite <- Hterm.
  destruct (basic_trie.is_allow_substrings (basic_trie.d_config tr)) eqn:Hallow;
    destruct (0 =? vector_size (d_emits s1)) eqn:Hsize; cbn [negb andb orb].
  4: { eexists _, _. split; [done|]. split; [done|].
       rewrite Hold; [apply with_states_same|].
       intros Hnil. rewrite Hnil in Hsize. done. }
  all: eexists _, _; (split; [done|]); exists p, (add_emit (c :: kw) (basic_trie.d_num_keywords tr) s1);
    cbn [basic_trie.states basic_trie.d_root basic_trie.d_num_keywords]; assert (p < length h1)%nat by (by eapply lookup_lt_Some);
    (split_and!; [done | | by apply list_lookup_insert_eq | done | done |]);
    [ rewrite (wf_root _ _ Hwf);
      assert (trie_inv (<[p := add_emit (c :: kw) (basic_trie.d_num_keywords tr) s1]> h1)
                (paths ++ fresh)) as Hinv2 by (by eapply trie_inv_insert);
      by apply (walk_paths _ _ Hinv2)
    | intros q s Hq Hs;
      destruct (map_replicate_lookup_old d_emits _ _ _ _ _ _ Hemits Hs) as (s'' & Hs'' & Hem'');
      exists s''; by rewrite list_lookup_insert_ne ].
Qed.

Lemma insert_outcome_witness :
  pre_compilation basic_trie.new /\ fits (str "he") /\
  exists tr' handle, basic_trie.insert basic_trie.new (str "he") = Ok (tr', handle) /\
    exists p s',
      handle = Some p /\
      walk (basic_trie.states tr') (basic_trie.d_root tr') (str "he") = Some p /\
      basic_trie.states tr' !! p = Some s' /\
      d_emits s' = terminal_emits basic_trie.new (str "he")
                   ++ [(str "he", basic_trie.d_num_keywords basic_trie.new)] /\
      basic_trie.d_num_keywords tr' = wrap32 (basic_trie.d_num_keywords basic_trie.new + 1) /\
      forall q s, q <> p -> basic_trie.states basic_trie.new !! q = Some s ->
                  exists s'', basic_trie.states tr' !! q = Some s'' /\ d_emits s'' = d_emits s.
Proof.
  split; [apply pre_new|]. split; [reflexivity|].
  apply (insert_outcome basic_trie.new (str "he")).
  - apply pre_new.
  - reflexivity.
Defined.




(** C9. The code falls short of it: the loop of the range overload tests
    [first != last], which never changes. On a range of one keyword it
    inserts the keyword and then reads past the end of the range, however
    long it is left to run; only the empty range returns. *)
Theorem insert_range_runs_past_the_end (fuel : nat) :
  basic_trie.insert_range fuel [str "he"] 0 1 basic_trie.new
  = (if (fuel <? 2)%nat then OutOfFuel else Undefined) /\
  basic_trie.insert_range (S fuel) [] 0 0 basic_trie.new = Ok basic_trie.new.
Proof.
  split; [|reflexivity]. destruct fuel as [|[|fuel]]; reflexivity.
Qed.

(** The range overload returns for no range but the empty one: whatever
    the keywords and however long it runs, the loop goes on or reads past
    the end of the range. *)
Theorem insert_range_never_returns (fuel : nat) (range : list (list CharType)) (first last : nat)
  (tr : basic_trie.t) :
  first <> last ->
  basic_trie.insert_range fuel range first last tr = OutOfFuel \/
  basic_trie.insert_range fuel range first last tr = Undefined.
Proof. intros Hne. by apply insert_range_loop_stuck. Qed.

Lemma insert_range_never_returns_witness :
  0%nat <> 4%nat /\
  (basic_trie.insert_range 9 ushers_keywords 0 4 basic_trie.new = OutOfFuel \/
   basic_trie.insert_range 9 ushers_keywords 0 4 basic_trie.new = Undefined).
Proof.
  split; [lia|]. apply (insert_range_never_returns 9 ushers_keywords 0 4 basic_trie.new). lia.
Defined.

(** ** Overlap removal *)

(** C3. The code falls short of it: the marked intervals are kept in a set
    ordered by start position alone, so of two marked intervals with the
    same start only the first is recorded and dropped. For [0, 10], [2, 3],
    [2, 4] the code returns [0, 10] and [2, 4]; the walk described in the
    specification marks and drops both [2, 3] and [2, 4]. *)
Theorem remove_overlaps_keeps_marked_interval :
  remove_overlaps_of nested_intervals = Ok [interval.mk 0 10; interval.mk 2 4] /\
  described_remove_overlaps nested_intervals = [interval.mk 0 10].
Proof. split; vm_compute; reflexivity. Qed.

(** C4. The code falls short of it: of two marked intervals that start at
    the same position only the first is recorded and dropped (the defect of
    C3). For [1, 2], [1, 3], [0, 4] the code returns [0, 4] and [1, 3],
    which overlap; so it does for the emits that carry these intervals. *)
Theorem remove_overlaps_returns_overlap :
  remove_overlaps_of stacked_intervals = Ok [interval.mk 0 4; interval.mk 1 3] /\
  interval.overlaps_with (interval.mk 0 4) (interval.mk 1 3) = true /\
  remove_overlaps_of stacked_emits
  = Ok [emit.new 0 4 (str "abcde") 0; emit.new 1 3 (str "bcd") 2].
Proof. split_and!; vm_compute; reflexivity. Qed.

(** * Further properties of the code *)

(** ** [tokenise] *)

Lemma substr_inside (text : list CharType) (pos len : Z) :
  0 <= pos <= string_size text ->
  basic_trie.substr text pos len = Ok (take (Z.to_nat len) (drop (Z.to_nat pos) text)).
Proof.
  intros Hpos. unfold basic_trie.substr.
  destruct (pos >? string_size text) eqn:Hgt; [lia | done].
Qed.

Lemma create_match_within (text : list CharType) (e : emit.t) :
  string_size text < 2 ^ 64 -> within (string_size text) e ->
  basic_trie.create_match e text = Ok (token.new_match (slice text e) e).
Proof.
  intros Hfit (H0 & Hse & Hend). unfold basic_trie.create_match.
  rewrite substr_inside by lia. simpl. unfold slice. do 3 f_equal.
  unfold wrap64. rewrite (Z.mod_small (emit.get_end e + 1)) by lia.
  rewrite Z.mod_small; lia.
Qed.

Lemma is_empty_within (size : Z) (e : emit.t) :
  size < 2 ^ 64 -> within size e -> emit.is_empty e = false.
Proof.
  intros Hfit (H0 & Hse & Hend). unfold emit.is_empty.
  apply andb_false_intro2. apply Z.eqb_neq. unfold interval.max_pos. lia.
Qed.

Lemma take_then_take (text : list CharType) (a b : Z) :
  0 <= a <= b ->
  take (Z.to_nat a) text ++ take (Z.to_nat (b - a)) (drop (Z.to_nat a) text)
  = take (Z.to_nat b) text.
Proof. intros Hab. rewrite take_take_drop. f_equal. lia. Qed.

(** One iteration of the loop: a fragment when the emit starts more than
    one position after [last_pos], then the match. *)
Lemma tokenise_step_spec (text : list CharType) (e : emit.t) (tokens : list token.t)
  (last_pos : Z) :
  string_size text < 2 ^ 64 -> within (string_size text) e ->
  0 <= last_pos < 2 ^ 64 -> wrap64 (last_pos + 1) <= string_size text ->
  exists pre,
    basic_trie.tokenise_step text (Ok (tokens, last_pos)) e
    = Ok ((tokens ++ pre) ++ [token.new_match (slice text e) e], emit.get_end e) /\
    Forall (fun tk => token.is_match tk = false) pre /\
    (wrap64 (last_pos + 1) <= emit.get_start e ->
     take (Z.to_nat (wrap64 (last_pos + 1))) text ++ concat (map token.get_fragment pre)
     = take (Z.to_nat (emit.get_start e)) text).
Proof.
  intros Hfit He Hlast Hpos. pose proof He as (H0 & Hse & Hend).
  assert (0 <= wrap64 (last_pos + 1)) as Hpos0 by (apply Z.mod_pos_bound; lia).
  set (pos := wrap64 (last_pos + 1)) in *.
  assert (Hdiff : wrap64 (emit.get_start e - last_pos) = wrap64 (emit.get_start e - pos + 1)).
  { unfold pos, wrap64.
    replace (emit.get_start e - last_pos) with (emit.get_start e + 1 - (last_pos + 1)) by lia.
    replace (emit.get_start e - (last_pos + 1) mod 2 ^ 64 + 1)
      with (emit.get_start e + 1 - (last_pos + 1) mod 2 ^ 64) by lia.
    by rewrite Zminus_mod_idemp_r. }
  unfold basic_trie.tokenise_step. simpl. rewrite Hdiff.
  rewrite (create_match_within text e Hfit He).
  destruct (wrap64 (emit.get_start e - pos + 1) >? 1) eqn:Hgap.
  - unfold basic_trie.create_fragment. fold pos.
    rewrite (is_empty_within (string_size text) e Hfit He), substr_inside by lia. simpl.
    eexists [_]. split; [done|]. split; [by constructor|].
    intros Hlo. simpl. unfold token.get_fragment. simpl. rewrite app_nil_r.
    assert (wrap64 (emit.get_start e - pos) = emit.get_start e - pos) as ->.
    { unfold wrap64. rewrite Z.mod_small; lia. }
    by apply take_then_take.
  - simpl. exists []. rewrite app_nil_r. split; [done|]. split; [done|].
    intros Hlo. simpl. rewrite app_nil_r.
    assert (emit.get_start e = pos) as ->; [|done].
    rewrite Z.gtb_ltb in Hgap. apply Z.ltb_ge in Hgap. unfold wrap64 in Hgap.
    rewrite Z.mod_small in Hgap; lia.
Qed.

(** The loop of [tokenise] from a state in which the text before
    [last_pos + 1] has been handed out. *)
Lemma tokenise_loop_spec (text : list CharType) (emits : list emit.t) :
  string_size text < 2 ^ 64 ->
  forall (tokens : list token.t) (last_pos : Z),
  0 <= last_pos < 2 ^ 64 -> wrap64 (last_pos + 1) <= string_size text ->
  Forall (within (string_size text)) emits ->
  exists tokens' last',
    fold_left (basic_trie.tokenise_step text) emits (Ok (tokens, last_pos))
    = Ok (tokens ++ tokens', last') /\
    0 <= last' < 2 ^ 64 /\ wrap64 (last' + 1) <= string_size text /\
    map token.get_emit (filter (fun tk => token.is_match tk = true) tokens') = emits /\
    Forall (fun tk => token.is_match tk = true ->
                      token.get_fragment tk = slice text (token.get_emit tk)) tokens' /\
    (separated_from (wrap64 (last_pos + 1)) (string_size text) emits ->
     take (Z.to_nat (wrap64 (last_pos + 1))) text ++ concat (map token.get_fragment tokens')
     = take (Z.to_nat (wrap64 (last' + 1))) text).
Proof.
  intros Hfit. induction emits as [|e emits IH]; intros tokens last_pos Hlast Hpos Hin.
  - exists [], last_pos. rewrite app_nil_r. simpl.
    split; [done|]. split; [done|]. split; [done|]. split; [done|]. split; [done|].
    intros _. by rewrite app_nil_r.
  - apply Forall_cons in Hin as [He Hin]. pose proof He as (H0 & Hse & Hend).
    destruct (tokenise_step_spec text e tokens last_pos Hfit He Hlast Hpos)
      as (pre & Hstep & Hpre & Hcat1).
    assert (Hnext : wrap64 (emit.get_end e + 1) = emit.get_end e + 1).
    { unfold wrap64. rewrite Z.mod_small; lia. }
    destruct (IH ((tokens ++ pre) ++ [token.new_match (slice text e) e]) (emit.get_end e))
      as (tokens' & last' & Hfold & Hl' & Hp' & Hms & Hfr & Hcat); [lia | lia | done |].
    exists (pre ++ token.new_match (slice text e) e :: tokens'), last'.
    split; [|split; [done|split; [done|split; [|split]]]].
    + cbn [fold_left]. rewrite Hstep, Hfold. f_equal. f_equal. by rewrite <- !app_assoc.
    + rewrite filter_app, filter_cons_True by done.
      assert (filter (fun tk => token.is_match tk = true) pre = []) as ->.
      { clear -Hpre. induction Hpre as [|tk pre Htk _ IHp]; [done|].
        rewrite filter_cons_False; [done|]. by rewrite Htk. }
      simpl. by rewrite Hms.
    + apply Forall_app. split.
      * eapply Forall_impl; [done|]. simpl. intros tk Hf Ht. congruence.
      * by constructor.
    + intros (Hlo & _ & _ & Hsep). rewrite Hnext in Hcat. rewrite <- (Hcat Hsep).
      rewrite map_app, concat_app, app_assoc, (Hcat1 Hlo). simpl.
      unfold token.get_fragment at 1. simpl. rewrite app_assoc. f_equal.
      unfold slice. rewrite <- (take_then_take text (emit.get_start e) (emit.get_end e + 1)) by lia.
      do 3 f_equal. lia.
Qed.

Lemma separated_within (size : Z) (emits : list emit.t) :
  forall lo, 0 <= lo -> separated_from lo size emits -> Forall (within size) emits.
Proof.
  induction emits as [|e emits IH]; intros lo Hlo Hsep; [done|].
  destruct Hsep as (H1 & H2 & H3 & Hsep). constructor.
  - unfold within. lia.
  - apply (IH (emit.get_end e + 1)); [lia | done].
Qed.

(** The tokens built from emits that lie inside the text. *)
Lemma tokenise_emits_spec (text : list CharType) (emits : list emit.t) :
  string_size text < interval.max_pos ->
  Forall (within (string_size text)) emits ->
  exists tokens,
    basic_trie.tokenise_emits text emits = Ok tokens /\
    map token.get_emit (filter (fun tk => token.is_match tk = true) tokens) = emits /\
    Forall (fun tk => token.is_match tk = true ->
                      token.get_fragment tk = slice text (token.get_emit tk)) tokens /\
    (separated_from 0 (string_size text) emits ->
     concat (map token.get_fragment tokens) = text).
Proof.
  intros Hsize Hin. unfold interval.max_pos in Hsize.
  assert (0 <= string_size text) as Hsize0 by (unfold string_size; lia).
  destruct (tokenise_loop_spec text emits ltac:(lia) [] interval.max_pos)
    as (tokens & last' & Hfold & Hl' & Hp' & Hms & Hfr & Hcat);
    [by unfold interval.max_pos | by change (wrap64 (interval.max_pos + 1)) with 0 | done |].
  change (wrap64 (interval.max_pos + 1)) with 0 in Hcat. simpl in Hcat.
  unfold basic_trie.tokenise_emits. rewrite Hfold. simpl.
  assert (0 <= wrap64 (last' + 1)) as Hpos0 by (apply Z.mod_pos_bound; lia).
  set (pos := wrap64 (last' + 1)) in *.
  assert (Hdiff : wrap64 (string_size text - last') = string_size text - pos + 1).
  { unfold pos, wrap64.
    replace (string_size text - last') with (string_size text + 1 - (last' + 1)) by lia.
    rewrite <- Zminus_mod_idemp_r. fold (wrap64 (last' + 1)). fold pos.
    rewrite Z.mod_small; lia. }
  rewrite Hdiff. destruct (string_size text - pos + 1 >? 1) eqn:Hrest.
  - assert (basic_trie.create_fragment emit.empty text last'
            = Ok (token.new_fragment (drop (Z.to_nat pos) text))) as ->.
    { unfold basic_trie.create_fragment. fold pos.
      change (emit.is_empty emit.empty) with true. cbn iota.
      rewrite substr_inside by lia. simpl. do 2 f_equal.
      apply take_ge. rewrite length_drop.
      assert (wrap64 (string_size text - pos) = string_size text - pos) as ->.
      { unfold wrap64. rewrite Z.mod_small; lia. }
      unfold string_size. lia. }
    simpl. eexists. split; [done|]. split_and!.
    + rewrite filter_app, filter_cons_False, filter_nil, app_nil_r by done. done.
    + apply Forall_app. split; [done|]. by constructor.
    + intros Hsep. rewrite map_app, concat_app, (Hcat Hsep). simpl.
      rewrite app_nil_r. apply take_drop.
  - exists tokens. split_and!; [done..|].
    intros Hsep. rewrite (Hcat Hsep). apply take_ge.
    rewrite Z.gtb_ltb in Hrest. apply Z.ltb_ge in Hrest. unfold string_size in *. lia.
Qed.

(** An emit that starts before the end of the one before it: the fragment
    that [create_fragment] is asked for would end before it starts, its
    length wraps around, and the token holds the rest of the text. *)
Lemma create_fragment_backwards (text : list CharType) (e : emit.t) (last_pos : Z) :
  string_size text < interval.max_pos -> within (string_size text) e ->
  0 <= last_pos < string_size text -> emit.get_start e < last_pos ->
  (wrap64 (emit.get_start e - last_pos) >? 1) = true /\
  basic_trie.create_fragment e text last_pos
  = Ok (token.new_fragment (drop (Z.to_nat (last_pos + 1)) text)).
Proof.
  intros Hsize He Hlast Hlt. pose proof He as (H0 & Hse & Hend).
  unfold interval.max_pos in Hsize.
  assert (wrap64 (last_pos + 1) = last_pos + 1) as Hpos.
  { unfold wrap64. rewrite Z.mod_small; lia. }
  split.
  - rewrite Z.gtb_ltb. apply Z.ltb_lt. unfold wrap64.
    replace (emit.get_start e - last_pos) with (emit.get_start e - last_pos + 2 ^ 64 + (-1) * 2 ^ 64)
      by lia.
    rewrite Z_mod_plus_full, Z.mod_small; lia.
  - unfold basic_trie.create_fragment.
    rewrite (is_empty_within (string_size text) e ltac:(lia) He).
    rewrite Hpos, substr_inside by lia. simpl. do 2 f_equal.
    apply take_ge. rewrite length_drop. unfold wrap64.
    replace (emit.get_start e - (last_pos + 1))
      with (emit.get_start e - (last_pos + 1) + 2 ^ 64 + (-1) * 2 ^ 64) by lia.
    rewrite Z_mod_plus_full, Z.mod_small by lia. unfold string_size in *. lia.
Qed.

Lemma tokenise_tail_spec (text : list CharType) (tokens : list token.t) (last_pos : Z) :
  string_size text < interval.max_pos ->
  0 <= last_pos < 2 ^ 64 -> wrap64 (last_pos + 1) <= string_size text ->
  exists tail,
    (if wrap64 (string_size text - last_pos) >? 1
     then fragment ← basic_trie.create_fragment emit.empty text last_pos;
          Ok (tokens ++ [fragment])
     else Ok tokens) = Ok (tokens ++ tail).
Proof.
  intros Hsize Hlast Hpos. destruct (wrap64 (string_size text - last_pos) >? 1).
  - unfold basic_trie.create_fragment.
    assert (0 <= wrap64 (last_pos + 1)) by (apply Z.mod_pos_bound; lia).
    rewrite substr_inside by lia. simpl. by eexists [_].
  - exists []. by rewrite app_nil_r.
Qed.

(** [tokenise] begins with a scan, so on a trie that has not been compiled
    it returns no tokens. *)
Theorem tokenise_never_returns (tr : basic_trie.t) (text : list CharType) :
  pre_compilation tr -> basic_trie.tokenise tr text = Undefined.
Proof. intros Hpre. apply tokenise_first. by apply pre_compilation_flag. Qed.

Lemma tokenise_never_returns_witness :
  pre_compilation ushers_trie /\ basic_trie.tokenise ushers_trie (str "he his") = Undefined.
Proof.
  split; [apply ushers_trie_pre_compilation|].
  apply (tokenise_never_returns ushers_trie (str "he his")). apply ushers_trie_pre_compilation.
Defined.

(** The loop of [tokenise] over the emits of a scan. When the emits lie
    apart, in order, the tokens cut the text into pieces: the fragments of
    the tokens, put together, give the text back; the match tokens are the
    emits, each with the characters it delimits. *)
Theorem tokenise_emits_cut_the_text (text : list CharType) (emits : list emit.t) :
  string_size text < interval.max_pos ->
  separated_from 0 (string_size text) emits ->
  exists tokens,
    basic_trie.tokenise_emits text emits = Ok tokens /\
    concat (map token.get_fragment tokens) = text /\
    map token.get_emit (filter (fun tk => token.is_match tk = true) tokens) = emits /\
    Forall (fun tk => token.is_match tk = true ->
                      token.get_fragment tk = slice text (token.get_emit tk)) tokens.
Proof.
  intros Hsize Hsep.
  destruct (tokenise_emits_spec text emits Hsize) as (tokens & Htok & Hms & Hfr & Hcat).
  { by apply (separated_within _ _ 0). }
  exists tokens. split_and!; [done|by apply Hcat|done|done].
Qed.

Lemma tokenise_emits_cut_the_text_witness :
  string_size (str "he his") < interval.max_pos /\
  separated_from 0 (string_size (str "he his"))
    [emit.new 0 1 (str "he") 0; emit.new 3 5 (str "his") 3] /\
  exists tokens,
    basic_trie.tokenise_emits (str "he his")
      [emit.new 0 1 (str "he") 0; emit.new 3 5 (str "his") 3] = Ok tokens /\
    concat (map token.get_fragment tokens) = str "he his" /\
    map token.get_emit (filter (fun tk => token.is_match tk = true) tokens)
    = [emit.new 0 1 (str "he") 0; emit.new 3 5 (str "his") 3] /\
    Forall (fun tk => token.is_match tk = true ->
                      token.get_fragment tk = slice (str "he his") (token.get_emit tk)) tokens.
Proof.
  split; [reflexivity|]. split; [vm_compute; intuition discriminate|].
  apply (tokenise_emits_cut_the_text (str "he his")
           [emit.new 0 1 (str "he") 0; emit.new 3 5 (str "his") 3]).
  - reflexivity.
  - vm_compute. intuition discriminate.
Defined.

(** The loop of [tokenise] over no emit: the text comes back as one
    fragment token; the empty text gives no token. *)
Theorem tokenise_emits_without_match (text : list CharType) :
  string_size text < interval.max_pos ->
  basic_trie.tokenise_emits text []
  = Ok (match text with [] => [] | _ => [token.new_fragment text] end).
Proof.
  intros Hsize.
  unfold basic_trie.tokenise_emits. simpl. unfold interval.max_pos in *.
  destruct text as [|c text]; [done|].
  assert (wrap64 (string_size (c :: text) - (2 ^ 64 - 1)) = string_size (c :: text) + 1) as ->.
  { unfold wrap64.
    replace (string_size (c :: text) - (2 ^ 64 - 1))
      with (string_size (c :: text) + 1 + (-1) * 2 ^ 64) by lia.
    rewrite Z_mod_plus_full. rewrite Z.mod_small; unfold string_size in *; lia. }
  assert ((string_size (c :: text) + 1 >? 1) = true) as ->.
  { rewrite Z.gtb_ltb. apply Z.ltb_lt. unfold string_size. simpl length. lia. }
  unfold basic_trie.create_fragment. change (emit.is_empty emit.empty) with true. cbn iota.
  change (wrap64 (2 ^ 64 - 1 + 1)) with 0. rewrite substr_inside by (unfold string_size; lia).
  simpl. do 3 f_equal. rewrite Z.sub_0_r. apply take_ge.
  unfold wrap64. rewrite Z.mod_small by (unfold string_size in *; lia).
  unfold string_size. simpl length. lia.
Qed.

Lemma tokenise_emits_without_match_witness :
  string_size (str "abc") < interval.max_pos /\
  basic_trie.tokenise_emits (str "abc") [] = Ok [token.new_fragment (str "abc")].
Proof.
  split; [reflexivity|]. apply (tokenise_emits_without_match (str "abc")). reflexivity.
Defined.

(** The loop of [tokenise] over emits that overlap repeats text: when an
    emit starts before the end of the emit before it, the fragment token
    put between their match tokens holds all the text after the first of
    the two. *)
Theorem tokenise_emits_overlap_repeats_text (text : list CharType)
  (emits1 emits2 : list emit.t) (e1 e2 : emit.t) :
  string_size text < interval.max_pos ->
  Forall (within (string_size text)) (emits1 ++ e1 :: e2 :: emits2) ->
  emit.get_start e2 < emit.get_end e1 ->
  exists before after,
    basic_trie.tokenise_emits text (emits1 ++ e1 :: e2 :: emits2)
    = Ok (before ++ [token.new_match (slice text e1) e1;
                     token.new_fragment (drop (Z.to_nat (emit.get_end e1 + 1)) text);
                     token.new_match (slice text e2) e2] ++ after).
Proof.
  intros Hsize Hin Hlt. pose proof Hsize as Hsize'. unfold interval.max_pos in Hsize'.
  assert (string_size text < 2 ^ 64) as Hfit by lia.
  apply Forall_app in Hin as [Hin1 Hin]. apply Forall_cons in Hin as [He1 Hin].
  apply Forall_cons in Hin as [He2 Hin2].
  pose proof He1 as (H10 & H1se & H1end). pose proof He2 as (H20 & H2se & H2end).
  unfold basic_trie.tokenise_emits. rewrite fold_left_app.
  destruct (tokenise_loop_spec text emits1 Hfit [] interval.max_pos)
    as (tokens1 & last1 & Hfold1 & Hl1 & Hp1 & _);
    [by unfold interval.max_pos
    |change (wrap64 (interval.max_pos + 1)) with 0; unfold string_size; lia | done |].
  rewrite Hfold1. cbn [fold_left].
  destruct (tokenise_step_spec text e1 ([] ++ tokens1) last1 Hfit He1 Hl1 Hp1)
    as (pre & -> & _ & _).
  destruct (create_fragment_backwards text e2 (emit.get_end e1) Hsize He2 ltac:(lia) Hlt)
    as [Hgap Hfrag].
  unfold basic_trie.tokenise_step at 2. simpl. rewrite Hgap, Hfrag. simpl.
  rewrite (create_match_within text e2 Hfit He2). simpl.
  assert (Hnext : wrap64 (emit.get_end e2 + 1) = emit.get_end e2 + 1).
  { unfold wrap64. rewrite Z.mod_small; lia. }
  destruct (tokenise_loop_spec text emits2 Hfit
              ((((tokens1 ++ pre) ++ [token.new_match (slice text e1) e1]) ++
                [token.new_fragment (drop (Z.to_nat (emit.get_end e1 + 1)) text)]) ++
               [token.new_match (slice text e2) e2]) (emit.get_end e2))
    as (tokens2 & last2 & Hfold2 & Hl2 & Hp2 & _); [lia | lia | done |].
  rewrite Hfold2. simpl.
  destruct (tokenise_tail_spec text
              (((((tokens1 ++ pre) ++ [token.new_match (slice text e1) e1]) ++
                 [token.new_fragment (drop (Z.to_nat (emit.get_end e1 + 1)) text)]) ++
                [token.new_match (slice text e2) e2]) ++ tokens2) last2 Hsize Hl2 Hp2)
    as [tail ->].
  exists (tokens1 ++ pre), (tokens2 ++ tail). f_equal.
  rewrite <- !app_assoc. done.
Qed.

Lemma tokenise_emits_overlap_repeats_text_witness :
  string_size (str "ushers") < interval.max_pos /\
  Forall (within (string_size (str "ushers")))
    ([] ++ emit.new 1 3 (str "she") 1 :: emit.new 2 3 (str "he") 0
        :: [emit.new 2 5 (str "hers") 2]) /\
  emit.get_start (emit.new 2 3 (str "he") 0) < emit.get_end (emit.new 1 3 (str "she") 1) /\
  exists before after,
    basic_trie.tokenise_emits (str "ushers")
      ([] ++ emit.new 1 3 (str "she") 1 :: emit.new 2 3 (str "he") 0
          :: [emit.new 2 5 (str "hers") 2])
    = Ok (before ++ [token.new_match (slice (str "ushers") (emit.new 1 3 (str "she") 1))
                       (emit.new 1 3 (str "she") 1);
                     token.new_fragment
                       (drop (Z.to_nat (emit.get_end (emit.new 1 3 (str "she") 1) + 1))
                          (str "ushers"));
                     token.new_match (slice (str "ushers") (emit.new 2 3 (str "he") 0))
                       (emit.new 2 3 (str "he") 0)] ++ after).
Proof.
  split; [reflexivity|].
  split; [repeat constructor; vm_compute; discriminate|]. split; [reflexivity|].
  apply (tokenise_emits_overlap_repeats_text (str "ushers")
           [] [emit.new 2 5 (str "hers") 2] (emit.new 1 3 (str "she") 1)
           (emit.new 2 3 (str "he") 0)).
  - reflexivity.
  - repeat constructor; vm_compute; discriminate.
  - reflexivity.
Defined.

(** ** [interval_tree]: construction and [find_overlaps] *)

Section interval_tree_facts.
Context {T : Type} `{IsInterval T}.

Lemma add_to_overlaps_filter (i : T) (overlaps new_overlaps : list T) :
  interval_tree.add_to_overlaps i overlaps new_overlaps
  = overlaps ++ filter (fun cur => interval_tree.neq cur i = true) new_overlaps.
Proof.
  unfold interval_tree.add_to_overlaps. revert overlaps.
  induction new_overlaps as [|cur l IH]; intros overlaps; simpl.
  - by rewrite app_nil_r.
  - rewrite IH. destruct (interval_tree.neq cur i) eqn:Hneq.
    + rewrite filter_cons_True by done. by rewrite <- app_assoc.
    + rewrite filter_cons_False by congruence. done.
Qed.

Lemma check_overlaps_filter (d_intervals : list T) (i : T) (d : interval_tree.direction) :
  interval_tree.check_overlaps d_intervals i d
  = filter (fun cur => (match d with
                        | interval_tree.LEFT =>
                            interval_tree.get_start cur <=? interval_tree.get_end i
                        | interval_tree.RIGHT =>
                            interval_tree.get_end cur >=? interval_tree.get_start i
                        end) = true) d_intervals.
Proof.
  unfold interval_tree.check_overlaps.
  assert (Hgen : forall acc,
    fold_left (fun overlaps cur =>
      match d with
      | interval_tree.LEFT =>
          if interval_tree.get_start cur <=? interval_tree.get_end i
          then overlaps ++ [cur] else overlaps
      | interval_tree.RIGHT =>
          if interval_tree.get_end cur >=? interval_tree.get_start i
          then overlaps ++ [cur] else overlaps
      end) d_intervals acc
    = acc ++ filter (fun cur => (match d with
                        | interval_tree.LEFT =>
                            interval_tree.get_start cur <=? interval_tree.get_end i
                        | interval_tree.RIGHT =>
                            interval_tree.get_end cur >=? interval_tree.get_start i
                        end) = true) d_intervals).
  { induction d_intervals as [|cur l IH]; intros acc; simpl; [by rewrite app_nil_r|].
    rewrite IH. destruct d.
    - destruct (interval_tree.get_start cur <=? interval_tree.get_end i) eqn:Hc.
      + rewrite filter_cons_True by done. by rewrite <- app_assoc.
      + rewrite filter_cons_False by congruence. done.
    - destruct (interval_tree.get_end cur >=? interval_tree.get_start i) eqn:Hc.
      + rewrite filter_cons_True by done. by rewrite <- app_assoc.
      + rewrite filter_cons_False by congruence. done. }
  apply (Hgen []).
Qed.

(** The loop of the constructor sorts the intervals into those that end
    before the point, those that start after it and those that hold it. *)
Lemma distribute_spec (d_point : Z) (intervals : list T) :
  forall to_left to_right here,
  interval_tree.distribute d_point intervals = (to_left, to_right, here) ->
  Forall (fun x => interval_tree.get_end x < d_point) to_left /\
  Forall (fun x => d_point < interval_tree.get_start x) to_right /\
  Forall (fun x => interval_tree.get_start x <= d_point <= interval_tree.get_end x) here /\
  (forall x, x ∈ to_left -> x ∈ intervals) /\
  (forall x, x ∈ to_right -> x ∈ intervals) /\
  (forall x, x ∈ here -> x ∈ intervals) /\
  (length to_left <= length intervals)%nat /\ (length to_right <= length intervals)%nat /\
  ((exists x, x ∈ intervals /\ d_point <= interval_tree.get_end x) ->
   (length to_left < length intervals)%nat) /\
  ((exists x, x ∈ intervals /\ interval_tree.get_start x <= d_point) ->
   (length to_right < length intervals)%nat) /\
  forall (P : T -> Prop) `{!forall x, Decision (P x)},
    filter P intervals ≡ₚ filter P to_left ++ filter P to_right ++ filter P here.
Proof.
  induction intervals as [|i rest IH]; intros to_left to_right here Hd.
  - injection Hd as <- <- <-. split_and!; try done; try by intros (x & Hx & _); apply elem_of_nil in Hx.
  - simpl in Hd. destruct (interval_tree.distribute d_point rest) as [[L R] Hh] eqn:Hrest.
    destruct (IH L R Hh eq_refl) as (HL & HR & HH & HinL & HinR & HinH & HlenL & HlenR & HltL & HltR & Hfilter).
    destruct (interval_tree.get_end i <? d_point) eqn:Hleft.
    + injection Hd as <- <- <-. apply Z.ltb_lt in Hleft.
      split_and!; try done.
      * by constructor.
      * intros x Hx. apply elem_of_cons in Hx as [->|Hx]; [left | right; eauto].
      * intros x Hx. right. eauto.
      * intros x Hx. right. eauto.
      * simpl. lia.
      * simpl. lia.
      * intros (x & Hx & Hge). simpl. apply elem_of_cons in Hx as [->|Hx]; [lia|].
        assert (length L < length rest)%nat by eauto. lia.
      * intros _. simpl. lia.
      * intros P HP. destruct (decide (P i)).
        -- rewrite !filter_cons_True by done. simpl. by rewrite Hfilter.
        -- rewrite !filter_cons_False by done. apply Hfilter.
    + apply Z.ltb_ge in Hleft. destruct (interval_tree.get_start i >? d_point) eqn:Hright.
      * injection Hd as <- <- <-. rewrite Z.gtb_ltb in Hright. apply Z.ltb_lt in Hright.
        split_and!; try done.
        -- by constructor.
        -- intros x Hx. right. eauto.
        -- intros x Hx. apply elem_of_cons in Hx as [->|Hx]; [left | right; eauto].
        -- intros x Hx. right. eauto.
        -- simpl. lia.
        -- simpl. lia.
        -- intros _. simpl. lia.
        -- intros (x & Hx & Hge). simpl. apply elem_of_cons in Hx as [->|Hx]; [lia|].
           assert (length R < length rest)%nat by eauto. lia.
        -- intros P HP. destruct (decide (P i)).
           ++ rewrite !filter_cons_True by done. rewrite Hfilter. simpl.
              apply Permutation_middle.
           ++ rewrite !filter_cons_False by done. apply Hfilter.
      * injection Hd as <- <- <-. rewrite Z.gtb_ltb in Hright. apply Z.ltb_ge in Hright.
        split_and!; try done.
        -- by constructor.
        -- intros x Hx. right. eauto.
        -- intros x Hx. right. eauto.
        -- intros x Hx. apply elem_of_cons in Hx as [->|Hx]; [left | right; eauto].
        -- simpl. lia.
        -- simpl. lia.
        -- intros _. simpl. lia.
        -- intros _. simpl. lia.
        -- intros P HP. destruct (decide (P i)).
           ++ rewrite !filter_cons_True by done. rewrite Hfilter.
              rewrite !app_assoc. apply Permutation_middle.
           ++ rewrite !filter_cons_False by done. apply Hfilter.
Qed.

Lemma median_fold (l : list T) :
  forall start0 end0 : Z,
  Forall well_formed l -> 0 <= start0 < 2 ^ 63 -> end0 < 2 ^ 63 ->
  exists start end_,
    fold_left (fun '(start, end_) i =>
      let cur_start := interval_tree.get_start i in
      let cur_end := interval_tree.get_end i in
      let start := if (start =? interval.max_pos) || (cur_start <? start) then cur_start else start in
      let end_ := if (end_ =? interval.max_pos) || (cur_end >? end_) then cur_end else end_ in
      (start, end_)) l (start0, end0) = (start, end_) /\
    0 <= start <= start0 /\ end0 <= end_ < 2 ^ 63 /\
    (start = start0 \/ exists x, x ∈ l /\ interval_tree.get_start x = start) /\
    (end_ = end0 \/ exists x, x ∈ l /\ interval_tree.get_end x = end_).
Proof.
  induction l as [|i l IH]; intros start0 end0 Hwf Hs He.
  - exists start0, end0. simpl. split_and!; try done; try lia; by left.
  - apply Forall_cons in Hwf as [(Hi0 & Hise & Hie) Hwf]. cbn [fold_left].
    assert ((start0 =? interval.max_pos) = false) as ->.
    { apply Z.eqb_neq. unfold interval.max_pos. lia. }
    assert ((end0 =? interval.max_pos) = false) as ->.
    { apply Z.eqb_neq. unfold interval.max_pos. lia. }
    simpl orb.
    set (s1 := if interval_tree.get_start i <? start0 then interval_tree.get_start i else start0).
    set (e1 := if interval_tree.get_end i >? end0 then interval_tree.get_end i else end0).
    assert (0 <= s1 <= start0 /\ (s1 = start0 \/ s1 = interval_tree.get_start i)) as (Hs1 & Hsor1).
    { unfold s1. destruct (interval_tree.get_start i <? start0) eqn:Hl.
      - apply Z.ltb_lt in Hl. split; [lia | by right].
      - split; [lia | by left]. }
    assert (end0 <= e1 < 2 ^ 63 /\ (e1 = end0 \/ e1 = interval_tree.get_end i)) as (He1 & Heor1).
    { unfold e1. destruct (interval_tree.get_end i >? end0) eqn:Hg.
      - rewrite Z.gtb_ltb in Hg. apply Z.ltb_lt in Hg. split; [lia | by right].
      - split; [lia | by left]. }
    destruct (IH s1 e1 Hwf ltac:(lia) ltac:(lia)) as (s & e & Hfold & Hsb & Heb & Hsor & Heor).
    exists s, e. split; [done|]. split; [lia|]. split; [lia|]. split.
    + destruct Hsor as [->|(x & Hx & Hxs)].
      * destruct Hsor1 as [->| ->]; [by left|]. right. exists i. split; [left | done].
      * right. exists x. split; [by right | done].
    + destruct Heor as [->|(x & Hx & Hxe)].
      * destruct Heor1 as [->| ->]; [by left|]. right. exists i. split; [left | done].
      * right. exists x. split; [by right | done].
Qed.

(** The point of a node lies between the least start and the greatest end
    of its intervals. *)
Lemma determine_median_between (l : list T) :
  l <> [] -> Forall well_formed l ->
  (exists x, x ∈ l /\ interval_tree.get_start x <= interval_tree.determine_median l) /\
  (exists x, x ∈ l /\ interval_tree.determine_median l <= interval_tree.get_end x).
Proof.
  intros Hne Hwf. destruct l as [|i l]; [done|].
  pose proof Hwf as Hwf'. apply Forall_cons in Hwf as [(Hi0 & Hise & Hie) Hwf].
  assert (0 <= interval_tree.get_start i < 2 ^ 63) as Hs0 by lia.
  destruct (median_fold l (interval_tree.get_start i) (interval_tree.get_end i) Hwf Hs0 Hie)
    as (s & e & Hfold & Hsb & Heb & Hsor & Heor).
  assert (interval_tree.determine_median (i :: l) = wrap64 (s + e) / 2) as ->.
  { unfold interval_tree.determine_median. cbn [fold_left].
    match goal with
    | |- context [fold_left ?g l ?init] => assert (fold_left g l init = (s, e)) as ->; [|done]
    end.
    rewrite <- Hfold. f_equal; simpl; by rewrite Z.eqb_refl. }
  assert (wrap64 (s + e) / 2 = (s + e) / 2) as ->.
  { unfold wrap64. rewrite Z.mod_small; lia. }
  assert (s <= (s + e) / 2 <= e) as Hm.
  { split; [apply Z.div_le_lower_bound | apply Z.div_le_upper_bound]; lia. }
  split.
  - destruct Hsor as [->|(x & Hx & Hxs)].
    + exists i. split; [left | lia].
    + exists x. split; [by right | lia].
  - destruct Heor as [->|(x & Hx & Hxe)].
    + exists i. split; [left | lia].
    + exists x. split; [by right | lia].
Qed.

(** The constructor returns for well-formed intervals, and [find_overlaps]
    on the node gives the intervals stored under it that overlap the
    argument. *)
Lemma new_node_spec (fuel : nat) :
  forall l : list T,
  (length l < fuel)%nat -> Forall well_formed l ->
  exists n, interval_tree.new_node fuel l = Ok n /\
    forall i, interval_tree.get_start i <= interval_tree.get_end i ->
      interval_tree.node_find_overlaps n i ≡ₚ filter (fun x => overlaps_other i x = true) l.
Proof.
  induction fuel as [|fuel IH]; intros l Hlen Hwf; [lia|].
  cbn [interval_tree.new_node].
  set (m := interval_tree.determine_median l).
  destruct (interval_tree.distribute m l) as [[L R] here] eqn:Hd.
  destruct (distribute_spec m l L R here Hd)
    as (HL & HR & HH & HinL & HinR & HinH & HlenL & HlenR & HltL & HltR & Hfilter).
  assert (Hchild : forall C, (forall x, x ∈ C -> x ∈ l) -> (C <> [] -> (length C < length l)%nat) ->
            exists c,
              (if (0 <? length C)%nat
               then child ← interval_tree.new_node fuel C; Ok (Some child) else Ok None) = Ok c /\
              forall i, interval_tree.get_start i <= interval_tree.get_end i ->
                match c with
                | Some c => interval_tree.node_find_overlaps c i
                | None => []
                end ≡ₚ filter (fun x => overlaps_other i x = true) C).
  { intros C Hin Hlt. destruct C as [|x C].
    - exists None. done.
    - destruct (IH (x :: C)) as (c & Hc & Hfind).
      + specialize (Hlt ltac:(done)). lia.
      + apply Forall_forall. intros y Hy. rewrite Forall_forall in Hwf. by apply Hwf, Hin.
      + exists (Some c). cbn [length Nat.ltb Nat.leb]. rewrite Hc. done. }
  assert (l <> [] -> (exists x, x ∈ l /\ interval_tree.get_start x <= m) /\
                      (exists x, x ∈ l /\ m <= interval_tree.get_end x)) as Hmed.
  { intros Hne. by apply determine_median_between. }
  destruct (Hchild L HinL) as (cl & -> & Hfl).
  { intros HLne. apply HltL. apply Hmed. intros ->. destruct L as [|y L']; [done|].
    specialize (HinL y ltac:(left)). by apply elem_of_nil in HinL. }
  destruct (Hchild R HinR) as (cr & -> & Hfr).
  { intros HRne. apply HltR. apply Hmed. intros ->. destruct R as [|y R']; [done|].
    specialize (HinR y ltac:(left)). by apply elem_of_nil in HinR. }
  eexists. split; [done|]. intros i Hi.
  specialize (Hfl i Hi). specialize (Hfr i Hi).
  rewrite (Hfilter (fun x => overlaps_other i x = true) _).
  cbn [interval_tree.node_find_overlaps].
  assert (Hidem : forall C found, found ≡ₚ filter (fun x => overlaps_other i x = true) C ->
            filter (fun cur => interval_tree.neq cur i = true) found
            ≡ₚ filter (fun x => overlaps_other i x = true) C).
  { intros C found ->. rewrite list_filter_filter. apply reflexive_eq. apply list_filter_iff.
    intros x. unfold overlaps_other. rewrite andb_true_iff. tauto. }
  assert (Hnone : forall C, Forall (fun x => overlaps_other i x = false) C ->
            filter (fun x => overlaps_other i x = true) C = []).
  { intros C HC. induction HC as [|x C Hx _ IHC]; [done|].
    rewrite filter_cons_False by congruence. done. }
  destruct (m <? interval_tree.get_start i) eqn:Hlt.
  - apply Z.ltb_lt in Hlt. unfold interval_tree.check_right_overlaps, interval_tree.check_left_overlaps.
      rewrite !add_to_overlaps_filter, check_overlaps_filter. simpl.
    rewrite (Hnone L).
    2: { eapply Forall_impl; [exact HL|]. simpl. intros x Hx. unfold overlaps_other.
         apply andb_false_intro1. unfold interval.overlaps_with.
         apply andb_false_intro2. unfold interval_tree.get_end, interval_tree.get_start,
           interval.get_end, interval.get_start in *. lia. }
    simpl. rewrite (Hidem R _ Hfr). apply Permutation_app_head.
    rewrite list_filter_filter. apply reflexive_eq.
    clear -HH Hlt Hi. induction HH as [|x C Hx _ IHC]; [done|].
    rewrite !filter_cons. rewrite IHC.
    assert (overlaps_other i x = true <->
            interval_tree.neq x i = true /\
            (interval_tree.get_end x >=? interval_tree.get_start i) = true) as Hiff.
    { unfold overlaps_other, interval.overlaps_with. rewrite !andb_true_iff.
      unfold interval_tree.get_end, interval_tree.get_start, interval.get_end,
        interval.get_start in *. rewrite ?Z.geb_leb, !Z.leb_le. intuition lia. }
    repeat case_decide; try done; tauto.
  - apply Z.ltb_ge in Hlt. destruct (m >? interval_tree.get_end i) eqn:Hgt.
    + rewrite Z.gtb_ltb in Hgt. apply Z.ltb_lt in Hgt.
      unfold interval_tree.check_right_overlaps, interval_tree.check_left_overlaps.
      rewrite !add_to_overlaps_filter, check_overlaps_filter. simpl.
      rewrite (Hnone R).
      2: { eapply Forall_impl; [exact HR|]. simpl. intros x Hx. unfold overlaps_other.
           apply andb_false_intro1. unfold interval.overlaps_with.
           apply andb_false_intro1. unfold interval_tree.get_end, interval_tree.get_start,
             interval.get_end, interval.get_start in *. lia. }
      simpl. rewrite (Hidem L _ Hfl). apply Permutation_app_head.
      rewrite list_filter_filter. apply reflexive_eq.
      clear -HH Hgt Hi. induction HH as [|x C Hx _ IHC]; [done|].
      rewrite !filter_cons. rewrite IHC.
      assert (overlaps_other i x = true <->
              interval_tree.neq x i = true /\
              (interval_tree.get_start x <=? interval_tree.get_end i) = true) as Hiff.
      { unfold overlaps_other, interval.overlaps_with. rewrite !andb_true_iff.
        unfold interval_tree.get_end, interval_tree.get_start, interval.get_end,
          interval.get_start in *. rewrite ?Z.geb_leb, !Z.leb_le. intuition lia. }
      repeat case_decide; try done; tauto.
    + rewrite Z.gtb_ltb in Hgt. apply Z.ltb_ge in Hgt.
      rewrite !add_to_overlaps_filter. simpl.
      rewrite (Hidem L _ Hfl), (Hidem R _ Hfr).
      assert (filter (fun cur => interval_tree.neq cur i = true) here
              = filter (fun x => overlaps_other i x = true) here) as ->.
      { clear -HH Hlt Hgt Hi. induction HH as [|x C Hx _ IHC]; [done|].
        rewrite !filter_cons. rewrite IHC.
        assert (overlaps_other i x = true <-> interval_tree.neq x i = true) as Hiff.
        { unfold overlaps_other, interval.overlaps_with. rewrite !andb_true_iff.
          unfold interval_tree.get_end, interval_tree.get_start, interval.get_end,
            interval.get_start in *. rewrite ?Z.geb_leb, !Z.leb_le. intuition lia. }
        repeat case_decide; try done; tauto. }
      rewrite <- app_assoc. etrans; [apply Permutation_app_comm|]. by rewrite <- app_assoc.
Qed.

(** For well-formed intervals the tree is built, and [find_overlaps] returns
    exactly the intervals of the tree that overlap its argument and have
    other bounds, each as often as it was given. *)
Theorem find_overlaps_finds_the_overlaps (intervals : list T) (i : T) :
  Forall well_formed intervals -> interval_tree.get_start i <= interval_tree.get_end i ->
  exists tree,
    interval_tree.new intervals = Ok tree /\
    interval_tree.find_overlaps tree i ≡ₚ filter (fun x => overlaps_other i x = true) intervals.
Proof.
  intros Hwf Hi. destruct (new_node_spec (S (length intervals)) intervals ltac:(lia) Hwf)
    as (tree & Hnew & Hfind).
  exists tree. split; [done|]. by apply Hfind.
Qed.

(** The constructor does not check its intervals: on one interval whose end
    lies before its start, or whose start and end add up to [2^64] or more,
    the point computed lies before the interval, the interval is handed to a
    child node as it is, and the recursion never ends. *)
Theorem new_node_never_returns (i : T) :
  0 <= interval_tree.get_start i < 2 ^ 64 -> 0 <= interval_tree.get_end i < 2 ^ 64 ->
  interval_tree.get_end i < interval_tree.get_start i \/
  2 ^ 64 <= interval_tree.get_start i + interval_tree.get_end i ->
  forall fuel, interval_tree.new_node fuel [i] = OutOfFuel.
Proof.
  intros Hs He Hbad.
  assert (interval_tree.determine_median [i] < interval_tree.get_start i) as Hm.
  { unfold interval_tree.determine_median. cbn [fold_left]. rewrite Z.eqb_refl.
    cbn [orb]. unfold wrap64.
    destruct (decide (interval_tree.get_start i + interval_tree.get_end i < 2 ^ 64)) as [Hsmall|Hbig].
    - rewrite Z.mod_small by lia. apply Z.div_lt_upper_bound; lia.
    - replace (interval_tree.get_start i + interval_tree.get_end i)
        with (interval_tree.get_start i + interval_tree.get_end i - 2 ^ 64 + 1 * 2 ^ 64) by lia.
      rewrite Z_mod_plus_full, Z.mod_small by lia. apply Z.div_lt_upper_bound; lia. }
  induction fuel as [|fuel IH]; [done|].
  cbn [interval_tree.new_node interval_tree.distribute].
  destruct (interval_tree.get_end i <? interval_tree.determine_median [i]).
  - simpl. by rewrite IH.
  - assert ((interval_tree.get_start i >? interval_tree.determine_median [i]) = true) as ->.
    { rewrite Z.gtb_ltb. by apply Z.ltb_lt. }
    simpl. by rewrite IH.
Qed.

End interval_tree_facts.

Lemma find_overlaps_finds_the_overlaps_witness :
  Forall well_formed nested_intervals /\
  interval_tree.get_start (interval.mk 2 3) <= interval_tree.get_end (interval.mk 2 3) /\
  exists tree,
    interval_tree.new nested_intervals = Ok tree /\
    interval_tree.find_overlaps tree (interval.mk 2 3)
    ≡ₚ filter (fun x => overlaps_other (interval.mk 2 3) x = true) nested_intervals.
Proof.
  assert (Forall well_formed nested_intervals) as Hwf.
  { repeat constructor; vm_compute; discriminate. }
  split; [exact Hwf|]. split; [vm_compute; discriminate|].
  apply (find_overlaps_finds_the_overlaps nested_intervals (interval.mk 2 3) Hwf).
  vm_compute. discriminate.
Defined.

Lemma new_node_never_returns_witness :
  0 <= interval_tree.get_start (interval.mk 5 2) < 2 ^ 64 /\
  0 <= interval_tree.get_end (interval.mk 5 2) < 2 ^ 64 /\
  (interval_tree.get_end (interval.mk 5 2) < interval_tree.get_start (interval.mk 5 2) \/
   2 ^ 64 <= interval_tree.get_start (interval.mk 5 2) + interval_tree.get_end (interval.mk 5 2)) /\
  forall fuel, interval_tree.new_node fuel [interval.mk 5 2] = OutOfFuel.
Proof.
  assert (0 <= interval_tree.get_start (interval.mk 5 2) < 2 ^ 64) as Hs by (vm_compute; done).
  assert (0 <= interval_tree.get_end (interval.mk 5 2) < 2 ^ 64) as He by (vm_compute; done).
  assert (interval_tree.get_end (interval.mk 5 2) < interval_tree.get_start (interval.mk 5 2) \/
          2 ^ 64 <= interval_tree.get_start (interval.mk 5 2)
                    + interval_tree.get_end (interval.mk 5 2)) as Hbad by (left; reflexivity).
  split; [exact Hs|]. split; [exact He|]. split; [exact Hbad|].
  apply (new_node_never_returns (interval.mk 5 2) Hs He Hbad).
Defined.

(** ** [interval_tree::remove_overlaps] *)

Section sorting_facts.
Context {A : Type}.

Lemma sort_insert_perm (comp : A -> A -> bool) (x : A) (l : list A) :
  sort_insert comp x l ≡ₚ x :: l.
Proof.
  induction l as [|y l IH]; simpl; [done|].
  destruct (comp y x); [by rewrite IH, Permutation_swap|].
  destruct (comp x y); [done|]. by rewrite IH, Permutation_swap.
Qed.

Lemma std_sort_perm (comp : A -> A -> bool) (l : list A) : std_sort comp l ≡ₚ l.
Proof.
  unfold std_sort.
  assert (Hgen : forall acc, fold_left (fun acc x => sort_insert comp x acc) l acc ≡ₚ acc ++ l).
  { induction l as [|x l IH]; intros acc; simpl; [by rewrite app_nil_r|].
    rewrite IH, sort_insert_perm. by rewrite <- Permutation_middle. }
  apply (Hgen []).
Qed.

(** [std::sort] orders by [comp]: no element is followed by one that [comp]
    puts before it. [comp] is to be a strict weak ordering on the elements
    sorted, those that satisfy [P]. *)
Lemma sort_insert_sorted (comp : A -> A -> bool) (P : A -> Prop) (x : A) (l : list A) :
  (forall a b, P a -> P b -> comp a b = true -> comp b a = false) ->
  (forall a b c, P a -> P b -> P c -> comp b a = false -> comp c b = false -> comp c a = false) ->
  P x -> Forall P l ->
  StronglySorted (fun a b => comp b a = false) l ->
  StronglySorted (fun a b => comp b a = false) (sort_insert comp x l).
Proof.
  intros Hasym Htrans Hx HP Hs. induction Hs as [|y l Hl IH Hy]; simpl; [repeat constructor|].
  apply Forall_cons in HP as [Py HP]. specialize (IH HP).
  destruct (comp y x) eqn:Hyx.
  - constructor; [done|]. rewrite sort_insert_perm. constructor; [by apply Hasym | done].
  - destruct (comp x y) eqn:Hxy.
    + constructor; [by constructor|]. constructor; [done|].
      rewrite Forall_forall in *. intros z Hz. apply (Htrans x y z); eauto.
    + constructor; [done|]. rewrite sort_insert_perm. constructor; [done | done].
Qed.

Lemma std_sort_sorted (comp : A -> A -> bool) (P : A -> Prop) (l : list A) :
  (forall a b, P a -> P b -> comp a b = true -> comp b a = false) ->
  (forall a b c, P a -> P b -> P c -> comp b a = false -> comp c b = false -> comp c a = false) ->
  Forall P l ->
  StronglySorted (fun a b => comp b a = false) (std_sort comp l).
Proof.
  intros Hasym Htrans. unfold std_sort.
  assert (Hgen : forall acc, Forall P acc -> Forall P l ->
            StronglySorted (fun a b => comp b a = false) acc ->
            StronglySorted (fun a b => comp b a = false)
              (fold_left (fun acc x => sort_insert comp x acc) l acc)).
  { induction l as [|x l IH]; intros acc Pacc Pl Hacc; simpl; [done|].
    apply Forall_cons in Pl as [Px Pl]. apply IH; [|done|].
    - rewrite sort_insert_perm. by constructor.
    - by apply (sort_insert_sorted comp P). }
  intros Pl. apply Hgen; [done | done | constructor].
Qed.

Lemma StronglySorted_weaken (R R' : A -> A -> Prop) (l : list A) :
  (forall a b, R a b -> R' a b) -> StronglySorted R l -> StronglySorted R' l.
Proof.
  intros Himp Hs. induction Hs as [|y l Hl IH Hy]; constructor; [done|].
  eapply Forall_impl; [done|]. intros z. apply Himp.
Qed.

(** [erase(find(x))] removes the first element equal to [x]. *)
Lemma erase_find_spec (eqb : A -> A -> bool) (x : A) (v : list A) :
  (exists z, z ∈ v /\ eqb z x = true) ->
  exists z v', erase_find eqb x v = Ok v' /\ eqb z x = true /\ v ≡ₚ z :: v' /\
               v' `sublist_of` v.
Proof.
  induction v as [|y v IH]; intros (z & Hz & Heq); [by apply elem_of_nil in Hz|].
  simpl. destruct (eqb y x) eqn:Hy.
  - exists y, v. split_and!; [done..|]. by apply sublist_cons.
  - apply elem_of_cons in Hz as [->|Hz]; [congruence|].
    destruct IH as (z' & v' & -> & Hz' & Hperm & Hsub); [eauto|].
    exists z', (y :: v'). simpl. split_and!; [done | done | | by apply sublist_skip].
    by rewrite Hperm, Permutation_swap.
Qed.

End sorting_facts.

Section remove_overlaps_facts.
Context {T : Type} `{IsInterval T}.

Lemma lt_start (a b : T) :
  interval_tree.lt a b = (interval_tree.get_start a <? interval_tree.get_start b).
Proof. done. Qed.

Lemma set_contains_iff (x : T) (s : list T) :
  interval_tree.set_contains x s = true <->
  exists y, y ∈ s /\ interval_tree.get_start y = interval_tree.get_start x.
Proof.
  unfold interval_tree.set_contains. rewrite existsb_exists. split.
  - intros (y & Hy & Hc). exists y. split; [by apply list_elem_of_In|].
    rewrite !lt_start in Hc. apply andb_true_iff in Hc as [H1 H2].
    apply negb_true_iff, Z.ltb_ge in H1. apply negb_true_iff, Z.ltb_ge in H2. lia.
  - intros (y & Hy & Hc). exists y. split; [by apply list_elem_of_In|].
    rewrite !lt_start. apply andb_true_iff. split; apply negb_true_iff, Z.ltb_ge; lia.
Qed.

Lemma set_insert_spec (x : T) (s : list T) :
  starts_apart s ->
  starts_apart (interval_tree.set_insert x s) /\
  (forall y, y ∈ interval_tree.set_insert x s -> y = x \/ y ∈ s) /\
  (forall y, y ∈ s -> y ∈ interval_tree.set_insert x s) /\
  interval_tree.set_contains x (interval_tree.set_insert x s) = true.
Proof.
  unfold starts_apart.
  intros Hs. induction Hs as [|y s Hs IH Hy]; cbn [interval_tree.set_insert].
  - split; [repeat constructor|]. split; [|split; [by intros y Hy; apply elem_of_nil in Hy|]].
    + intros y Hy. apply list_elem_of_singleton in Hy. by left.
    + apply set_contains_iff. exists x. split; [left | done].
  - destruct IH as (IH1 & IH2 & IH3 & IH4). rewrite !lt_start.
    destruct (interval_tree.get_start x <? interval_tree.get_start y) eqn:Hxy.
    + apply Z.ltb_lt in Hxy. split_and!.
      * constructor; [by constructor|]. constructor; [done|].
        eapply Forall_impl; [done|]. simpl. intros z Hz. lia.
      * intros z Hz. apply elem_of_cons in Hz as [->|Hz]; [by left | by right].
      * intros z Hz. by right.
      * apply set_contains_iff. exists x. split; [left | done].
    + apply Z.ltb_ge in Hxy.
      destruct (interval_tree.get_start y <? interval_tree.get_start x) eqn:Hyx.
      * apply Z.ltb_lt in Hyx. split_and!.
        -- constructor; [done|]. apply Forall_forall. intros z Hz.
           apply IH2 in Hz as [->|Hz]; [done|]. rewrite Forall_forall in Hy. by apply Hy.
        -- intros z Hz. apply elem_of_cons in Hz as [->|Hz]; [right; left|].
           apply IH2 in Hz as [->|Hz]; [by left | by right; right].
        -- intros z Hz. apply elem_of_cons in Hz as [->|Hz]; [left | right; by apply IH3].
        -- apply set_contains_iff. apply set_contains_iff in IH4 as (z & Hz & Hzx).
           exists z. split; [by right | done].
      * apply Z.ltb_ge in Hyx. split_and!.
        -- by constructor.
        -- intros z Hz. by right.
        -- done.
        -- apply set_contains_iff. exists y. split; [left | lia].
Qed.

Lemma set_insert_all_spec (ovs : list T) :
  forall s : list T,
  starts_apart s ->
  starts_apart (fold_left (fun remove_tmp overlap => interval_tree.set_insert overlap remove_tmp)
                  ovs s) /\
  (forall y, y ∈ fold_left (fun remove_tmp overlap => interval_tree.set_insert overlap remove_tmp)
                   ovs s -> y ∈ s \/ y ∈ ovs) /\
  (forall x, interval_tree.set_contains x s = true ->
             interval_tree.set_contains x
               (fold_left (fun remove_tmp overlap => interval_tree.set_insert overlap remove_tmp)
                  ovs s) = true) /\
  (forall o, o ∈ ovs ->
             interval_tree.set_contains o
               (fold_left (fun remove_tmp overlap => interval_tree.set_insert overlap remove_tmp)
                  ovs s) = true).
Proof.
  induction ovs as [|o ovs IH]; intros s Hs; simpl.
  - split_and!; [done | by left | done |]. intros o Ho. by apply elem_of_nil in Ho.
  - destruct (set_insert_spec o s Hs) as (H1 & H2 & H3 & H4).
    destruct (IH _ H1) as (I1 & I2 & I3 & I4). split_and!; [done | | |].
    + intros y Hy. apply I2 in Hy as [Hy|Hy]; [|by right; right].
      apply H2 in Hy as [->|Hy]; [right; left | by left].
    + intros x Hx. apply I3. apply set_contains_iff in Hx as (y & Hy & Hyx).
      apply set_contains_iff. exists y. split; [by apply H3 | done].
    + intros o' Ho'. apply elem_of_cons in Ho' as [->|Ho']; [by apply I3 | by apply I4].
Qed.

Lemma mark_overlaps_snoc (d_root : interval_tree.node T) (P : list T) (i : T) :
  interval_tree.mark_overlaps d_root (P ++ [i])
  = if interval_tree.set_contains i (interval_tree.mark_overlaps d_root P)
    then interval_tree.mark_overlaps d_root P
    else fold_left (fun remove_tmp overlap => interval_tree.set_insert overlap remove_tmp)
           (interval_tree.find_overlaps d_root i) (interval_tree.mark_overlaps d_root P).
Proof. unfold interval_tree.mark_overlaps. by rewrite fold_left_app. Qed.

Lemma mark_overlaps_apart (d_root : interval_tree.node T) (P : list T) :
  starts_apart (interval_tree.mark_overlaps d_root P).
Proof.
  induction P as [|i P IH] using rev_ind; [constructor|].
  rewrite mark_overlaps_snoc. destruct (interval_tree.set_contains i _); [done|].
  by apply (set_insert_all_spec (interval_tree.find_overlaps d_root i)).
Qed.

(** Once an interval counts as marked it stays so. *)
Lemma mark_overlaps_mono (d_root : interval_tree.node T) (P1 P2 : list T) (x : T) :
  interval_tree.set_contains x (interval_tree.mark_overlaps d_root P1) = true ->
  interval_tree.set_contains x (interval_tree.mark_overlaps d_root (P1 ++ P2)) = true.
Proof.
  intros Hx. induction P2 as [|i P2 IH] using rev_ind; [by rewrite app_nil_r|].
  rewrite app_assoc, mark_overlaps_snoc. destruct (interval_tree.set_contains i _); [done|].
  destruct (set_insert_all_spec (interval_tree.find_overlaps d_root i) _
              (mark_overlaps_apart d_root (P1 ++ P2))) as (_ & _ & Hmono & _).
  by apply Hmono.
Qed.

(** A marked interval was found as an overlap of an interval that was not
    marked when its turn came. *)
Lemma mark_overlaps_origin (d_root : interval_tree.node T) (P : list T) (y : T) :
  y ∈ interval_tree.mark_overlaps d_root P ->
  exists P1 i P2, P = P1 ++ i :: P2 /\
    interval_tree.set_contains i (interval_tree.mark_overlaps d_root P1) = false /\
    y ∈ interval_tree.find_overlaps d_root i.
Proof.
  induction P as [|i P IH] using rev_ind; [by intros Hy; apply elem_of_nil in Hy|].
  rewrite mark_overlaps_snoc.
  destruct (interval_tree.set_contains i (interval_tree.mark_overlaps d_root P)) eqn:Hc.
  - intros Hy. destruct (IH Hy) as (P1 & j & P2 & -> & Hj & Hfind).
    exists P1, j, (P2 ++ [i]). by rewrite <- app_assoc.
  - intros Hy.
    destruct (set_insert_all_spec (interval_tree.find_overlaps d_root i) _
                (mark_overlaps_apart d_root P)) as (_ & Hfrom & _ & _).
    apply Hfrom in Hy as [Hy|Hy].
    + destruct (IH Hy) as (P1 & j & P2 & -> & Hj & Hfind).
      exists P1, j, (P2 ++ [i]). by rewrite <- app_assoc.
    + exists P, i, []. done.
Qed.

Lemma mark_overlaps_marks (d_root : interval_tree.node T) (P : list T) (i y : T) :
  interval_tree.set_contains i (interval_tree.mark_overlaps d_root P) = false ->
  y ∈ interval_tree.find_overlaps d_root i ->
  interval_tree.set_contains y (interval_tree.mark_overlaps d_root (P ++ [i])) = true.
Proof.
  intros Hc Hy. rewrite mark_overlaps_snoc, Hc.
  destruct (set_insert_all_spec (interval_tree.find_overlaps d_root i) _
              (mark_overlaps_apart d_root P)) as (_ & _ & _ & Hall).
  by apply Hall.
Qed.

(** Erasing the marked intervals one after the other. *)
Lemma erase_marked_spec (s : list T) :
  forall v : list T,
  starts_apart s -> (forall y, y ∈ s -> y ∈ v) ->
  exists v',
    fold_left (fun result i => result ← result; erase_find interval_tree.eq i result) s (Ok v)
    = Ok v' /\
    v' `sublist_of` v /\
    (forall x, x ∈ v -> (forall y, y ∈ s -> interval_tree.eq x y = false) -> x ∈ v').
Proof.
  unfold starts_apart. intros v Hs. revert v.
  induction Hs as [|y s Hs IH Hy]; intros v Hin.
  - exists v. done.
  - destruct (erase_find_spec interval_tree.eq y v) as (z & v1 & Herase & Hz & Hperm & Hsub).
    { exists y. split; [apply Hin; left|].
      unfold interval_tree.eq, interval.eq. by rewrite !Z.eqb_refl. }
    destruct (IH v1) as (v' & Hfold & Hsub' & Hkeep).
    { intros y' Hy'. assert (y' ∈ v) as Hv by (apply Hin; by right).
      rewrite Hperm in Hv. apply elem_of_cons in Hv as [->|Hv]; [|done].
      rewrite Forall_forall in Hy. specialize (Hy z Hy').
      unfold interval_tree.eq, interval.eq in Hz. apply andb_true_iff in Hz as [Hz _].
      apply Z.eqb_eq in Hz. unfold interval_tree.get_start in Hy. lia. }
    exists v'. split_and!.
    + simpl. rewrite Herase. exact Hfold.
    + by etrans.
    + intros x Hx Hne. apply Hkeep.
      * rewrite Hperm in Hx. apply elem_of_cons in Hx as [->|Hx]; [|done].
        rewrite (Hne y) in Hz; [done | left].
      * intros y' Hy'. apply Hne. by right.
Qed.

Lemma by_start_sorted (l : list T) :
  StronglySorted (fun a b => interval_tree.get_start a <= interval_tree.get_start b)
    (std_sort interval_tree.by_start l).
Proof.
  eapply (StronglySorted_weaken (fun a b => interval_tree.by_start b a = false)).
  - intros a b Hab. unfold interval_tree.by_start in Hab. by apply Z.ltb_ge in Hab.
  - apply (std_sort_sorted _ (fun _ => True)).
    + intros a b _ _. unfold interval_tree.by_start. rewrite Z.ltb_lt, Z.ltb_ge. lia.
    + intros a b c _ _ _. unfold interval_tree.by_start. rewrite !Z.ltb_ge. lia.
    + by apply Forall_true.
Qed.

Lemma size_well_formed (i : T) :
  well_formed i -> interval_tree.size i = interval_tree.get_end i - interval_tree.get_start i + 1.
Proof.
  intros (H0 & Hse & He). unfold interval_tree.size, interval.size, wrap64.
  unfold interval_tree.get_start, interval_tree.get_end, interval.get_start, interval.get_end in *.
  rewrite Z.mod_small; lia.
Qed.

(** The first sort of [remove_overlaps]: greatest size first, and among
    equal sizes greatest start first. *)
Lemma by_size_then_start_iff (a b : T) :
  well_formed a -> well_formed b ->
  interval_tree.by_size_then_start a b = true <->
  interval_tree.size a > interval_tree.size b \/
  (interval_tree.size a = interval_tree.size b /\
   interval_tree.get_start a > interval_tree.get_start b).
Proof.
  intros Ha Hb. unfold interval_tree.by_size_then_start.
  pose proof (size_well_formed a Ha) as Hsa. pose proof (size_well_formed b Hb) as Hsb.
  destruct Ha as (Ha0 & Hase & Hae). destruct Hb as (Hb0 & Hbse & Hbe).
  destruct (wrap64 (interval_tree.size b - interval_tree.size a) =? 0) eqn:Hz.
  - apply Z.eqb_eq in Hz. unfold wrap64 in Hz.
    assert (interval_tree.size b = interval_tree.size a) as Heq.
    { destruct (decide (interval_tree.size a <= interval_tree.size b)).
      - rewrite Z.mod_small in Hz; lia.
      - replace (interval_tree.size b - interval_tree.size a)
          with (interval_tree.size b - interval_tree.size a + 2 ^ 64 + (-1) * 2 ^ 64) in Hz by lia.
        rewrite Z_mod_plus_full, Z.mod_small in Hz; lia. }
    rewrite Z.gtb_ltb, Z.ltb_lt. lia.
  - apply Z.eqb_neq in Hz. assert (interval_tree.size b <> interval_tree.size a) as Hne.
    { intros Heq. rewrite Heq, Z.sub_diag in Hz. by apply Hz. }
    rewrite Z.gtb_ltb, Z.ltb_lt. lia.
Qed.

Lemma by_size_then_start_sorted (l : list T) :
  Forall well_formed l ->
  StronglySorted (fun a b => interval_tree.by_size_then_start b a = false)
    (std_sort interval_tree.by_size_then_start l).
Proof.
  apply (std_sort_sorted _ well_formed).
  - intros a b Ha Hb Hab. apply (by_size_then_start_iff a b Ha Hb) in Hab.
    apply not_true_is_false. rewrite (by_size_then_start_iff b a Hb Ha). lia.
  - intros a b c Ha Hb Hc Hba Hcb. apply not_true_is_false.
    apply not_true_iff_false in Hba, Hcb.
    rewrite (by_size_then_start_iff b a Hb Ha) in Hba.
    rewrite (by_size_then_start_iff c b Hc Hb) in Hcb.
    rewrite (by_size_then_start_iff c a Hc Ha). lia.
Qed.

Lemma eq_bounds (a b : T) :
  interval_tree.eq a b = true <->
  interval_tree.get_start a = interval_tree.get_start b /\
  interval_tree.get_end a = interval_tree.get_end b.
Proof.
  unfold interval_tree.eq, interval.eq, interval_tree.get_start, interval_tree.get_end.
  by rewrite andb_true_iff, !Z.eqb_eq.
Qed.

Lemma neq_bounds (a b : T) :
  interval_tree.neq a b = true <->
  ~ (interval_tree.get_start a = interval_tree.get_start b /\
     interval_tree.get_end a = interval_tree.get_end b).
Proof.
  unfold interval_tree.neq, interval.neq, interval_tree.get_start, interval_tree.get_end.
  rewrite orb_true_iff, !negb_true_iff, !Z.eqb_neq. lia.
Qed.

Lemma overlaps_bounds (a b : T) :
  interval.overlaps_with (base_interval a) (base_interval b) = true <->
  interval_tree.get_start a <= interval_tree.get_end b /\
  interval_tree.get_start b <= interval_tree.get_end a.
Proof.
  unfold interval.overlaps_with, interval_tree.get_start, interval_tree.get_end,
    interval.get_start, interval.get_end.
  rewrite andb_true_iff, Z.geb_leb, !Z.leb_le. done.
Qed.

(** One run of [remove_overlaps] on the intervals its tree was built from. *)
Lemma remove_overlaps_run (intervals : list T) :
  Forall well_formed intervals ->
  exists tree v',
    interval_tree.new intervals = Ok tree /\
    (forall i, interval_tree.get_start i <= interval_tree.get_end i ->
       interval_tree.find_overlaps tree i
       ≡ₚ filter (fun x => overlaps_other i x = true) intervals) /\
    remove_overlaps_of intervals = Ok (std_sort interval_tree.by_start v') /\
    v' `sublist_of` std_sort interval_tree.by_size_then_start intervals /\
    (forall x, x ∈ intervals ->
       (forall y, y ∈ interval_tree.mark_overlaps tree
                        (std_sort interval_tree.by_size_then_start intervals) ->
                  interval_tree.eq x y = false) ->
       x ∈ v').
Proof.
  intros Hwf.
  destruct (new_node_spec (S (length intervals)) intervals ltac:(lia) Hwf)
    as (tree & Hnew & Hfind).
  set (sorted := std_sort interval_tree.by_size_then_start intervals).
  assert (sorted ≡ₚ intervals) as Hperm by apply std_sort_perm.
  destruct (erase_marked_spec (interval_tree.mark_overlaps tree sorted) sorted)
    as (v' & Hfold & Hsub & Hkeep).
  { apply mark_overlaps_apart. }
  { intros y Hy. apply mark_overlaps_origin in Hy as (P1 & i & P2 & HP & _ & Hy).
    assert (i ∈ intervals) as Hi.
    { rewrite <- Hperm, HP. apply elem_of_app. right. left. }
    rewrite Forall_forall in Hwf. destruct (Hwf i Hi) as (_ & Hise & _).
    unfold interval_tree.find_overlaps in Hy. rewrite (Hfind i Hise) in Hy.
    apply list_elem_of_filter in Hy as [_ Hy]. by rewrite Hperm. }
  exists tree, v'. split_and!; [done | done | | done |].
  - unfold remove_overlaps_of. unfold interval_tree.new. rewrite Hnew. simpl.
    unfold interval_tree.remove_overlaps. fold sorted. rewrite Hfold. done.
  - intros x Hx Hne. apply Hkeep; [by rewrite Hperm | done].
Qed.

Lemma remove_overlaps_sorted_part (intervals : list T) :
  Forall well_formed intervals ->
  exists result,
    remove_overlaps_of intervals = Ok result /\
    result ⊆+ intervals /\
    StronglySorted (fun a b => interval_tree.get_start a <= interval_tree.get_start b) result /\
    forall x, x ∈ intervals ->
      (forall y, y ∈ intervals ->
         interval.overlaps_with (base_interval x) (base_interval y) = true ->
         interval_tree.eq x y = true) ->
      x ∈ result.
Proof.
  intros Hwf.
  destruct (remove_overlaps_run intervals Hwf) as (tree & v' & Hnew & Hfind & Hrun & Hsub & Hkeep).
  exists (std_sort interval_tree.by_start v'). split_and!; [done | | apply by_start_sorted |].
  - rewrite std_sort_perm. apply sublist_submseteq in Hsub.
    by rewrite (std_sort_perm interval_tree.by_size_then_start intervals) in Hsub.
  - intros x Hx Halone. rewrite std_sort_perm. apply Hkeep; [done|].
    intros y Hy. apply not_true_is_false. intros Hxy.
    apply mark_overlaps_origin in Hy as (P1 & i & P2 & HP & _ & Hy).
    assert (i ∈ intervals) as Hi.
    { rewrite <- (std_sort_perm interval_tree.by_size_then_start intervals), HP.
      apply elem_of_app. right. left. }
    rewrite Forall_forall in Hwf. destruct (Hwf i Hi) as (_ & Hise & _).
    rewrite (Hfind i Hise) in Hy. apply list_elem_of_filter in Hy as [Hov _].
    unfold overlaps_other in Hov. apply andb_true_iff in Hov as [Hov Hneq].
    apply eq_bounds in Hxy as [Hs He]. apply overlaps_bounds in Hov.
    apply neq_bounds in Hneq. apply Hneq.
    assert (interval_tree.eq x i = true) as Hxi.
    { apply Halone; [done|]. apply overlaps_bounds. lia. }
    apply eq_bounds in Hxi. lia.
Qed.

Lemma remove_overlaps_longest (intervals : list T) :
  Forall well_formed intervals -> intervals <> [] ->
  exists result x,
    remove_overlaps_of intervals = Ok result /\ x ∈ result /\
    forall y, y ∈ intervals ->
      interval_tree.size y <= interval_tree.size x /\
      (interval_tree.size y = interval_tree.size x ->
       interval_tree.get_start y <= interval_tree.get_start x).
Proof.
  intros Hwf Hne.
  destruct (remove_overlaps_run intervals Hwf) as (tree & v' & Hnew & Hfind & Hrun & Hsub & Hkeep).
  pose proof (std_sort_perm interval_tree.by_size_then_start intervals) as Hperm.
  pose proof (by_size_then_start_sorted intervals Hwf) as Hsorted.
  destruct (std_sort interval_tree.by_size_then_start intervals) as [|r0 rest] eqn:Hsort.
  { symmetry in Hperm. by apply Permutation_nil_r in Hperm. }
  assert (Hin : forall y, y ∈ r0 :: rest <-> y ∈ intervals) by (intros y; by rewrite Hperm).
  assert (Hwf' : forall y, y ∈ intervals -> well_formed y) by (by apply Forall_forall).
  assert (r0 ∈ intervals) as Hr0 by (apply Hin; left).
  exists (std_sort interval_tree.by_start v'), r0. split_and!; [done | |].
  - rewrite std_sort_perm. apply Hkeep; [done|].
    intros y Hy. apply not_true_is_false. intros Hxy.
    apply mark_overlaps_origin in Hy as (P1 & i & P2 & HP & Hfree & Hy).
    assert (i ∈ intervals) as Hi.
    { apply Hin. rewrite HP. apply elem_of_app. right. left. }
    destruct (Hwf' i Hi) as (_ & Hise & _). destruct (Hwf' r0 Hr0) as (_ & Hrse & _).
    rewrite (Hfind i Hise) in Hy. apply list_elem_of_filter in Hy as [Hov _].
    unfold overlaps_other in Hov. apply andb_true_iff in Hov as [Hov Hneq].
    apply eq_bounds in Hxy as [Hs He]. apply overlaps_bounds in Hov.
    apply neq_bounds in Hneq.
    destruct P1 as [|r P1].
    + injection HP as <- _. apply Hneq. lia.
    + injection HP as <- HP.
      assert (interval_tree.set_contains i (interval_tree.mark_overlaps tree ([] ++ [r0])) = true)
        as Hmarked.
      { apply mark_overlaps_marks; [done|]. rewrite (Hfind r0 Hrse).
        apply list_elem_of_filter. split; [|done].
        unfold overlaps_other. apply andb_true_iff. split.
        - apply overlaps_bounds. lia.
        - apply neq_bounds. lia. }
      apply (mark_overlaps_mono tree _ P1) in Hmarked. simpl in Hmarked. congruence.
  - intros y Hy. apply Hin in Hy. apply elem_of_cons in Hy as [->|Hy]; [lia|].
    apply StronglySorted_inv in Hsorted as [_ Hall]. rewrite Forall_forall in Hall.
    specialize (Hall y Hy). apply not_true_iff_false in Hall.
    rewrite (by_size_then_start_iff y r0) in Hall; [lia | apply Hwf', Hin; by right | by apply Hwf'].
Qed.

(** [remove_overlaps] on well-formed intervals returns; what it returns is
    taken from the intervals given, each at most as often as it was given,
    and is in ascending order of start; an interval that overlaps no
    interval with other bounds is never dropped. *)
Theorem remove_overlaps_returns_sorted_part (intervals : list T) :
  Forall well_formed intervals ->
  exists result,
    remove_overlaps_of intervals = Ok result /\
    result ⊆+ intervals /\
    StronglySorted (fun a b => interval_tree.get_start a <= interval_tree.get_start b) result /\
    forall x, x ∈ intervals ->
      (forall y, y ∈ intervals ->
         interval.overlaps_with (base_interval x) (base_interval y) = true ->
         interval_tree.eq x y = true) ->
      x ∈ result.
Proof. intros Hwf. by apply remove_overlaps_sorted_part. Qed.

(** The longest interval is always kept: [remove_overlaps] returns an
    interval of the greatest size and, among those of that size, of the
    greatest start. *)
Theorem remove_overlaps_keeps_the_longest (intervals : list T) :
  Forall well_formed intervals -> intervals <> [] ->
  exists result x,
    remove_overlaps_of intervals = Ok result /\ x ∈ result /\
    forall y, y ∈ intervals ->
      interval_tree.size y <= interval_tree.size x /\
      (interval_tree.size y = interval_tree.size x ->
       interval_tree.get_start y <= interval_tree.get_start x).
Proof. intros Hwf Hne. by apply remove_overlaps_longest. Qed.

End remove_overlaps_facts.

Lemma nested_intervals_well_formed : Forall well_formed nested_intervals.
Proof. repeat constructor; vm_compute; discriminate. Qed.

Lemma remove_overlaps_returns_sorted_part_witness :
  Forall well_formed nested_intervals /\
  exists result,
    remove_overlaps_of nested_intervals = Ok result /\
    result ⊆+ nested_intervals /\
    StronglySorted (fun a b => interval_tree.get_start a <= interval_tree.get_start b) result /\
    forall x, x ∈ nested_intervals ->
      (forall y, y ∈ nested_intervals ->
         interval.overlaps_with (base_interval x) (base_interval y) = true ->
         interval_tree.eq x y = true) ->
      x ∈ result.
Proof.
  split; [apply nested_intervals_well_formed|].
  apply (remove_overlaps_returns_sorted_part nested_intervals).
  apply nested_intervals_well_formed.
Defined.

Lemma remove_overlaps_keeps_the_longest_witness :
  Forall well_formed nested_intervals /\ nested_intervals <> [] /\
  exists result x,
    remove_overlaps_of nested_intervals = Ok result /\ x ∈ result /\
    forall y, y ∈ nested_intervals ->
      interval_tree.size y <= interval_tree.size x /\
      (interval_tree.size y = interval_tree.size x ->
       interval_tree.get_start y <= interval_tree.get_start x).
Proof.
  split; [apply nested_intervals_well_formed|]. split; [discriminate|].
  apply (remove_overlaps_keeps_the_longest nested_intervals).
  - apply nested_intervals_well_formed.
  - discriminate.
Defined.

(** ** [remove_partial_matches] *)

Lemma at_inside (text : list CharType) (pos : Z) :
  0 <= pos < string_size text ->
  exists c, basic_trie.at_ text pos = Ok c /\ text !! Z.to_nat pos = Some c.
Proof.
  intros Hpos. unfold basic_trie.at_.
  assert (((0 <=? pos) && (pos <? string_size text)) = true) as ->.
  { apply andb_true_iff. split; [apply Z.leb_le | apply Z.ltb_lt]; lia. }
  destruct (text !! Z.to_nat pos) as [c|] eqn:Hc; [by exists c|].
  apply lookup_ge_None in Hc. unfold string_size in Hpos. lia.
Qed.

(** The test of [remove_partial_matches] on an emit inside the text. *)
Lemma is_whole_word_within (text : list CharType) (e : emit.t) :
  string_size text < 2 ^ 64 -> within (string_size text) e ->
  basic_trie.is_whole_word text e = Ok (delimited text e).
Proof.
  intros Hfit (H0 & Hse & Hend). unfold basic_trie.is_whole_word, delimited.
  assert (wrap64 (emit.get_end e + 1) = emit.get_end e + 1) as ->.
  { unfold wrap64. rewrite Z.mod_small; lia. }
  assert (Hafter : (if emit.get_end e + 1 =? string_size text then Ok true
                    else c ← basic_trie.at_ text (emit.get_end e + 1);
                         Ok (negb (basic_trie.isalpha c)))
                   = Ok ((emit.get_end e + 1 =? string_size text)
                         || negb (alpha_at text (emit.get_end e + 1)))).
  { destruct (emit.get_end e + 1 =? string_size text) eqn:Hlast; [done|].
    apply Z.eqb_neq in Hlast.
    destruct (at_inside text (emit.get_end e + 1)) as (c & -> & Hc); [lia|].
    simpl. unfold alpha_at. by rewrite Hc. }
  destruct (emit.get_start e =? 0) eqn:Hfirst.
  - simpl. exact Hafter.
  - apply Z.eqb_neq in Hfirst.
    assert (wrap64 (emit.get_start e - 1) = emit.get_start e - 1) as ->.
    { unfold wrap64. rewrite Z.mod_small; lia. }
    destruct (at_inside text (emit.get_start e - 1)) as (c & -> & Hc); [lia|].
    simpl. unfold alpha_at at 1. rewrite Hc.
    destruct (basic_trie.isalpha c); simpl; [done | exact Hafter].
Qed.

Lemma delimited_eq (text : list CharType) (e e' : emit.t) :
  interval_tree.eq e e' = true -> delimited text e = delimited text e'.
Proof.
  intros Heq. unfold interval_tree.eq, interval.eq in Heq.
  apply andb_true_iff in Heq as [Hs He]. apply Z.eqb_eq in Hs, He.
  unfold delimited, emit.get_start, emit.get_end. 
  change (base_interval e) with (emit.base e) in *.
  change (base_interval e') with (emit.base e') in *. by rewrite Hs, He.
Qed.

(** The first loop collects the emits that fail the test. *)
Lemma collect_partial_matches (text : list CharType) (emits : list emit.t) :
  string_size text < 2 ^ 64 -> Forall (within (string_size text)) emits ->
  forall acc,
  fold_left (fun remove_emits e =>
               remove_emits ← remove_emits;
               whole ← basic_trie.is_whole_word text e;
               Ok (match whole with
                   | true => remove_emits
                   | false => remove_emits ++ [e]
                   end))
            emits (Ok acc)
  = Ok (acc ++ filter (fun e => delimited text e = false) emits).
Proof.
  intros Hfit Hin. induction Hin as [|e emits He _ IH]; intros acc; simpl.
  - by rewrite app_nil_r.
  - rewrite (is_whole_word_within text e Hfit He). simpl.
    destruct (delimited text e) eqn:Hd.
    + rewrite filter_cons_False by congruence. apply IH.
    + rewrite filter_cons_True by done. rewrite IH. by rewrite <- app_assoc.
Qed.

(** The second loop erases them, each by the first emit with its bounds. *)
Lemma erase_partial_matches (text : list CharType) (rest : list emit.t) :
  forall kept : list emit.t,
  Forall (fun e => delimited text e = true) kept ->
  fold_left (fun collected_emits e =>
               collected_emits ← collected_emits;
               erase_find (@interval_tree.eq emit.t _) e collected_emits)
            (filter (fun e => delimited text e = false) rest) (Ok (kept ++ rest))
  = Ok (kept ++ filter (fun e => delimited text e = true) rest).
Proof.
  induction rest as [|e rest IH]; intros kept Hkept; simpl.
  - done.
  - destruct (delimited text e) eqn:Hd.
    + rewrite filter_cons_False by congruence. rewrite filter_cons_True by done.
      replace (kept ++ e :: rest) with ((kept ++ [e]) ++ rest) by (by rewrite <- app_assoc).
      replace (kept ++ e :: filter (fun e => delimited text e = true) rest)
        with ((kept ++ [e]) ++ filter (fun e => delimited text e = true) rest)
        by (by rewrite <- app_assoc).
      apply IH. apply Forall_app. split; [done | by constructor].
    + rewrite filter_cons_True by done. rewrite filter_cons_False by congruence.
      simpl.
      assert (erase_find (@interval_tree.eq emit.t _) e (kept ++ e :: rest) = Ok (kept ++ rest))
        as ->.
      { clear IH. induction Hkept as [|k kept Hk _ IHk]; simpl.
        - assert (interval_tree.eq e e = true) as ->; [|done].
          unfold interval_tree.eq, interval.eq. by rewrite !Z.eqb_refl.
        - destruct (interval_tree.eq k e) eqn:Hke.
          + apply (delimited_eq text) in Hke. congruence.
          + by rewrite IHk. }
      by apply IH.
Qed.

Lemma remove_partial_matches_filter (text : list CharType) (emits : list emit.t) :
  string_size text < 2 ^ 64 -> Forall (within (string_size text)) emits ->
  basic_trie.remove_partial_matches text emits
  = Ok (filter (fun e => delimited text e = true) emits).
Proof.
  intros Hfit Hin. unfold basic_trie.remove_partial_matches.
  rewrite (collect_partial_matches text emits Hfit Hin []). simpl.
  apply (erase_partial_matches text emits []). constructor.
Qed.

(** [remove_partial_matches], given emits that lie inside a text of
    characters below 128: it keeps the emits that have no letter just
    before them and none just after, in their order. *)
Theorem remove_partial_matches_keeps_whole_words (text : list CharType) (emits : list emit.t) :
  fits text -> Forall (fun c => char_code c < 128) text ->
  Forall (within (string_size text)) emits ->
  basic_trie.remove_partial_matches text emits
  = Ok (filter (fun e => delimited text e = true) emits).
Proof. intros Hfit _ Hin. by apply remove_partial_matches_filter. Qed.

Lemma remove_partial_matches_keeps_whole_words_witness :
  fits (str "she ushers") /\ Forall (fun c => char_code c < 128) (str "she ushers") /\
  Forall (within (string_size (str "she ushers")))
    [emit.new 0 2 (str "she") 1; emit.new 1 2 (str "he") 0; emit.new 5 7 (str "she") 1] /\
  basic_trie.remove_partial_matches (str "she ushers")
    [emit.new 0 2 (str "she") 1; emit.new 1 2 (str "he") 0; emit.new 5 7 (str "she") 1]
  = Ok (filter (fun e => delimited (str "she ushers") e = true)
          [emit.new 0 2 (str "she") 1; emit.new 1 2 (str "he") 0; emit.new 5 7 (str "she") 1]).
Proof.
  split; [reflexivity|]. split; [repeat constructor|].
  split; [repeat constructor; vm_compute; discriminate|].
  apply (remove_partial_matches_keeps_whole_words (str "she ushers")
           [emit.new 0 2 (str "she") 1; emit.new 1 2 (str "he") 0; emit.new 5 7 (str "she") 1]).
  - reflexivity.
  - repeat constructor.
  - repeat constructor; vm_compute; discriminate.
Defined.

(** ** Insertion and the other settings *)

(** Insertion reads the configuration for [allow_substrings] alone. *)
Lemma insert_with_config (c' : basic_trie.config) (tr : basic_trie.t) (kw : list CharType) :
  basic_trie.is_allow_substrings (basic_trie.d_config tr) = basic_trie.is_allow_substrings c' ->
  basic_trie.insert (basic_trie.with_config c' tr) kw
  = '(tr1, handle) ← basic_trie.insert tr kw; Ok (basic_trie.with_config c' tr1, handle).
Proof.
  intros Hsub. destruct tr as [h root c post n count bfs final]. simpl in Hsub.
  unfold basic_trie.insert, basic_trie.with_config, basic_trie.with_states. simpl.
  destruct kw as [|ch kw]; [done|].
  destruct (basic_trie.add_states h root (ch :: kw)) as [[h1 p]| |]; simpl; try reflexivity.
  destruct (deref h1 p) as [s| |]; simpl; try reflexivity. rewrite <- Hsub.
  match goal with |- context [orb ?a ?b] => destruct (orb a b) end; [|reflexivity].
  destruct (update h1 p (add_emit (ch :: kw) n)) as [h2| |]; reflexivity.
Qed.

Lemma insert_config (tr tr1 : basic_trie.t) (kw : list CharType) (handle : option ptr) :
  basic_trie.insert tr kw = Ok (tr1, handle) -> basic_trie.d_config tr1 = basic_trie.d_config tr.
Proof.
  unfold basic_trie.insert. destruct kw as [|ch kw]; [by intros [= <- _]|].
  intros Hins. bind_inv Hins as [h1 p] Hadd. bind_inv Hins as s Hs.
  destruct (_ || _).
  - bind_inv Hins as h2 Hup. by injection Hins as <- _.
  - injection Hins as <- _. by destruct tr.
Qed.

Lemma insert_all_with_config (c' : basic_trie.config) (kws : list (list CharType)) :
  forall tr,
  basic_trie.is_allow_substrings (basic_trie.d_config tr) = basic_trie.is_allow_substrings c' ->
  insert_all (basic_trie.with_config c' tr) kws
  = '(tr1, handles) ← insert_all tr kws; Ok (basic_trie.with_config c' tr1, handles).
Proof.
  induction kws as [|kw kws IH]; intros tr Halike; simpl; [done|].
  rewrite (insert_with_config c' tr kw Halike).
  destruct (basic_trie.insert tr kw) as [[tr1 handle]| |] eqn:Hins; simpl; [|done..].
  rewrite IH by (by rewrite (insert_config _ _ _ _ Hins)).
  destruct (insert_all tr1 kws) as [[tr2 handles]| |]; done.
Qed.

Lemma insert_all_config (kws : list (list CharType)) :
  forall tr tr1 handles,
  insert_all tr kws = Ok (tr1, handles) -> basic_trie.d_config tr1 = basic_trie.d_config tr.
Proof.
  induction kws as [|kw kws IH]; intros tr tr1 handles Hall; simpl in Hall.
  - by injection Hall as <- _.
  - bind_inv Hall as [tr2 handle] Hins. bind_inv Hall as [tr3 handles'] Hrest.
    injection Hall as <- _. rewrite (IH _ _ _ Hrest). by eapply insert_config.
Qed.

(** [insert] reads [allow_substrings] alone: the calls [case_insensitive()],
    [remove_overlaps()], [only_whole_words()] and
    [store_states_in_bfs_order()] can be made before a run of insertions or
    after it, with the same result. In particular a case-insensitive trie
    stores its keywords as they are given, capitals included. *)
Theorem insert_ignores_other_settings (tr : basic_trie.t) (keywords : list (list CharType)) :
  Forall (fun configure : basic_trie.t -> basic_trie.t =>
            insert_all (configure tr) keywords
            = '(tr1, handles) ← insert_all tr keywords; Ok (configure tr1, handles))
    [basic_trie.case_insensitive; basic_trie.remove_overlaps; basic_trie.only_whole_words;
     basic_trie.store_states_in_bfs_order].
Proof.
  repeat constructor;
    (unfold basic_trie.case_insensitive, basic_trie.remove_overlaps, basic_trie.only_whole_words,
       basic_trie.store_states_in_bfs_order;
     rewrite insert_all_with_config by done;
     destruct (insert_all tr keywords) as [[tr1 handles]| |] eqn:Hall; [|done|done];
     cbn [mbind result_bind]; by rewrite (insert_all_config _ _ _ _ Hall)).
Qed.

(** ** The shape of the trie *)

Lemma parents_ok_insert (h : heap) (paths : list (list CharType)) (p : ptr) (s s' : state.t) :
  parents_ok h paths -> h !! p = Some s -> d_parent s' = d_parent s ->
  parents_ok (<[p := s']> h) paths.
Proof.
  intros Hpar Hs Hsame q t w Ht Hw. destruct (decide (q = p)) as [->|Hne].
  - rewrite list_lookup_insert_eq in Ht by (by eapply lookup_lt_Some).
    injection Ht as <-. rewrite Hsame. by eapply Hpar.
  - rewrite list_lookup_insert_ne in Ht by done. by eapply Hpar.
Qed.

Lemma parents_ok_add_state (h : heap) (paths : list (list CharType)) (cur : ptr)
  (pre : list CharType) (ch : CharType) (s : state.t) :
  trie_inv h paths -> parents_ok h paths -> paths !! cur = Some pre -> h !! cur = Some s ->
  parents_ok
    (<[cur := set_success (transition_map.set_transition ch (length h) (d_success s)) s]>
       (h ++ [set_parent (Some cur) (state.new (length h) (wrap64 (d_depth s + 1)))]))
    (paths ++ [pre ++ [ch]]).
Proof.
  intros Hinv Hpar Hcur Hs q t w Ht Hw.
  assert (cur < length h)%nat as Hlt by (by eapply lookup_lt_Some).
  rewrite lookup_insert_snoc in Ht by done.
  assert (Hold : forall t0, h !! q = Some t0 -> d_parent t = d_parent t0 ->
            match d_parent t with
            | None => w = []
            | Some q0 => exists w0 c, w = w0 ++ [c] /\ (paths ++ [pre ++ [ch]]) !! q0 = Some w0
            end).
  { intros t0 Ht0 Hsame. rewrite Hsame.
    assert (paths !! q = Some w) as Hw0.
    { apply lookup_snoc_path in Hw as [Hw|[Hq _]]; [done|].
      apply lookup_lt_Some in Ht0. rewrite (inv_length _ _ Hinv) in Hq. lia. }
    specialize (Hpar q t0 w Ht0 Hw0). destruct (d_parent t0) as [q0|]; [|done].
    destruct Hpar as (w0 & c & -> & Hq0). exists w0, c. split; [done|].
    by apply lookup_app_l_Some. }
  case_decide as Hq; [subst q; injection Ht as <-; by apply (Hold s)|].
  case_decide as Hq'; [|by apply (Hold t)].
  subst q. injection Ht as <-. simpl.
  apply lookup_snoc_path in Hw as [Hw|[_ ->]].
  - apply lookup_lt_Some in Hw. rewrite (inv_length _ _ Hinv) in Hw. lia.
  - exists pre, ch. split; [done|]. by apply lookup_app_l_Some.
Qed.

(** The loop of [insert] creates states for prefixes of the keyword only. *)
Lemma add_states_shape (rest : list CharType) :
  forall (h : heap) (paths : list (list CharType)) (cur : ptr) (pre : list CharType),
  trie_inv h paths -> parents_ok h paths -> paths !! cur = Some pre -> fits (pre ++ rest) ->
  exists h' fresh p,
    basic_trie.add_states h cur rest = Ok (h', p) /\
    trie_inv h' (paths ++ fresh) /\ parents_ok h' (paths ++ fresh) /\
    (paths ++ fresh) !! p = Some (pre ++ rest) /\
    Forall (fun w => w `prefix_of` pre ++ rest) fresh.
Proof.
  induction rest as [|ch rest IH]; intros h paths cur pre Hinv Hpar Hcur Hfit.
  - exists h, [], cur. simpl. rewrite !app_nil_r. done.
  - simpl. destruct (inv_lookup_state _ _ Hinv _ _ Hcur) as [s Hs].
    assert (fits (pre ++ [ch])) as Hfit1.
    { apply (fits_prefix _ rest). by rewrite <- app_assoc. }
    destruct (goto h cur ch) as [q|] eqn:Hgoto.
    + assert (state.add_state h cur ch = Ok (h, q)) as ->.
      { unfold add_state. rewrite (deref_lookup _ _ _ Hs). simpl.
        unfold next_state_ignore_root_state, next_state_from.
        rewrite (goto_lookup h cur s ch Hs) in Hgoto. by rewrite Hgoto. }
      simpl. pose proof (inv_goto_path _ _ Hinv _ _ _ _ Hcur Hgoto) as Hq.
      destruct (IH h paths q (pre ++ [ch]) Hinv Hpar Hq) as (h' & fresh & p & Hadd & ? & ? & ? & ?).
      { by rewrite <- app_assoc. }
      exists h', fresh, p. rewrite <- app_assoc in *. done.
    + destruct (add_state_new h paths cur pre ch s Hinv Hcur Hs Hfit1 Hgoto) as [-> Hinv1].
      pose proof (parents_ok_add_state h paths cur pre ch s Hinv Hpar Hcur Hs) as Hpar1.
      simpl. set (h1 := <[cur := _]> (h ++ [_])) in *.
      assert ((paths ++ [pre ++ [ch]]) !! length h = Some (pre ++ [ch])) as Hq.
      { rewrite <- (inv_length _ _ Hinv). by apply list_lookup_middle. }
      destruct (IH h1 _ (length h) (pre ++ [ch]) Hinv1 Hpar1 Hq)
        as (h' & fresh & p & Hadd & Hinv' & Hpar' & Hp & Hfresh).
      { by rewrite <- app_assoc. }
      exists h', ((pre ++ [ch]) :: fresh), p.
      rewrite <- !app_assoc in *. simpl in *. split_and!; try done.
      constructor; [|done]. exists rest. by rewrite <- app_assoc.
Qed.

Lemma shape_inv_insert (tr : basic_trie.t) (paths kws : list (list CharType))
  (kw : list CharType) :
  shape_inv tr paths kws -> fits kw ->
  exists tr' handle paths',
    basic_trie.insert tr kw = Ok (tr', handle) /\ shape_inv tr' paths' (kws ++ [kw]).
Proof.
  intros [Hwf Hpar Hpre Hin] Hfit. destruct (decide (kw = [])) as [->|Hne].
  { exists tr, (Some (basic_trie.d_root tr)), paths. split; [done|]. constructor; [done..| |].
    - intros w Hw. destruct (Hpre w Hw) as [->|(kw & Hkw & Hpfx)]; [by left|].
      right. exists kw. split; [|done]. apply elem_of_app. by left.
    - intros kw Hkw. apply elem_of_app in Hkw as [Hkw|Hkw]; [by apply Hin|].
      apply list_elem_of_singleton in Hkw as ->.
      eapply list_elem_of_lookup_2, inv_root, Hwf. }
  destruct (add_states_shape kw (basic_trie.states tr) paths 0%nat [] (wf_inv _ _ Hwf) Hpar
              (inv_root _ _ (wf_inv _ _ Hwf)) Hfit)
    as (h1 & fresh & p & Hadd & Hinv1 & Hpar1 & Hp & Hfresh).
  assert (exists tr' handle, basic_trie.insert tr kw = Ok (tr', handle)) as (tr' & handle & Hins).
  { destruct (insert_spec tr paths kw Hwf Hfit Hne) as (? & ? & ? & ? & ? & _ & _ & _ & _ & _ & _ & ->).
    match goal with |- context [orb ?a ?b] => destruct (orb a b) end; eauto. }
  destruct (wf_trie_insert _ _ _ _ _ Hwf Hfit Hins) as [fresh' Hwf'].
  assert (basic_trie.states tr' = h1 \/
          exists s1, h1 !! p = Some s1 /\
            basic_trie.states tr'
            = <[p := add_emit kw (basic_trie.d_num_keywords tr) s1]> h1) as Hstates.
  { unfold basic_trie.insert in Hins. destruct kw as [|c kw']; [done|].
    rewrite (wf_root _ _ Hwf), Hadd in Hins. simpl in Hins.
    bind_inv Hins as s1 Hs1. apply deref_Ok in Hs1.
    match type of Hins with context [orb ?a ?b] => destruct (orb a b) end.
    - rewrite (update_lookup _ _ _ _ Hs1) in Hins. simpl in Hins.
      injection Hins as <- _. right. by exists s1.
    - injection Hins as <- _. left. by destruct tr. }
  assert (paths ++ fresh' = paths ++ fresh) as Hsame.
  { apply (list_eq_same_length _ _ (length (basic_trie.states tr'))).
    - rewrite (inv_length _ _ Hinv1). destruct Hstates as [->|(s1 & _ & ->)]; [done|].
      by rewrite length_insert.
    - apply (inv_length _ _ (wf_inv _ _ Hwf')).
    - intros q x y Hq Hx Hy.
      assert (walk (basic_trie.states tr') 0%nat x = Some q) as Hwx
        by (by apply (walk_paths _ _ (wf_inv _ _ Hwf'))).
      assert (forall w, walk (basic_trie.states tr') 0%nat w = walk h1 0%nat w) as Hwalk.
      { destruct Hstates as [->|(s1 & Hs1 & ->)]; [done|].
        intros w. generalize 0%nat. induction w as [|c w IHw]; intros r; [done|].
        simpl. assert (goto (<[p := add_emit kw (basic_trie.d_num_keywords tr) s1]> h1) r c
                       = goto h1 r c) as ->.
        { unfold goto. destruct (decide (r = p)) as [->|Hrp].
          - rewrite list_lookup_insert_eq by (by eapply lookup_lt_Some). by rewrite Hs1.
          - by rewrite list_lookup_insert_ne. }
        destruct (goto h1 r c); [apply IHw | done]. }
      rewrite Hwalk in Hwx. apply (walk_paths _ _ Hinv1) in Hwx. congruence. }
  exists tr', handle, (paths ++ fresh). rewrite Hsame in Hwf'. split; [done|].
  constructor; [done | | |].
  - destruct Hstates as [->|(s1 & Hs1 & ->)]; [done|]. by eapply parents_ok_insert.
  - intros w Hw. apply elem_of_app in Hw as [Hw|Hw].
    + destruct (Hpre w Hw) as [->|(kw0 & Hkw & Hpfx)]; [by left|].
      right. exists kw0. split; [|done]. apply elem_of_app. by left.
    + right. exists kw. split; [apply elem_of_app; right; left|].
      rewrite Forall_forall in Hfresh. by apply Hfresh.
  - intros kw0 Hkw. apply elem_of_app in Hkw as [Hkw|Hkw].
    + apply elem_of_app. left. by apply Hin.
    + apply list_elem_of_singleton in Hkw as ->. by eapply list_elem_of_lookup_2.
Qed.

Lemma shape_inv_insert_all (kws : list (list CharType)) :
  forall (tr : basic_trie.t) (paths before : list (list CharType)),
  shape_inv tr paths before -> Forall fits kws ->
  exists tr' handles paths',
    insert_all tr kws = Ok (tr', handles) /\ shape_inv tr' paths' (before ++ kws).
Proof.
  induction kws as [|kw kws IH]; intros tr paths before Hsh Hfits.
  - exists tr, [], paths. rewrite app_nil_r. done.
  - apply Forall_cons in Hfits as [Hfit Hfits].
    destruct (shape_inv_insert tr paths before kw Hsh Hfit) as (tr1 & handle & paths1 & Hins & Hsh1).
    destruct (IH tr1 paths1 _ Hsh1 Hfits) as (tr' & handles & paths' & Hall & Hsh').
    exists tr', (handle :: handles), paths'. split.
    + simpl. rewrite Hins. simpl. by rewrite Hall.
    + by rewrite <- app_assoc in Hsh'.
Qed.

Lemma shape_inv_new (c : basic_trie.config) : shape_inv (basic_trie.new_with c) [[]] [].
Proof.
  constructor.
  - apply wf_trie_new.
  - intros p s w Hs Hw. apply list_lookup_singleton_Some in Hs as [-> <-].
    apply list_lookup_singleton_Some in Hw as [_ <-]. done.
  - intros w Hw. apply list_elem_of_singleton in Hw. by left.
  - intros kw Hkw. by apply elem_of_nil in Hkw.
Qed.

(** The states of a trie stand for the prefixes of its keywords: after the
    insertion of any keywords into a fresh trie every state is reached from
    the root by exactly one word, and the words that reach a state are the
    empty word and the prefixes of the keywords. *)
Theorem states_are_the_prefixes (c : basic_trie.config) (keywords : list (list CharType)) :
  Forall fits keywords ->
  exists tr handles,
    insert_all (basic_trie.new_with c) keywords = Ok (tr, handles) /\
    let h := basic_trie.states tr in
    let root := basic_trie.d_root tr in
    (forall p s, h !! p = Some s ->
       exists w, walk h root w = Some p /\ forall w', walk h root w' = Some p -> w' = w) /\
    (forall w, is_Some (walk h root w) <->
               w = [] \/ exists kw, kw ∈ keywords /\ w `prefix_of` kw).
Proof.
  intros Hfits.
  destruct (shape_inv_insert_all keywords _ _ _ (shape_inv_new c) Hfits)
    as (tr & handles & paths & Hall & [Hwf Hpar Hpre Hin]).
  exists tr, handles. split; [done|]. simpl.
  pose proof (wf_inv _ _ Hwf) as Hinv. rewrite (wf_root _ _ Hwf). split.
  - intros p s Hs. destruct (inv_lookup_path _ _ Hinv _ _ Hs) as [w Hw].
    exists w. split; [by apply (walk_paths _ _ Hinv)|].
    intros w' Hw'. apply (walk_paths _ _ Hinv) in Hw'. congruence.
  - intros w. split.
    + intros [p Hp]. apply (walk_paths _ _ Hinv) in Hp. apply Hpre.
      by eapply list_elem_of_lookup_2.
    + intros [->|(kw & Hkw & [rest ->])].
      * exists 0%nat. done.
      * assert (w ∈ paths) as Hw by (apply (inv_prefix_closed _ _ w rest Hinv); by apply Hin).
        apply list_elem_of_lookup_1 in Hw as [p Hp]. exists p.
        by apply (walk_paths _ _ Hinv).
Qed.

Lemma states_are_the_prefixes_witness :
  Forall fits ushers_keywords /\
  exists tr handles,
    insert_all (basic_trie.new_with basic_trie.default_config) ushers_keywords
    = Ok (tr, handles) /\
    let h := basic_trie.states tr in
    let root := basic_trie.d_root tr in
    (forall p s, h !! p = Some s ->
       exists w, walk h root w = Some p /\ forall w', walk h root w' = Some p -> w' = w) /\
    (forall w, is_Some (walk h root w) <->
               w = [] \/ exists kw, kw ∈ ushers_keywords /\ w `prefix_of` kw).
Proof.
  split; [apply fits_ushers_keywords|].
  apply (states_are_the_prefixes basic_trie.default_config ushers_keywords).
  apply fits_ushers_keywords.
Defined.

(** The [parent] pointers of a trie built by insertions: the root has no
    parent, and the parent of the state reached by a word is the state
    reached by the word without its last character. *)
Theorem parent_is_the_shorter_prefix (c : basic_trie.config) (keywords : list (list CharType)) :
  Forall fits keywords ->
  exists tr handles,
    insert_all (basic_trie.new_with c) keywords = Ok (tr, handles) /\
    let h := basic_trie.states tr in
    let root := basic_trie.d_root tr in
    (forall s, h !! root = Some s -> parent s = None) /\
    (forall w ch p s, walk h root (w ++ [ch]) = Some p -> h !! p = Some s ->
       exists q, parent s = Some q /\ walk h root w = Some q).
Proof.
  intros Hfits.
  destruct (shape_inv_insert_all keywords _ _ _ (shape_inv_new c) Hfits)
    as (tr & handles & paths & Hall & [Hwf Hpar Hpre Hin]).
  exists tr, handles. split; [done|]. simpl.
  pose proof (wf_inv _ _ Hwf) as Hinv. rewrite (wf_root _ _ Hwf). split.
  - intros s Hs. specialize (Hpar 0%nat s [] Hs (inv_root _ _ Hinv)). unfold parent.
    destruct (d_parent s) as [q|]; [|done]. destruct Hpar as (w0 & ch & Hw & _).
    by destruct w0.
  - intros w ch p s Hwalk Hs. apply (walk_paths _ _ Hinv) in Hwalk.
    specialize (Hpar p s _ Hs Hwalk). unfold parent.
    destruct (d_parent s) as [q|]; [|by destruct w].
    destruct Hpar as (w0 & ch0 & Heq & Hq). apply app_inj_tail in Heq as [-> ->].
    exists q. split; [done|]. by apply (walk_paths _ _ Hinv).
Qed.

Lemma parent_is_the_shorter_prefix_witness :
  Forall fits ushers_keywords /\
  exists tr handles,
    insert_all (basic_trie.new_with basic_trie.default_config) ushers_keywords
    = Ok (tr, handles) /\
    let h := basic_trie.states tr in
    let root := basic_trie.d_root tr in
    (forall s, h !! root = Some s -> parent s = None) /\
    (forall w ch p s, walk h root (w ++ [ch]) = Some p -> h !! p = Some s ->
       exists q, parent s = Some q /\ walk h root w = Some q).
Proof.
  split; [apply fits_ushers_keywords|].
  apply (parent_is_the_shorter_prefix basic_trie.default_config ushers_keywords).
  apply fits_ushers_keywords.
Defined.

(** ** The members that compilation writes *)

(** Insertions leave alone what compilation is to fill in: in a trie that
    has not been compiled [num_states()] is 0 however many states there
    are, the two breadth-first lists are empty and every state has the
    index 0. *)
Theorem nothing_numbered_before_compilation (tr : basic_trie.t) :
  pre_compilation tr ->
  basic_trie.num_states tr = 0 /\
  basic_trie.get_states_in_bfs_order tr = [] /\
  basic_trie.get_final_states_in_bfs_order tr = [] /\
  forall p s, basic_trie.states tr !! p = Some s -> index s = 0.
Proof.
  intros Hpre. destruct (pre_compilation_uncompiled tr Hpre) as [_ Hcount Horder Hfinal Hall].
  split_and!; try done.
  intros p s Hs. by destruct (Forall_lookup_1 _ _ _ _ Hall Hs).
Qed.

Lemma nothing_numbered_before_compilation_witness :
  pre_compilation ushers_trie /\
  basic_trie.num_states ushers_trie = 0 /\
  basic_trie.get_states_in_bfs_order ushers_trie = [] /\
  basic_trie.get_final_states_in_bfs_order ushers_trie = [] /\
  forall p s, basic_trie.states ushers_trie !! p = Some s -> index s = 0.
Proof.
  split; [apply ushers_trie_pre_compilation|].
  apply (nothing_numbered_before_compilation ushers_trie). apply ushers_trie_pre_compilation.
Defined.

(** ** [reset_root] *)

(** [reset_root()] drops the states, and with them every keyword, but not
    the count of the keywords: the first keyword inserted afterwards is
    stored with the index [num_keywords()], not 0, and is the only one the
    trie holds. *)
Theorem reset_root_keeps_the_count (tr : basic_trie.t) (keyword : list CharType) :
  pre_compilation tr -> fits keyword -> keyword <> [] ->
  basic_trie.states (basic_trie.reset_root tr) = [state.new 0%nat 0] /\
  basic_trie.num_keywords (basic_trie.reset_root tr) = basic_trie.num_keywords tr /\
  exists tr' p,
    basic_trie.insert (basic_trie.reset_root tr) keyword = Ok (tr', Some p) /\
    all_emits (basic_trie.states tr') = [(keyword, basic_trie.num_keywords tr)].
Proof.
  intros Hpre Hfit Hne. split; [done|]. split; [done|].
  destruct (pre_compilation_wf tr Hpre) as [paths Hwf].
  assert (wf_trie (basic_trie.reset_root tr) [[]]) as Hwf0.
  { constructor; simpl.
    - apply trie_inv_new.
    - apply (wf_root _ _ Hwf).
    - intros p s kw i Hs Hin. apply list_lookup_singleton_Some in Hs as [-> <-].
      simpl in Hin. by apply elem_of_nil in Hin. }
  destruct (insert_spec _ _ keyword Hwf0 Hfit Hne)
    as (h1 & fresh & p & s1 & k & _ & Hs1 & _ & _ & Hemits & _ & Hins).
  change (map d_emits (basic_trie.states (basic_trie.reset_root tr))) with [@nil (list CharType * Z)]
    in Hemits.
  assert (d_emits <$> h1 = replicate (S k) []) as Hrep by done.
  assert (d_emits s1 = []) as Hs1e.
  { assert ((d_emits <$> h1) !! p = Some (d_emits s1)) as Hl by (by rewrite list_lookup_fmap, Hs1).
    rewrite Hrep in Hl. by apply lookup_replicate in Hl as [<- _]. }
  rewrite Hs1e in Hins. simpl in Hins.
  eexists _, p. split; [exact Hins|]. simpl. unfold all_emits.
  change (map d_emits) with (fmap (M:=list) d_emits).
  rewrite list_fmap_insert, Hrep.
  assert (p < S k)%nat as Hp.
  { apply lookup_lt_Some in Hs1. rewrite <- (length_fmap d_emits), Hrep, length_replicate in Hs1.
    done. }
  unfold add_emit. simpl d_emits. rewrite Hs1e. clear -Hp. revert p Hp.
  induction (S k) as [|n IH]; intros p Hp; [lia|].
  destruct p as [|p]; simpl.
  - unfold basic_trie.num_keywords. f_equal. clear. by induction n.
  - apply IH. lia.
Qed.

Lemma reset_root_keeps_the_count_witness :
  pre_compilation ushers_trie /\ fits (str "his") /\ str "his" <> [] /\
  basic_trie.states (basic_trie.reset_root ushers_trie) = [state.new 0%nat 0] /\
  basic_trie.num_keywords (basic_trie.reset_root ushers_trie) = basic_trie.num_keywords ushers_trie /\
  exists tr' p,
    basic_trie.insert (basic_trie.reset_root ushers_trie) (str "his") = Ok (tr', Some p) /\
    all_emits (basic_trie.states tr') = [(str "his", basic_trie.num_keywords ushers_trie)].
Proof.
  split; [apply ushers_trie_pre_compilation|]. split; [reflexivity|]. split; [discriminate|].
  apply (reset_root_keeps_the_count ushers_trie (str "his")).
  - apply ushers_trie_pre_compilation.
  - reflexivity.
  - discriminate.
Defined.

(** ** Small classes *)

(** [interval::overlaps_with]: two intervals that are not empty overlap
    exactly when some position lies in both, and the test is symmetric. *)
Theorem overlaps_with_shares_a_position (i j : interval.t) :
  interval.get_start i <= interval.get_end i ->
  interval.get_start j <= interval.get_end j ->
  (interval.overlaps_with i j = true <->
   exists point, interval.overlaps_with_point i point = true /\
                 interval.overlaps_with_point j point = true) /\
  interval.overlaps_with i j = interval.overlaps_with j i.
Proof.
  unfold interval.overlaps_with, interval.overlaps_with_point, interval.get_start,
    interval.get_end. intros Hi Hj. split.
  - rewrite andb_true_iff, Z.geb_leb, !Z.leb_le. split.
    + intros [H1 H2]. exists (Z.max (interval.d_start i) (interval.d_start j)).
      rewrite !andb_true_iff, !Z.leb_le. lia.
    + intros (x & Hx1 & Hx2). rewrite !andb_true_iff, !Z.leb_le in Hx1, Hx2. lia.
  - rewrite !Z.geb_leb. apply andb_comm.
Qed.

Lemma overlaps_with_shares_a_position_witness :
  interval.get_start (interval.mk 2 5) <= interval.get_end (interval.mk 2 5) /\
  interval.get_start (interval.mk 5 9) <= interval.get_end (interval.mk 5 9) /\
  (interval.overlaps_with (interval.mk 2 5) (interval.mk 5 9) = true <->
   exists point, interval.overlaps_with_point (interval.mk 2 5) point = true /\
                 interval.overlaps_with_point (interval.mk 5 9) point = true) /\
  interval.overlaps_with (interval.mk 2 5) (interval.mk 5 9)
  = interval.overlaps_with (interval.mk 5 9) (interval.mk 2 5).
Proof.
  split; [simpl; lia|]. split; [simpl; lia|].
  apply (overlaps_with_shares_a_position (interval.mk 2 5) (interval.mk 5 9)); simpl; lia.
Defined.

(** [transition_map]: after [set_transition(c, next)], [find(c)] gives
    [next] and [find] of every other character gives what it gave before. *)
Theorem find_after_set_transition {P} (c c' : CharType) (next : P)
  (d_map : transition_map.map_type P) :
  transition_map.find c' (transition_map.set_transition c next d_map)
  = if decide (c = c') then Some next else transition_map.find c' d_map.
Proof. apply find_map_assign. Qed.

